(** * Solaris: the interval compiler, the cached catalog and the log orchestrator

    A shallow embedding of three parts of the Solaris log store:
    - [pkg/ql/intervalbuilder.go]: [ParamIntervalBuilder] and its helpers;
    - the cached meta storage ([CachedStorage], package [cache]);
    - [pkg/storage/logfs/locallog.go]: [AppendRecords], [QueryRecords] and
      [CountRecords] of [localLog].

    Go's [(value, error)] returns become the [result] type below; a Go
    panic is a result of its own. *)

From Stdlib Require Import ZArith Lia.
From Stdlib Require OrderedTypeEx.
From stdpp Require Import base option list sorting gmap strings.

Local Open Scope string_scope.
Local Open Scope Z_scope.
Local Open Scope list_scope.

(** ** Package [errors] *)

Module errors.

(** The sentinel errors the code wraps with [%w] and tests with
    [errors.Is]. *)
Inductive sentinel : Type :=
  | ErrInvalid
  | ErrNotExist
  | ErrClosed
  | ErrExhausted.

#[export] Instance sentinel_eq_dec : EqDecision sentinel.
Proof. solve_decision. Defined.

(** An error value: its message and the sentinel it wraps, if any. *)
Record error : Type := Errorf { msg : string; wrapped : option sentinel }.

#[export] Instance error_eq_dec : EqDecision error.
Proof. solve_decision. Defined.

Definition Is (e : error) (s : sentinel) : bool :=
    bool_decide (wrapped e = Some s).

(** [fmt.Errorf("...: %w", err)] keeps what [err] wraps. *)
Definition Wrapf (m : string) (e : error) : error :=
    Errorf (m +:+ ": " +:+ msg e) (wrapped e).

End errors.

Import errors.

(** A Go call either returns a value, returns an error, or panics. *)
Inductive result (A : Type) : Type :=
| Ok (a : A)
| Err (e : error)
| Panic (m : string).
Arguments Ok {A} a.
Arguments Err {A} e.
Arguments Panic {A} m.

Definition is_Ok {A} (r : result A) : bool :=
  match r with Ok _ => true | _ => false end.

Definition is_Err {A} (r : result A) : bool :=
  match r with Err _ => true | _ => false end.

(** The value and the error of a function that returns both, or its panic. *)
Inductive ret (A : Type) : Type :=
| Return (v : A) (err : option error)
| Panicked (m : string).
Arguments Return {A} v err.
Arguments Panicked {A} m.

(** A [for ... range] loop whose body may return an error: [f] is the
    fallible call of the body, [step] what the body does with its value. *)
Section range.
Context {A B Acc : Type}.
Variable f : A → result B.
Variable step : Acc → B → Acc.

Fixpoint range_try (l : list A) (acc : Acc) : result Acc :=
  match l with
  | [] => Ok acc
  | a :: l' =>
      match f a with
      | Ok b => range_try l' (step acc b)
      | Err e => Err e
      | Panic m => Panic m
      end
  end.
End range.

(** ** Go's package [sort] *)

Module sort.
Section slice.
Context {A : Type}.

(** [sort.Slice] with the comparison [less]: the slice is reordered so
    that no element is [less] than one that precedes it. *)
Definition not_after (less : A → A → bool) (x y : A) : Prop :=
    less y x = false.

#[export] Instance not_after_dec less x y : Decision (not_after less x y).
Proof. unfold not_after. apply _. Defined.

Definition Slice (less : A → A → bool) (l : list A) : list A :=
    merge_sort (not_after less) l.
End slice.

(** The loop of [sort.Search]: binary search between [i] and [j]. *)
Fixpoint Search_loop (fuel : nat) (f : Z → bool) (i j : Z) : Z :=
    match fuel with
    | O => i
    | S fuel' =>
        if i <? j then
          let h := Z.shiftr (i + j) 1 in
          if negb (f h) then Search_loop fuel' f (h + 1) j
          else Search_loop fuel' f i h
        else i
    end.

(** [sort.Search n f]: the loop halves [j - i], so [n] rounds are more
    than it takes. *)
Definition Search (n : Z) (f : Z → bool) : Z :=
    Search_loop (Z.to_nat n) f 0 n.

End sort.

(** ** Package [intervals] *)

Module intervals.
Section basis.
Context {T : Type}.

(** Modelled from the spec: package [pkg/intervals] is not among the
    sources. An interval has a lower border [L], an upper border [R] and
    two openness flags; [IsOpen], [IsOpenL], [IsOpenR] are the readers the
    builder's tests use. *)
Record Interval : Type := mkInterval {
    L : T;
    R : T;
    lopen : bool;
    ropen : bool
  }.

Definition IsOpen (i : Interval) : bool := lopen i && ropen i.
Definition IsOpenL (i : Interval) : bool := lopen i && negb (ropen i).
Definition IsOpenR (i : Interval) : bool := negb (lopen i) && ropen i.
Definition IsClosed (i : Interval) : bool := negb (lopen i) && negb (ropen i).

(** Modelled from the spec: the ordered-domain basis gives the domain
    minimum and maximum and the comparison of two points (the sign of Go's
    [CmpF]). *)
Record Basis : Type := mkBasis {
    Min : T;
    Max : T;
    CmpF : T → T → comparison
  }.

(** What the interval algebra needs of the comparison. *)
Record LawfulCmp (cmp : T → T → comparison) : Prop := {
    cmp_eq : ∀ x y, cmp x y = Eq ↔ x = y;
    cmp_antisym : ∀ x y, cmp y x = CompOpp (cmp x y);
    cmp_trans : ∀ x y z, cmp x y = Lt → cmp y z = Lt → cmp x z = Lt
  }.

Variable b : Basis.

(** Modelled from the spec: interval construction, "open/closed
    combinations". [OpenL] is open on the left only, [OpenR] on the right
    only. *)
Definition Open (l r : T) : Interval := mkInterval l r true true.
Definition OpenL (l r : T) : Interval := mkInterval l r true false.
Definition OpenR (l r : T) : Interval := mkInterval l r false true.
Definition Closed (l r : T) : Interval := mkInterval l r false false.

(** The points of an interval. *)
Definition above_lower (i : Interval) (x : T) : bool :=
    match CmpF b (L i) x with
    | Lt => true
    | Eq => negb (lopen i)
    | Gt => false
    end.

Definition below_upper (i : Interval) (x : T) : bool :=
    match CmpF b x (R i) with
    | Lt => true
    | Eq => negb (ropen i)
    | Gt => false
    end.

Definition contains (i : Interval) (x : T) : bool :=
    above_lower i x && below_upper i x.

Definition contains_any (l : list Interval) (x : T) : bool :=
    existsb (λ i, contains i x) l.

(** Modelled from the spec: [StartsBefore i1 i2] orders intervals by
    their lower border; with equal [L] the closed border comes first. *)
Definition StartsBefore (i1 i2 : Interval) : bool :=
    match CmpF b (L i1) (L i2) with
    | Lt => true
    | Eq => negb (lopen i1) && lopen i2
    | Gt => false
    end.

(** The lower border of [hi] reaches the upper border of [lo]: the two
    overlap or are adjacent with no point missing between them. *)
Definition touches (lo hi : Interval) : bool :=
    match CmpF b (L hi) (R lo) with
    | Lt => true
    | Eq => negb (lopen hi) || negb (ropen lo)
    | Gt => false
    end.

(** The greater of two upper borders. *)
Definition upper_of (i1 i2 : Interval) : T * bool :=
    match CmpF b (R i1) (R i2) with
    | Lt => (R i2, ropen i2)
    | Eq => (R i1, ropen i1 && ropen i2)
    | Gt => (R i1, ropen i1)
    end.

(** The smaller of two upper borders. *)
Definition lower_upper_of (i1 i2 : Interval) : T * bool :=
    match CmpF b (R i1) (R i2) with
    | Lt => (R i1, ropen i1)
    | Eq => (R i1, ropen i1 || ropen i2)
    | Gt => (R i2, ropen i2)
    end.

(** Modelled from the spec: [Union] merges two intervals that overlap or
    are adjacent into one, and reports [None] (Go: [ok = false])
    otherwise. *)
Definition Union (i1 i2 : Interval) : option Interval :=
    let (lo, hi) := if StartsBefore i2 i1 then (i2, i1) else (i1, i2) in
    if touches lo hi then
      let (r, ro) := upper_of lo hi in
      Some (mkInterval (L lo) r (lopen lo) ro)
    else None.

Definition nonempty (i : Interval) : bool :=
    match CmpF b (L i) (R i) with
    | Lt => true
    | Eq => negb (lopen i) && negb (ropen i)
    | Gt => false
    end.

(** Modelled from the spec: [Intersect] gives the common part of two
    intervals, and [None] when it is empty. *)
Definition Intersect (i1 i2 : Interval) : option Interval :=
    let lo := if StartsBefore i2 i1 then i1 else i2 in
    let (r, ro) := lower_upper_of i1 i2 in
    let i := mkInterval (L lo) r (lopen lo) ro in
    if nonempty i then Some i else None.

(** Modelled from the spec: [Negate] is the complement of an interval in
    the domain [[Min, Max]]: what lies below its lower border and what lies
    above its upper border. *)
Definition Negate (i : Interval) : list Interval :=
    let below :=
      match CmpF b (Min b) (L i) with
      | Lt => [mkInterval (Min b) (L i) false (negb (lopen i))]
      | Eq => if lopen i then [Closed (Min b) (Min b)] else []
      | Gt => []
      end in
    let above :=
      match CmpF b (R i) (Max b) with
      | Lt => [mkInterval (R i) (Max b) (negb (ropen i)) false]
      | Eq => if ropen i then [Closed (Max b) (Max b)] else []
      | Gt => []
      end in
    below ++ above.

(** Order on the points, and on intervals: [apart a c] when [c] starts
    beyond the end of [a] with a point missing between them;
    [separated a c] when moreover [a] does not start after [c]. *)
Definition point_lt (x y : T) : Prop := CmpF b x y = Lt.

Definition apart (a c : Interval) : Prop := touches a c = false.

Definition separated (a c : Interval) : Prop :=
  sort.not_after StartsBefore a c ∧ apart a c.

End basis.
Arguments Interval T : clear implicits.
Arguments Basis T : clear implicits.
End intervals.

Import intervals.

(** ** Package [ql]: the interval builder *)

Module ql.

(** The parts of package [ql] that are not among the sources. *)
Section ast.
Context {ConstT : Type}.

    (** A parameter of a condition: what its methods [ID()] and
        [Name(false)] return, and its constant, when it is one. *)
Record Param : Type := mkParam {
      ID : string;
      Name : string;
      Const : option ConstT
    }.

Record Condition : Type := mkCondition {
      FirstParam : Param;
      Op : string;
      SecondParam : option Param
    }.

    (** [Expression] is an OR of [OrCondition]s, each an AND of
        [XCondition]s; an [XCondition] is an optionally negated nested
        expression or comparison (two pointers, either may be nil). *)
Inductive Expression : Type :=
    | mkExpression (Or : list OrCondition)
    with OrCondition : Type :=
    | mkOrCondition (And : list XCondition)
    with XCondition : Type :=
    | mkXCondition (Not : bool) (Expr : option Expression) (Cond : option Condition).

End ast.
Arguments Param ConstT : clear implicits.
Arguments Condition ConstT : clear implicits.
Arguments Expression ConstT : clear implicits.
Arguments OrCondition ConstT : clear implicits.
Arguments XCondition ConstT : clear implicits.

Definition OpsAll : list string := ["<"; ">"; "<="; ">="; "="; "!="].
Definition OpsGtLt : list string := ["<"; ">"].

Section builder.
Context {T K Any VT ConstT : Type}.

    (** Go's [ValueF func(p *Param, k K) (any, error)]. *)
Definition ValueFn : Type := Param ConstT → K → result Any.

Record ParamDialect : Type := mkParamDialect {
      Flags : Z;
      ValueF : ValueFn;
      Type_ : VT
    }.

    (** The package-level names the builder uses and the sources do not
        give: the flag bits, [castValueF], the zero value of [K] and the
        type assertion [kVal.(T)]. *)
Record Package : Type := mkPackage {
      PfLValue : Z;
      PfRValue : Z;
      PfNop : Z;
      PfComparable : Z;
      PfGreaterLess : Z;
      castValueF : ValueFn → VT → VT → result ValueFn;
      zeroK : K;
      assertT : Any → option T
    }.

Record ParamIntervalBuilder : Type := mkBuilder {
      basis : Basis T;
      dialect : gmap string ParamDialect;
      param : string;
      ops : gset string
    }.

Definition NewParamIntervalBuilder (bs : Basis T)
        (d : gmap string ParamDialect) (p : string) (os : list string)
      : ParamIntervalBuilder :=
      mkBuilder bs d p (foldl (λ m op, {[op]} ∪ m) ∅ os).

Variable pkg : Package.
Variable ib : ParamIntervalBuilder.

Definition getIntervals (op : string) (val : T) : list (Interval T) :=
      let bs := basis ib in
      if String.eqb op "<" then [OpenR (Min bs) val]
      else if String.eqb op ">" then [OpenL val (Max bs)]
      else if String.eqb op "<=" then [Closed (Min bs) val]
      else if String.eqb op ">=" then [Closed val (Max bs)]
      else if String.eqb op "=" then [Closed val val]
      else if String.eqb op "!=" then Negate bs (Closed val val)
      else [].

    (** The merging loop of [union]: [prev] absorbs [curr] while
        [basis.Union] succeeds. *)
Fixpoint union_loop (prev : Interval T) (rest res : list (Interval T))
      : list (Interval T) :=
      match rest with
      | [] => res ++ [prev]
      | curr :: rest' =>
          match Union (basis ib) prev curr with
          | Some u => union_loop u rest' res
          | None => union_loop curr rest' (res ++ [prev])
          end
      end.

Definition union (intervalsL : list (Interval T)) : list (Interval T) :=
      match sort.Slice (StartsBefore (basis ib)) intervalsL with
      | [] => []
      | prev :: rest => union_loop prev rest []
      end.

    (** The two inner loops of [intersect]. *)
Definition intersect_pair (prev curr : list (Interval T))
      : list (Interval T) :=
      flat_map (λ pj,
        flat_map (λ ck,
          match Intersect (basis ib) pj ck with
          | Some t => [t]
          | None => []
          end) curr) prev.

Definition intersect (groups : list (list (Interval T)))
      : list (Interval T) :=
      match groups with
      | [] => []
      | g0 :: gs => foldl intersect_pair g0 gs
      end.

Definition invalid (m : string) : error := Errorf m (Some ErrInvalid).

Definition has (flags bit : Z) : bool := negb (Z.eqb (Z.land flags bit) 0).

Definition buildCond (cond : Condition ConstT) : result (list (Interval T)) :=
      let p1 := FirstParam cond in
      match dialect ib !! ID p1 with
      | None => Err (invalid ("the parameter " +:+ Name p1 +:+ " must be known"))
      | Some dp1 =>
      if negb (has (Flags dp1) (PfLValue pkg)) then
        Err (invalid ("the parameter " +:+ Name p1 +:+
                      " must be on the left side of the condition"))
      else if has (Flags dp1) (PfNop pkg) then
        Err (invalid ("the parameter " +:+ Name p1 +:+ " must allow operation"))
      else if negb (String.eqb (Name p1) (param ib)) then Ok []
      else
      match SecondParam cond with
      | None => Err (invalid ("the second parameter must be specified for the parameter "
                              +:+ Name p1))
      | Some p2 =>
      match dialect ib !! ID p2 with
      | None => Err (invalid ("the second parameter " +:+ Name p2 +:+ " must be known"))
      | Some dp2 =>
      if negb (has (Flags dp2) (PfRValue pkg)) then
        Err (invalid ("the second parameter " +:+ Name p2 +:+
                      " must be on the right side of the condition"))
      else if has (Flags dp2) (PfNop pkg) then
        Err (invalid ("the second parameter " +:+ Name p2 +:+ " must allow operation"))
      else if negb (bool_decide (is_Some (Const p2))) then Ok []
      else if negb (bool_decide (Op cond ∈ ops ib)) then Ok []
      else
      let gtlt := String.eqb (Op cond) "<" || String.eqb (Op cond) ">" in
      let rest := String.eqb (Op cond) "<=" || String.eqb (Op cond) ">="
                  || String.eqb (Op cond) "=" || String.eqb (Op cond) "!=" in
      if gtlt && negb (has (Flags dp1) (PfComparable pkg))
              && negb (has (Flags dp1) (PfGreaterLess pkg)) then
        Err (invalid ("the first parameter " +:+ Name p1 +:+ " must be comparable"))
      else if gtlt && negb (has (Flags dp2) (PfComparable pkg))
                   && negb (has (Flags dp2) (PfGreaterLess pkg)) then
        Err (invalid ("the second parameter " +:+ Name p2 +:+ " must be comparable"))
      else if rest && negb (has (Flags dp1) (PfComparable pkg)) then
        Err (invalid ("the first parameter " +:+ Name p1 +:+ " must be comparable"))
      else if rest && negb (has (Flags dp2) (PfComparable pkg)) then
        Err (invalid ("the second parameter " +:+ Name p2 +:+ " must be comparable"))
      else
      match castValueF pkg (ValueF dp2) (Type_ dp2) (Type_ dp1) with
      | Err e => Err e
      | Panic m => Panic m
      | Ok vf =>
      match vf p2 (zeroK pkg) with
      | Err e => Err e
      | Panic m => Panic m
      | Ok kVal =>
      match assertT pkg kVal with
      | None => Err (invalid "cannot cast the second parameter value to interval point")
      | Some tVal => Ok (getIntervals (Op cond) tVal)
      end end end end end end.

    (** The two accumulating steps: [res = append(res, tt...)] in [Build]
        and [groups = append(groups, group)] in [buildOR], both under
        [len(...) > 0]. *)
Definition add_intervals (res ts : list (Interval T)) : list (Interval T) :=
      if 0 <? Z.of_nat (length ts) then res ++ ts else res.

Definition add_group (groups : list (list (Interval T))) (group : list (Interval T))
      : list (list (Interval T)) :=
      if 0 <? Z.of_nat (length group) then groups ++ [group] else groups.

    (** [Build], [buildOR] and [buildXCond] call each other; the loops over
        [expr.Or] and [or.And] are [range_try]. *)
Fixpoint Build (expr : Expression ConstT) : result (list (Interval T)) :=
      match expr with
      | mkExpression ors =>
          match range_try buildOR add_intervals ors [] with
          | Ok res => Ok (union res)
          | Err e => Err e
          | Panic m => Panic m
          end
      end
with buildOR (or : OrCondition ConstT) : result (list (Interval T)) :=
      match or with
      | mkOrCondition ands =>
          match range_try buildXCond add_group ands [] with
          | Ok groups => Ok (intersect groups)
          | Err e => Err e
          | Panic m => Panic m
          end
      end
with buildXCond (and : XCondition ConstT) : result (list (Interval T)) :=
      match and with
      | mkXCondition not oexpr ocond =>
          let built :=
            match oexpr with
            | Some e => Build e
            | None =>
                match ocond with
                | Some c => buildCond c
                | None => Panic "invalid memory address or nil pointer dereference"
                end
            end in
          match built with
          | Ok res =>
              if negb not then Ok res
              else Ok (flat_map (Negate (basis ib)) res)
          | Err e => Err e
          | Panic m => Panic m
          end
      end.

End builder.
Arguments ValueFn K Any ConstT : clear implicits.
Arguments ParamDialect K Any VT ConstT : clear implicits.
Arguments Package T K Any VT ConstT : clear implicits.
Arguments ParamIntervalBuilder T K Any VT ConstT : clear implicits.
(** What the theorems say of a comparison. *)
Section conditions.
Context {T K Any VT ConstT : Type}.
Variable pkg : Package T K Any VT ConstT.
Variable ib : ParamIntervalBuilder T K Any VT ConstT.

(** Every comparison of an expression, in the order [Build] meets them. *)
Fixpoint conds_of (e : Expression ConstT) : list (Condition ConstT) :=
  match e with
  | mkExpression ors =>
      flat_map (λ o,
        match o with
        | mkOrCondition ands =>
            flat_map (λ x,
              match x with
              | mkXCondition _ (Some e') _ => conds_of e'
              | mkXCondition _ None (Some c) => [c]
              | mkXCondition _ None None => []
              end) ands
        end) ors
  end.

(** The checks on the left operand that come before the target
    parameter is looked at. *)
Definition left_ok (c : Condition ConstT) (dp1 : ParamDialect K Any VT ConstT) : Prop :=
  dialect ib !! ID (FirstParam c) = Some dp1 ∧
  has (Flags dp1) (PfLValue pkg) = true ∧
  has (Flags dp1) (PfNop pkg) = false.

(** The comparison is on the target parameter and its right operand is
    a known constant that may stand on the right. *)
Definition on_target (c : Condition ConstT) (dp1 : ParamDialect K Any VT ConstT)
    (p2 : Param ConstT) (dp2 : ParamDialect K Any VT ConstT) : Prop :=
  left_ok c dp1 ∧
  Name (FirstParam c) = param ib ∧
  SecondParam c = Some p2 ∧
  dialect ib !! ID p2 = Some dp2 ∧
  has (Flags dp2) (PfRValue pkg) = true ∧
  has (Flags dp2) (PfNop pkg) = false ∧
  is_Some (Const p2).

(** The flags the operator asks of both operands. *)
Definition comparable (c : Condition ConstT) (dp1 dp2 : ParamDialect K Any VT ConstT) : Prop :=
  has (Flags dp1) (PfComparable pkg) = true ∧
  has (Flags dp2) (PfComparable pkg) = true.

(** [Build] of the expression that is one comparison. *)
Definition single (c : Condition ConstT) : Expression ConstT :=
  mkExpression [mkOrCondition [mkXCondition false None (Some c)]].

End conditions.
End ql.

(** ** The types the log orchestrator shares with its collaborators *)

(** [oklog/ulid]: a ULID is 16 bytes compared byte by byte, that is a
    128-bit big-endian number; the zero value is [0]. *)
Module ulid.
Definition ULID : Type := Z.

Definition Compare (a b : ULID) : Z :=
  match a ?= b with Lt => -1 | Eq => 0 | Gt => 1 end.

(** The 48 leading bits are the time in milliseconds. *)
Definition Time (id : ULID) : Z := Z.shiftr id 80.
End ulid.

(** The generated API types ([api/proto/solaris/v1/solaris.proto]). *)
Module solaris.
Record Record_ : Type := mkRecord {
  ID : string;
  LogID : string;
  Payload : list Byte.byte;
  CreatedAt : Z
}.

Record AppendRecordsRequest : Type := mkAppendRecordsRequest {
  req_LogID : string;
  Records : list Record_;
  ExpandIDs : bool
}.

Record AppendRecordsResult : Type := mkAppendRecordsResult {
  Added : Z;
  RecordIDs : list string
}.
End solaris.

(** [storage.QueryRecordsRequest]. *)
Module storage.
Record QueryRecordsRequest : Type := mkQueryRecordsRequest {
  LogID : string;
  Condition : string;
  StartID : string;
  Descending : bool;
  Limit : Z
}.
End storage.

(** Modelled from the spec: package [chunkfs] is not among the sources.
    The chunk codec reports "how many were actually written plus
    first/last written IDs"; a chunk holds its records in ID order; a
    reader is a directional cursor with [SetStartID], [HasNext] and
    [Next]. *)
Module chunkfs.
Record AppendRecordsResult : Type := mkAppendRecordsResult {
  Written : Z;
  StartID : ulid.ULID;
  LastID : ulid.ULID
}.

Record UnsafeRecord : Type := mkUnsafeRecord {
  ID : ulid.ULID;
  UnsafePayload : list Byte.byte
}.

(** An opened chunk: the records it holds, first to last, and the error
    [OpenChunkReader] gives for a direction, if any. *)
Record Chunk : Type := mkChunk {
  records : list UnsafeRecord;
  reader_err : bool → option error
}.

(** A cursor: its direction and the records it has still to give. *)
Record ChunkReader : Type := mkChunkReader {
  descending : bool;
  remaining : list UnsafeRecord
}.

Definition OpenChunkReader (c : Chunk) (desc : bool) : result ChunkReader :=
  match reader_err c desc with
  | Some e => Err e
  | None => Ok (mkChunkReader desc (if desc then reverse (records c) else records c))
  end.

(** Modelled from the spec: the start ID is inclusive: an ascending cursor
    starts at the first record whose ID is equal or greater, a descending
    one at the first record whose ID is equal or lower
    ([startRecordID] in [solaris.proto]). *)
Fixpoint skip_to (desc : bool) (sid : ulid.ULID) (l : list UnsafeRecord)
  : list UnsafeRecord :=
  match l with
  | [] => []
  | r :: l' =>
      if (if desc then ID r >? sid else ID r <? sid)
      then skip_to desc sid l' else l
  end.

Definition SetStartID (cr : ChunkReader) (sid : ulid.ULID) : ChunkReader :=
  mkChunkReader (descending cr) (skip_to (descending cr) sid (remaining cr)).

Definition HasNext (cr : ChunkReader) : bool :=
  match remaining cr with [] => false | _ => true end.
End chunkfs.

(** ** Package [logfs]: the log orchestrator *)

Module logfs.

Record ChunkInfo : Type := mkChunkInfo {
  ID : string;
  Min : ulid.ULID;
  Max : ulid.ULID;
  RecordsCount : Z
}.

#[export] Instance ChunkInfo_eq_dec : EqDecision ChunkInfo.
Proof. solve_decision. Defined.

(** [ChunkInfo{}] and [ChunkInfo{ID: id}]. *)
Definition ChunkInfo_zero : ChunkInfo := mkChunkInfo "" 0 0 0.
Definition ChunkInfo_new (id : string) : ChunkInfo := mkChunkInfo id 0 0 0.

Record Config : Type := mkConfig {
  MaxRecordsLimit : Z;
  MaxBunchSize : Z;
  MaxLocks : Z
}.

(** Go's [int] and [uint64] arithmetic. *)
Definition wrap_int (x : Z) : Z := (x + 2 ^ 63) mod 2 ^ 64 - 2 ^ 63.
Definition wrap_uint64 (x : Z) : Z := x mod 2 ^ 64.

(** What [localLog] is injected with or imports, over a state [W] of the
    world outside it: the lockers pool, the meta storage ([LMStorage]),
    the chunk provider with its chunk accessor ([ChnkProvider],
    [ChnkProvider.CA]), [ulidutils.NewID] and the ULID text codec.
    Reading leaves the world as it is; the steps of a write return the
    next world. *)
Record Deps (W : Type) : Type := mkDeps {
  lockers_GetOrCreate : string → W → option error;
  GetLastChunk : string → W → ChunkInfo * option error;
  GetChunks : string → W → result (list ChunkInfo);
  UpsertChunkInfos : string → list ChunkInfo → W → option error * W;
  NewID : W → string * W;
  (* the read path: [GetOpenedChunk(ctx, id, false)] *)
  GetOpenedChunk : string → W → result chunkfs.Chunk;
  (* the write path: [GetOpenedChunk(ctx, id, newFile)], [CA.SetWriting],
     the chunk's [AppendRecords], and the deferred [CA.SetIdle] and
     [ReleaseChunk] *)
  OpenForWrite : string → bool → W → option error * W;
  SetWriting : string → W → option error * W;
  chunk_AppendRecords : string → list solaris.Record_ → W
                        → result chunkfs.AppendRecordsResult * W;
  SetIdle : string → W → W;
  ReleaseChunk : string → W → W;
  DeleteFileIfEmpty : string → W → W;
  UnmarshalText : string → option ulid.ULID;
  ULID_String : ulid.ULID → string
}.
Arguments lockers_GetOrCreate {W} _ _ _.
Arguments GetLastChunk {W} _ _ _.
Arguments GetChunks {W} _ _ _.
Arguments UpsertChunkInfos {W} _ _ _ _.
Arguments NewID {W} _ _.
Arguments GetOpenedChunk {W} _ _ _.
Arguments OpenForWrite {W} _ _ _ _.
Arguments SetWriting {W} _ _ _.
Arguments chunk_AppendRecords {W} _ _ _ _.
Arguments SetIdle {W} _ _ _.
Arguments ReleaseChunk {W} _ _ _.
Arguments DeleteFileIfEmpty {W} _ _ _.
Arguments UnmarshalText {W} _ _.
Arguments ULID_String {W} _ _.

(** What a call did to the chunks and the catalog, in order: the ghost
    history the theorems read. *)
Inductive Event : Type :=
| EvWrite (cID : string) (newFile : bool) (offered : list solaris.Record_)
          (r : result chunkfs.AppendRecordsResult)
| EvDeleteIfEmpty (cID : string)
| EvUpsert (lid : string) (cis : list ChunkInfo) (err : option error).

Section localLog.
Context {W : Type}.
Variable d : Deps W.
Variable cfg : Config.

(** The private [appendRecords]: open the chunk, take the write access,
    append; the two deferred calls run on the way out. *)
Definition appendRecords (cID : string) (newFile : bool)
    (recs : list solaris.Record_) (w : W)
  : result chunkfs.AppendRecordsResult * W :=
  match OpenForWrite d cID newFile w with
  | (Some err, w1) => (Err err, w1)
  | (None, w1) =>
      match SetWriting d cID w1 with
      | (Some err, w2) => (Err err, ReleaseChunk d cID w2)
      | (None, w2) =>
          let (r, w3) := chunk_AppendRecords d cID recs w2 in
          (r, ReleaseChunk d cID (SetIdle d cID w3))
      end
  end.

(** The variables of the loop of [AppendRecords], the world and the
    history so far, and the panic that stopped the loop, if one did. *)
Record AppendState : Type := mkAppendState {
  st_ci : ChunkInfo;
  st_recs : list solaris.Record_;
  st_added : Z;
  st_cis : list ChunkInfo;
  st_gerr : option error;
  st_world : W;
  st_trace : list Event;
  st_panic : option string
}.

Definition set_count (ci : ChunkInfo) (n : Z) : ChunkInfo :=
  mkChunkInfo (ID ci) (Min ci) (Max ci) n.

Definition sizing_error (recs : list solaris.Record_) : error :=
  Errorf "it seems the maximum chunk size is less than the record size"
         (Some ErrInvalid).

(** How a round of a loop ends. *)
Inductive flow : Type :=
| Break (st : AppendState)
| Continue (st : AppendState).

(** One round of [for len(recs) > 0 { ... }]; the slice expression
    [recs[arr.Written:]] panics out of range. *)
Definition append_body (st : AppendState) : flow :=
  let '(ci, w0) :=
    if RecordsCount (st_ci st) =? 0
    then let (id, w') := NewID d (st_world st) in (ChunkInfo_new id, w')
    else (st_ci st, st_world st) in
  let newFile := RecordsCount ci =? 0 in
  let (r, w1) := appendRecords (ID ci) newFile (st_recs st) w0 in
  let tr := st_trace st ++ [EvWrite (ID ci) newFile (st_recs st) r] in
  match r with
  | Panic m =>
      Break (mkAppendState ci (st_recs st) (st_added st) (st_cis st)
               (st_gerr st) w1 tr (Some m))
  | Err err =>
      Break (mkAppendState ci (st_recs st) (st_added st) (st_cis st)
               (Some err) w1 tr None)
  | Ok arr =>
      if 0 <? chunkfs.Written arr then
        let ci1 :=
          mkChunkInfo (ID ci)
            (if RecordsCount ci =? 0 then chunkfs.StartID arr else Min ci)
            (chunkfs.LastID arr)
            (wrap_int (RecordsCount ci + chunkfs.Written arr)) in
        if Z.of_nat (length (st_recs st)) <? chunkfs.Written arr
        then
          Break (mkAppendState ci1 (st_recs st) (st_added st)
                   (st_cis st ++ [ci1]) (st_gerr st) w1 tr
                   (Some "slice bounds out of range"))
        else
          Continue
            (mkAppendState (set_count ci1 0)
               (drop (Z.to_nat (chunkfs.Written arr)) (st_recs st))
               (st_added st + chunkfs.Written arr)
               (st_cis st ++ [ci1]) (st_gerr st) w1 tr None)
      else if RecordsCount ci =? 0 then
        Break (mkAppendState ci (st_recs st) (st_added st) (st_cis st)
                 (Some (sizing_error (st_recs st))) w1 tr None)
      else
        Continue
          (mkAppendState (set_count ci 0) (st_recs st) (st_added st)
             (st_cis st) (st_gerr st) w1 tr None)
  end.

(** [for len(recs) > 0 { ... }]; [None] when the fuel runs out. *)
Fixpoint append_loop (fuel : nat) (st : AppendState) : option AppendState :=
  match fuel with
  | O => None
  | S fuel' =>
      if negb (0 <? Z.of_nat (length (st_recs st))) then Some st
      else
        match append_body st with
        | Break st' => Some st'
        | Continue st' => append_loop fuel' st'
        end
  end.

(** Each round either writes a record or turns to a new chunk. *)
Definition append_fuel (recs : list solaris.Record_) : nat :=
  2 * length recs + 2.

Definition Result (added : Z) : option solaris.AppendRecordsResult :=
  Some (solaris.mkAppendRecordsResult added []).

(** [AppendRecords] gives what the call returns, the world it leaves and
    the history of the call. Taking and releasing the log's lock leaves no
    mark on either. *)
Definition AppendRecords (request : solaris.AppendRecordsRequest) (w : W)
  : option (ret (option solaris.AppendRecordsResult) * W * list Event) :=
  let lid := solaris.req_LogID request in
  match lockers_GetOrCreate d lid w with
  | Some err =>
      Some (Return None (Some (Wrapf ("could not obtain the log locker for id=" +:+ lid) err)),
            w, [])
  | None =>
      let (ci, err) := GetLastChunk d lid w in
      if match err with Some e => negb (Is e ErrNotExist) | None => false end
      then Some (Return None err, w, [])
      else
        match append_loop (append_fuel (solaris.Records request))
                (mkAppendState ci (solaris.Records request) 0 [] None w [] None) with
        | None => None
        | Some st =>
            match st_panic st with
            | Some m => Some (Panicked m, st_world st, st_trace st)
            | None =>
                let '(w1, tr1) :=
                  if RecordsCount (st_ci st) =? 0
                  then (DeleteFileIfEmpty d (ID (st_ci st)) (st_world st),
                        st_trace st ++ [EvDeleteIfEmpty (ID (st_ci st))])
                  else (st_world st, st_trace st) in
                if 0 <? st_added st then
                  match UpsertChunkInfos d lid (st_cis st) w1 with
                  | (Some e, w2) =>
                      Some (Panicked "unrecoverable error, data is corrupted", w2,
                            tr1 ++ [EvUpsert lid (st_cis st) (Some e)])
                  | (None, w2) =>
                      Some (Return (Result (st_added st)) None, w2,
                            tr1 ++ [EvUpsert lid (st_cis st) None])
                  end
                else Some (Return (Result (st_added st)) (st_gerr st), w1, tr1)
            end
        end
  end.

(** [cis[i]]; every use is guarded by [0 <= i < len(cis)]. *)
Definition at_ (cis : list ChunkInfo) (i : Z) : ChunkInfo :=
  default ChunkInfo_zero (cis !! Z.to_nat i).

Definition len {A} (l : list A) : Z := Z.of_nat (length l).

(** The chunk a scan starts in, [sort.Search] over the chunk list. *)
Definition start_index (cis : list ChunkInfo) (desc : bool) (sid : ulid.ULID) : Z :=
  if desc then
    sort.Search (len cis) (λ i, 0 <? ulid.Compare (Min (at_ cis i)) sid) - 1
  else
    sort.Search (len cis) (λ i, 0 <=? ulid.Compare (Max (at_ cis i)) sid).

Definition to_Record (lid : string) (ur : chunkfs.UnsafeRecord) : solaris.Record_ :=
  solaris.mkRecord (ULID_String d (chunkfs.ID ur)) lid (chunkfs.UnsafePayload ur)
                   (ulid.Time (chunkfs.ID ur)).

(** The loop of [readRecords] over the cursor. *)
Fixpoint read_loop (lid : string) (rem : list chunkfs.UnsafeRecord) (limit : Z)
    (res : list solaris.Record_) (totalSize : Z) : list solaris.Record_ * Z :=
  match rem with
  | [] => (res, totalSize)
  | ur :: rem' =>
      if (len res <? limit) && (totalSize <? MaxBunchSize cfg) then
        read_loop lid rem' limit (res ++ [to_Record lid ur])
                  (totalSize + len (chunkfs.UnsafePayload ur))
      else (res, totalSize)
  end.

(** The cursor of a chunk, placed at [sid] unless [sid] is the zero ID. *)
Definition open_cursor (w : W) (ci : ChunkInfo) (desc : bool) (sid : ulid.ULID)
  : result chunkfs.ChunkReader :=
  match GetOpenedChunk d (ID ci) w with
  | Err e => Err e
  | Panic m => Panic m
  | Ok rc =>
      match chunkfs.OpenChunkReader rc desc with
      | Err e => Err e
      | Panic m => Panic m
      | Ok cr =>
          Ok (if negb (ulid.Compare sid 0 =? 0) then chunkfs.SetStartID cr sid else cr)
      end
  end.

(** [readRecords] returns the records and the updated [*totalSize]. *)
Definition readRecords (w : W) (lid : string) (ci : ChunkInfo) (desc : bool)
    (sid : ulid.ULID) (limit : Z) (totalSize : Z)
  : result (list solaris.Record_ * Z) :=
  match open_cursor w ci desc sid with
  | Err e => Err e
  | Panic m => Panic m
  | Ok cr => Ok (read_loop lid (chunkfs.remaining cr) limit [] totalSize)
  end.

Definition countRecords (w : W) (ci : ChunkInfo) (desc : bool) (sid : ulid.ULID)
  : result Z :=
  match open_cursor w ci desc sid with
  | Err e => Err e
  | Panic m => Panic m
  | Ok cr =>
      Ok (fold_left (λ count _, wrap_uint64 (count + 1)) (chunkfs.remaining cr) 0)
  end.

Definition wrong_startID (s : string) : error :=
  Errorf ("wrong startID=" +:+ s) (Some ErrInvalid).

Definition locker_error (lid : string) (err : error) : error :=
  Wrapf ("could not obtain the log locker for id=" +:+ lid) err.

(** The chunk loop of [QueryRecords]. *)
Fixpoint query_loop (fuel : nat) (w : W) (lid : string) (cis : list ChunkInfo)
    (desc : bool) (inc limit : Z) (idx : Z) (sid : ulid.ULID)
    (res : list solaris.Record_) (totalSize : Z)
  : option (ret (list solaris.Record_ * bool)) :=
  match fuel with
  | O => None
  | S fuel' =>
      if (0 <=? idx) && (idx <? len cis) && (len res <? limit) then
        match readRecords w lid (at_ cis idx) desc sid (limit - len res) totalSize with
        | Err e => Some (Return ([], false) (Some e))
        | Panic m => Some (Panicked m)
        | Ok (srecs, totalSize') =>
            query_loop fuel' w lid cis desc inc limit (idx + inc) 0
                       (res ++ srecs) totalSize'
        end
      else
        Some (Return (res, (limit <=? len res) || (MaxBunchSize cfg <=? totalSize))
                     None)
  end.

Definition QueryRecords (request : storage.QueryRecordsRequest) (w : W)
  : option (ret (list solaris.Record_ * bool)) :=
  let lid := storage.LogID request in
  match lockers_GetOrCreate d lid w with
  | Some err => Some (Return ([], false) (Some (locker_error lid err)))
  | None =>
  match GetChunks d lid w with
  | Panic m => Some (Panicked m)
  | Err err => Some (Return ([], false) (Some err))
  | Ok cis =>
  if len cis =? 0 then Some (Return ([], false) None)
  else
    let desc := storage.Descending request in
    let inc := if desc then -1 else 1 in
    let idx0 := if desc then len cis - 1 else 0 in
    let limit := if MaxRecordsLimit cfg <? storage.Limit request
                 then MaxRecordsLimit cfg else storage.Limit request in
    if negb (String.eqb (storage.StartID request) "") then
      match UnmarshalText d (storage.StartID request) with
      | None => Some (Return ([], false) (Some (wrong_startID (storage.StartID request))))
      | Some sid =>
          query_loop (S (length cis)) w lid cis desc inc limit
                     (start_index cis desc sid) sid [] 0
      end
    else query_loop (S (length cis)) w lid cis desc inc limit idx0 0 [] 0
  end end.

Definition uint64 (x : Z) : Z := wrap_uint64 x.

(** [for i := initialIdx; i != idx; i += inc]: the chunks the scan leaves
    behind. *)
Fixpoint skipped_loop (fuel : nat) (cis : list ChunkInfo) (inc idx i total : Z)
  : option Z :=
  match fuel with
  | O => None
  | S fuel' =>
      if negb (i =? idx) then
        skipped_loop fuel' cis inc idx (i + inc)
                     (wrap_uint64 (total + uint64 (RecordsCount (at_ cis i))))
      else Some total
  end.

(** [for ; idx >= 0 && idx < len(cis); idx += inc]: the chunks wholly in
    the scan. *)
Fixpoint matching_loop (fuel : nat) (cis : list ChunkInfo) (inc idx : Z)
    (total count : Z) : option (Z * Z) :=
  match fuel with
  | O => None
  | S fuel' =>
      if (0 <=? idx) && (idx <? len cis) then
        let l := uint64 (RecordsCount (at_ cis idx)) in
        matching_loop fuel' cis inc (idx + inc)
                      (wrap_uint64 (total + l)) (wrap_uint64 (count + l))
      else Some (total, count)
  end.

(** [CountRecords] returns [(total, count)]. *)
Definition CountRecords (request : storage.QueryRecordsRequest) (w : W)
  : option (ret (Z * Z)) :=
  let lid := storage.LogID request in
  match lockers_GetOrCreate d lid w with
  | Some err => Some (Return (0, 0) (Some (locker_error lid err)))
  | None =>
  match GetChunks d lid w with
  | Panic m => Some (Panicked m)
  | Err err => Some (Return (0, 0) (Some err))
  | Ok cis =>
  if len cis =? 0 then Some (Return (0, 0) None)
  else
    let desc := storage.Descending request in
    let inc := if desc then -1 else 1 in
    let idx0 := if desc then len cis - 1 else 0 in
    let initialIdx := if desc then len cis - 1 else 0 in
    let finish (idx total count : Z) :=
      match matching_loop (S (length cis)) cis inc idx total count with
      | None => None
      | Some (total', count') => Some (Return (total', count') None)
      end in
    if negb (String.eqb (storage.StartID request) "") then
      match UnmarshalText d (storage.StartID request) with
      | None => Some (Return (0, 0) (Some (wrong_startID (storage.StartID request))))
      | Some sid =>
          let idx := start_index cis desc sid in
          if (0 <=? idx) && (idx <? len cis) then
            let total := uint64 (RecordsCount (at_ cis idx)) in
            match countRecords w (at_ cis idx) desc sid with
            | Panic m => Some (Panicked m)
            | Err _ => Some (Return (0, 0) None)
            | Ok numRecs =>
                let count := wrap_uint64 (0 + numRecs) in
                match skipped_loop (S (length cis)) cis inc idx initialIdx total with
                | None => None
                | Some total' => finish (idx + inc) total' count
                end
            end
          else finish idx 0 0
      end
    else finish idx0 0 0
  end end.

End localLog.
Arguments AppendState W : clear implicits.
Arguments flow W : clear implicits.
(** *** The history of a call, as the theorems read it *)

(** The records a step of the history wrote into a chunk. *)
Definition written_by (ev : Event) : Z :=
  match ev with
  | EvWrite _ _ _ (Ok arr) =>
      if 0 <? chunkfs.Written arr then chunkfs.Written arr else 0
  | _ => 0
  end.

Definition written (tr : list Event) : Z := foldr (λ ev n, written_by ev + n) 0 tr.

(** The write error of a step: the error of the write, or the sizing
    error of a new chunk that took no record. *)
Definition write_error_of (ev : Event) : option error :=
  match ev with
  | EvWrite _ newFile recs (Err e) => Some e
  | EvWrite _ newFile recs (Ok arr) =>
      if 0 <? chunkfs.Written arr then None
      else if newFile then Some (sizing_error recs) else None
  | _ => None
  end.

Definition write_error (tr : list Event) : option error :=
  foldr (λ ev acc, match write_error_of ev with Some e => Some e | None => acc end)
        None tr.

(** The steps that end in a panic: a panic of the codec, more records
    reported written than were offered, a failed catalog update. *)
Definition fatal_event (ev : Event) : bool :=
  match ev with
  | EvWrite _ _ _ (Panic _) => true
  | EvWrite _ _ recs (Ok arr) =>
      (0 <? chunkfs.Written arr) && (len recs <? chunkfs.Written arr)
  | EvUpsert _ _ (Some _) => true
  | _ => false
  end.

Definition fatal (tr : list Event) : bool := existsb fatal_event tr.

(** The chunks of the history that took records, in order. *)
Definition took_records (ev : Event) : list string :=
  match ev with
  | EvWrite cID _ _ (Ok arr) => if 0 <? chunkfs.Written arr then [cID] else []
  | _ => []
  end.

Definition chunks_written (tr : list Event) : list string := flat_map took_records tr.

(** A step after which the loop goes on. *)
Definition goes_on (ev : Event) : Prop :=
  write_error_of ev = None ∧ fatal_event ev = false ∧
  ∃ cID nf recs r, ev = EvWrite cID nf recs r.

Section append_history.
Context {W : Type}.

(** What the loop keeps true from round to round. *)
Record steady (st : AppendState W) : Prop := {
  steady_trace : Forall goes_on (st_trace st);
  steady_added : st_added st = written (st_trace st);
  steady_cis : map ID (st_cis st) = chunks_written (st_trace st);
  steady_gerr : st_gerr st = None;
  steady_panic : st_panic st = None
}.

(** How the loop stopped: all records taken, a write error, or a panic. *)
Inductive stopped (st : AppendState W) : Prop :=
| stop_done :
    steady st → st_recs st = [] → stopped st
| stop_error t r e :
    let ev := EvWrite (ID (st_ci st)) (RecordsCount (st_ci st) =? 0) (st_recs st) r in
    st_trace st = t ++ [ev] → Forall goes_on t →
    write_error_of ev = Some e → fatal_event ev = false → written_by ev = 0 →
    took_records ev = [] →
    st_gerr st = Some e → st_panic st = None →
    st_added st = written t → map ID (st_cis st) = chunks_written t →
    stopped st
| stop_panic t ev m :
    st_trace st = t ++ [ev] → Forall goes_on t →
    fatal_event ev = true → write_error_of ev = None → st_panic st = Some m →
    stopped st.

(** The rounds the loop has still to make, at most. *)
Definition rounds_left (st : AppendState W) : nat :=
  (2 * length (st_recs st)
   + (if Z.eqb (RecordsCount (st_ci st)) 0 then 0 else 1))%nat.

(** What follows the loop in the history, and what the call returns:
    the catalog update when records were added, else the error of the
    loop. *)
Definition closes (lid : string) (added : Z) (ids : list string)
    (gerr : option error) (tail : list Event)
    (out : ret (option solaris.AppendRecordsResult)) : Prop :=
  if 0 <? added then
    ∃ cis err, tail = [EvUpsert lid cis err] ∧ map ID cis = ids ∧
      out = match err with
            | None => Return (Result added) None
            | Some _ => Panicked "unrecoverable error, data is corrupted"
            end
  else tail = [] ∧ out = Return (Result added) gerr.

(** The histories of [AppendRecords]. *)
Inductive history (lid : string)
  : ret (option solaris.AppendRecordsResult) → list Event → Prop :=
| history_early e : history lid (Return None (Some e)) []
| history_panic t ev m :
    Forall goes_on t → fatal_event ev = true → write_error_of ev = None →
    history lid (Panicked m) (t ++ [ev])
| history_done t del tail out :
    Forall goes_on t → (del = [] ∨ ∃ c, del = [EvDeleteIfEmpty c]) →
    closes lid (written t) (chunks_written t) None tail out →
    history lid out (t ++ del ++ tail)
| history_error t cID nf recs r e tail out :
    let ev := EvWrite cID nf recs r in
    Forall goes_on t → write_error_of ev = Some e → fatal_event ev = false →
    written_by ev = 0 → took_records ev = [] →
    closes lid (written t) (chunks_written t) (Some e) tail out →
    history lid out
      (t ++ [ev] ++ (if nf then [EvDeleteIfEmpty cID] else []) ++ tail).

End append_history.

(** *** Counting over the catalog *)

(** The records the catalog counts for a log. *)
Definition total_count (cis : list ChunkInfo) : Z :=
  foldr (λ ci n, RecordsCount ci + n) 0 cis.

(** The sum of [f lo], [f (lo + 1)], ..., [n] terms. *)
Fixpoint sum_from (f : Z → Z) (lo : Z) (n : nat) : Z :=
  match n with
  | O => 0
  | S k => f lo + sum_from f (lo + 1) k
  end.

(** The catalog counts of the chunks [lo], ..., [hi - 1]. *)
Definition seg (cis : list ChunkInfo) (lo hi : Z) : Z :=
  sum_from (λ j, RecordsCount (at_ cis j)) lo (Z.to_nat (hi - lo)).


(** *** Scans *)

(** The payload bytes of records. *)
Definition bytes (rs : list solaris.Record_) : Z :=
  foldr (λ r n, len (solaris.Payload r) + n) 0 rs.

(** The chunks a scan that starts at [idx] goes through, in order. *)
Definition visited (cis : list ChunkInfo) (desc : bool) (idx : Z) : list ChunkInfo :=
  if desc then reverse (take (Z.to_nat (idx + 1)) cis)
  else drop (Z.to_nat idx) cis.

(** The order of the records in a cursor of a direction. *)
Definition before (desc : bool) (a c : chunkfs.UnsafeRecord) : Prop :=
  if desc then chunkfs.ID c < chunkfs.ID a else chunkfs.ID a < chunkfs.ID c.

(** The chunks of a log in order: each chunk ends before the next one
    starts, and no chunk ends before it starts. *)
Definition chunks_ordered (cis : list ChunkInfo) : Prop :=
  StronglySorted (λ a c, Max a < Min c) cis ∧ Forall (λ c, Min c ≤ Max c) cis.

(** The indexes a scan may stand at. *)
Definition scan_range (cis : list ChunkInfo) (desc : bool) (idx : Z) : Prop :=
  if desc then -1 ≤ idx < len cis else 0 ≤ idx ≤ len cis.

(** The rounds the chunk loop has still to make. *)
Definition chunks_left (cis : list ChunkInfo) (desc : bool) (idx : Z) : nat :=
  if desc then Z.to_nat (idx + 1) else Z.to_nat (len cis - idx).

Section scans.
Context {W : Type}.
Variable d : Deps W.
Variable cfg : Config.

(** All the records of a chunk from the start ID on, in the direction
    of the scan. *)
Definition chunk_scan (w : W) (lid : string) (ci : ChunkInfo) (desc : bool)
    (sid : ulid.ULID) : result (list solaris.Record_) :=
  match open_cursor d w ci desc sid with
  | Ok cr => Ok (map (to_Record d lid) (chunkfs.remaining cr))
  | Err e => Err e
  | Panic m => Panic m
  end.

(** All the records of the chunks [chunks]; the start ID counts in the
    first chunk only. *)
Fixpoint full_scan (w : W) (lid : string) (chunks : list ChunkInfo) (desc : bool)
    (sid : ulid.ULID) : result (list solaris.Record_) :=
  match chunks with
  | [] => Ok []
  | ci :: rest =>
      match chunk_scan w lid ci desc sid with
      | Ok rs =>
          match full_scan w lid rest desc 0 with
          | Ok rs' => Ok (rs ++ rs')
          | Err e => Err e
          | Panic m => Panic m
          end
      | Err e => Err e
      | Panic m => Panic m
      end
  end.

(** Where a request starts: the chunk index and the start ID. *)
Definition scan_start (cis : list ChunkInfo) (req : storage.QueryRecordsRequest)
  : option (Z * ulid.ULID) :=
  if negb (String.eqb (storage.StartID req) "") then
    match UnmarshalText d (storage.StartID req) with
    | None => None
    | Some sid => Some (start_index cis (storage.Descending req) sid, sid)
    end
  else Some (if storage.Descending req then len cis - 1 else 0, 0).

(** The record limit of a request in force. *)
Definition limit_of (req : storage.QueryRecordsRequest) : Z :=
  if MaxRecordsLimit cfg <? storage.Limit req
  then MaxRecordsLimit cfg else storage.Limit req.

End scans.
(** *** The rounds of [AppendRecords], as the theorems read them *)

(** The descriptor a write adds to [cis], given the descriptor [ci] the
    round started with: [ci.Min], [ci.Max] and [ci.RecordsCount] as the
    loop sets them from what the codec reports. *)
Definition descriptor (ci : ChunkInfo) (ev : Event) : list ChunkInfo :=
  match ev with
  | EvWrite cID newFile _ (Ok arr) =>
      if 0 <? chunkfs.Written arr then
        [mkChunkInfo cID
           (if newFile then chunkfs.StartID arr else Min ci)
           (chunkfs.LastID arr)
           (wrap_int ((if newFile then 0 else RecordsCount ci) + chunkfs.Written arr))]
      else []
  | _ => []
  end.

(** A property of every step of a history, given the steps before it. *)
Definition each_step (Q : list Event → Event → Prop) (tr : list Event) : Prop :=
  ∀ pre ev post, tr = pre ++ ev :: post → Q pre ev.

(** The steps that are writes into a chunk. *)
Definition is_write (ev : Event) : bool :=
  match ev with EvWrite _ _ _ _ => true | _ => false end.

(** The chunk a round writes to: a new one when the descriptor in hand
    has no records. *)
Definition target {W} (d : Deps W) (st : AppendState W) : string :=
  if RecordsCount (st_ci st) =? 0 then (NewID d (st_world st)).1 else ID (st_ci st).

Section append_account.
Context {W : Type}.
Variable d : Deps W.

(** The call at hand: the descriptor [GetLastChunk] gave, the world and
    the records of the request. *)
Variable ci0 : ChunkInfo.
Variable w0 : W.
Variable recs0 : list solaris.Record_.

(** What holds of a write of the loop, given the steps before it: it is
    offered the records not yet written, and there are some; the first
    write goes to the last chunk of the log when that has records, every
    other write to a new chunk. *)
Definition round_ok (pre : list Event) (ev : Event) : Prop :=
  ∃ cID r,
    let offered := drop (Z.to_nat (written pre)) recs0 in
    let newFile := match pre with [] => RecordsCount ci0 =? 0 | _ => true end in
    ev = EvWrite cID newFile offered r ∧ offered ≠ [] ∧
    (pre = [] → cID = if newFile then (NewID d w0).1 else ID ci0).

(** The state the loop ends in. *)
Definition accounted (st : AppendState W) : Prop :=
  each_step round_ok (st_trace st) ∧
  match st_panic st with
  | Some _ =>
      ∃ t ev, st_trace st = t ++ [ev] ∧ Forall goes_on t ∧ fatal_event ev = true
  | None =>
      st_added st = written (st_trace st) ∧
      st_cis st = flat_map (descriptor ci0) (st_trace st) ∧
      written (st_trace st) + len (st_recs st) = len recs0 ∧
      match st_gerr st with
      | None =>
          st_recs st = [] ∧ Forall goes_on (st_trace st) ∧
          (st_trace st = [] → st_ci st = ci0) ∧
          (st_trace st ≠ [] → RecordsCount (st_ci st) = 0)
      | Some e =>
          ∃ t cID nf offered r,
            st_trace st = t ++ [EvWrite cID nf offered r] ∧ Forall goes_on t ∧
            write_error_of (EvWrite cID nf offered r) = Some e ∧
            fatal_event (EvWrite cID nf offered r) = false ∧
            written_by (EvWrite cID nf offered r) = 0 ∧
            ID (st_ci st) = cID ∧ (RecordsCount (st_ci st) =? 0) = nf
      end
  end.

(** What the loop keeps true at the head of every round. *)
Record in_step (st : AppendState W) : Prop := {
  step_trace : each_step round_ok (st_trace st);
  step_goes : Forall goes_on (st_trace st);
  step_recs : st_recs st = drop (Z.to_nat (written (st_trace st))) recs0;
  step_added : st_added st = written (st_trace st);
  step_left : written (st_trace st) + len (st_recs st) = len recs0;
  step_cis : st_cis st = flat_map (descriptor ci0) (st_trace st);
  step_gerr : st_gerr st = None;
  step_panic : st_panic st = None;
  step_first : st_trace st = [] → st_ci st = ci0 ∧ st_world st = w0;
  step_later : st_trace st ≠ [] → RecordsCount (st_ci st) = 0
}.

End append_account.

(** The end of [AppendRecords] after the loop: the deletion of a chunk
    left empty and the catalog update. *)
Definition wraps_up {W} (lid : string) (st : AppendState W)
    (out : ret (option solaris.AppendRecordsResult)) (del tail : list Event) : Prop :=
  match st_panic st with
  | Some m => del = [] ∧ tail = [] ∧ out = Panicked m
  | None =>
      del = (if RecordsCount (st_ci st) =? 0
             then [EvDeleteIfEmpty (ID (st_ci st))] else []) ∧
      if 0 <? st_added st then
        ∃ err, tail = [EvUpsert lid (st_cis st) err] ∧
          out = match err with
                | None => Return (Result (st_added st)) None
                | Some _ => Panicked "unrecoverable error, data is corrupted"
                end
      else tail = [] ∧ out = Return (Result (st_added st)) (st_gerr st)
  end.

(** *** The limits of a query, as the theorems read them *)

(** The byte budget is checked before a record is read: the records
    before the last one are within it. *)
Definition within_budget (cfg : Config) (rs : list solaris.Record_) : Prop :=
  ∀ init last, rs = init ++ [last] → bytes init < MaxBunchSize cfg.

(** The record comes before every record of the chunks a scan has still
    to go through from [idx] on. *)
Definition ahead (cis : list ChunkInfo) (desc : bool) (idx : Z)
    (u : chunkfs.UnsafeRecord) : Prop :=
  ∀ j, (if desc then 0 ≤ j ≤ idx else idx ≤ j < len cis) →
       j < len cis →
       if desc then Max (at_ cis j) < chunkfs.ID u else chunkfs.ID u < Min (at_ cis j).

End logfs.

(** ** Package [cache]: the cached meta storage *)

Module cache.
Import logfs.

Section cached.
Context {S : Type}.

(** [GetChunks] of the wrapped storage. *)
Variable storage_GetChunks : S → string → result (list ChunkInfo).

(** [CachedStorage]: the wrapped storage and the chunks cache. *)
Record CachedStorage : Type := mkCachedStorage {
  storage_ : S;
  chunksCache : gmap string (list ChunkInfo)
}.

Definition NewCachedStorage (st : S) : CachedStorage := mkCachedStorage st ∅.

Definition ID_less (a b : ChunkInfo) : bool := String.ltb (ID a) (ID b).

(** The loader [NewCachedStorage] gives the chunks cache. *)
Definition chunks_loader (st : S) (logID : string) : result (list ChunkInfo) :=
  match storage_GetChunks st logID with
  | Ok cis => Ok (sort.Slice ID_less cis)
  | Err e => Err e
  | Panic m => Panic m
  end.

(** Modelled from the spec: [lru.Cache] of [golibs] is not among the
    sources. [GetOrCreate] gives the cached value of the key, or calls the
    loader and keeps what it loaded; what the bounded cache drops to make
    room only costs a later reload. *)
Definition GetOrCreate (s : CachedStorage) (logID : string)
  : result (list ChunkInfo) * CachedStorage :=
  match chunksCache s !! logID with
  | Some cis => (Ok cis, s)
  | None =>
      match chunks_loader (storage_ s) logID with
      | Ok cis => (Ok cis, mkCachedStorage (storage_ s) (<[logID := cis]> (chunksCache s)))
      | Err e => (Err e, s)
      | Panic m => (Panic m, s)
      end
  end.

Definition GetLastChunk (s : CachedStorage) (logID : string)
  : ret ChunkInfo * CachedStorage :=
  match GetOrCreate s logID with
  | (Err err, s') => (Return ChunkInfo_zero (Some err), s')
  | (Panic m, s') => (Panicked m, s')
  | (Ok cis, s') =>
      if len cis =? 0 then (Return ChunkInfo_zero None, s')
      else (Return (at_ cis (len cis - 1)) None, s')
  end.

Definition GetChunks (s : CachedStorage) (logID : string)
  : result (list ChunkInfo) * CachedStorage :=
  GetOrCreate s logID.

(** Every cached list is what the loader gives for the storage as it
    is. *)
Definition coherent (s : CachedStorage) : Prop :=
  ∀ logID cis, chunksCache s !! logID = Some cis →
    chunks_loader (storage_ s) logID = Ok cis.

(** [UpsertChunkInfos] of the wrapped storage: the error, if any, and the
    storage it leaves. *)
Variable storage_UpsertChunkInfos : S → string → list ChunkInfo → option error * S.

(** [UpsertChunkInfos] writes through to the storage and, when that
    succeeds, drops the log's chunk list from the cache
    ([chunksCache.Remove]). *)
Definition UpsertChunkInfos (s : CachedStorage) (logID : string) (cis : list ChunkInfo)
  : option error * CachedStorage :=
  match storage_UpsertChunkInfos (storage_ s) logID cis with
  | (Some err, st') => (Some err, mkCachedStorage st' (chunksCache s))
  | (None, st') => (None, mkCachedStorage st' (delete logID (chunksCache s)))
  end.

End cached.
End cache.

(** ** An in-memory world for the log orchestrator *)

(** Modelled from the spec: a stand-in for the chunk provider, the chunk
    codec and the catalog, none of which is among the sources. A chunk
    file holds records up to [capacity] payload bytes; the codec writes
    the records that fit, in order, and numbers them with the clock. *)

Module memlog.
Import logfs.

Record World : Type := mkWorld {
  closed : bool;
  catalog : gmap string (list ChunkInfo);
  files : gmap string (list chunkfs.UnsafeRecord);
  capacity : Z;
  clock : Z
}.

Definition ErrClosedV : error := Errorf "closed" (Some ErrClosed).
Definition ErrNotExistV : error := Errorf "not exist" (Some ErrNotExist).

(** Decimal text of an ID and back. *)
Definition digit_of (a : Ascii.ascii) : option Z :=
  let n := Z.of_N (Ascii.N_of_ascii a) in
  if (48 <=? n) && (n <=? 57) then Some (n - 48) else None.

Fixpoint parse_dec (s : string) (acc : Z) : option Z :=
  match s with
  | EmptyString => Some acc
  | String a s' =>
      match digit_of a with
      | Some v => parse_dec s' (10 * acc + v)
      | None => None
      end
  end.

Definition UnmarshalText (s : string) : option ulid.ULID :=
  match s with
  | EmptyString => None
  | _ => parse_dec s 0
  end.

Definition to_text (z : Z) : string := pretty.pretty z.

Definition used (recs : list chunkfs.UnsafeRecord) : Z :=
  fold_right (λ r n, len (chunkfs.UnsafePayload r) + n) 0 recs.

(** The records of [recs] that fit into [room] bytes, numbered from
    [next]. *)
Fixpoint fit (room next : Z) (recs : list solaris.Record_)
  : list chunkfs.UnsafeRecord :=
  match recs with
  | [] => []
  | r :: recs' =>
      let n := len (solaris.Payload r) in
      if n <=? room then
        chunkfs.mkUnsafeRecord next (solaris.Payload r) :: fit (room - n) (next + 1) recs'
      else []
  end.

Definition set_files (w : World) (f : gmap string (list chunkfs.UnsafeRecord)) : World :=
  mkWorld (closed w) (catalog w) f (capacity w) (clock w).

Definition upsert_one (cis : list ChunkInfo) (ci : ChunkInfo) : list ChunkInfo :=
  if existsb (λ c, String.eqb (ID c) (ID ci)) cis
  then map (λ c, if String.eqb (ID c) (ID ci) then ci else c) cis
  else cis ++ [ci].

Definition deps : Deps World := {|
  lockers_GetOrCreate := λ _ w, if closed w then Some ErrClosedV else None;
  GetLastChunk := λ lid w,
    (default ChunkInfo_zero (last (default [] (catalog w !! lid))), None);
  GetChunks := λ lid w, Ok (default [] (catalog w !! lid));
  UpsertChunkInfos := λ lid cis w,
    (None, mkWorld (closed w)
             (<[lid := foldl upsert_one (default [] (catalog w !! lid)) cis]> (catalog w))
             (files w) (capacity w) (clock w));
  NewID := λ w,
    ("c" +:+ to_text (clock w),
     mkWorld (closed w) (catalog w) (files w) (capacity w) (clock w + 1));
  GetOpenedChunk := λ id w,
    match files w !! id with
    | Some recs => Ok (chunkfs.mkChunk recs (λ _, None))
    | None => Err ErrNotExistV
    end;
  OpenForWrite := λ id newFile w,
    match files w !! id with
    | Some _ => (None, w)
    | None => if newFile then (None, set_files w (<[id := []]> (files w)))
              else (Some ErrNotExistV, w)
    end;
  SetWriting := λ _ w, (None, w);
  chunk_AppendRecords := λ id recs w,
    let old := default [] (files w !! id) in
    let new := fit (capacity w - used old) (clock w) recs in
    match new with
    | [] => (Ok (chunkfs.mkAppendRecordsResult 0 0 0), w)
    | r :: _ =>
        (Ok (chunkfs.mkAppendRecordsResult (len new) (chunkfs.ID r)
               (chunkfs.ID (default r (last new)))),
         mkWorld (closed w) (catalog w) (<[id := old ++ new]> (files w))
                 (capacity w) (clock w + len new))
    end;
  SetIdle := λ _ w, w;
  ReleaseChunk := λ _ w, w;
  DeleteFileIfEmpty := λ id w,
    match files w !! id with
    | Some [] => set_files w (delete id (files w))
    | _ => w
    end;
  logfs.UnmarshalText := UnmarshalText;
  ULID_String := to_text
|}.

(** A payload of [n] zero bytes. *)
Definition payload (n : nat) : list Byte.byte := replicate n Byte.x00.

Definition rec_ (n : nat) : solaris.Record_ := solaris.mkRecord "" "" (payload n) 0.

Definition empty_world (cap : Z) : World := mkWorld false ∅ ∅ cap 1.

End memlog.

(** ** Samples for the interval builder *)
Module ql_samples.
Import ql.

(** A domain of numbers between 0 and 100. *)
Definition BasisZ : Basis Z := mkBasis 0 100 Z.compare.

(** The flag bits as powers of two, an identity [castValueF], and
    constants that carry their value. *)
Definition pkg : Package Z unit Z nat Z :=
  mkPackage 1 2 4 8 16 (λ vf _ _, Ok vf) () (λ a, Some a).

Definition const_value : ValueFn unit Z Z :=
  λ p _, match Const p with
         | Some c => Ok c
         | None => Err (Errorf "not a constant" (Some ErrInvalid))
         end.

(** The dialect of the builder's tests: a constant kind that may stand
    on the right, and the parameters [t] and [u] that may stand on the
    left. *)
Definition dialect : gmap string (ParamDialect unit Z nat Z) :=
  <["number" := mkParamDialect (Z.lor 2 8) const_value 0%nat]>
  (<["t" := mkParamDialect (Z.lor 1 8) const_value 0%nat]>
  (<["u" := mkParamDialect (Z.lor 1 8) const_value 0%nat]>
  (<["r" := mkParamDialect (Z.lor 2 8) const_value 0%nat]> ∅))).

Definition ib_all : ParamIntervalBuilder Z unit Z nat Z := NewParamIntervalBuilder BasisZ dialect "t" OpsAll.
Definition ib_gtlt : ParamIntervalBuilder Z unit Z nat Z := NewParamIntervalBuilder BasisZ dialect "t" OpsGtLt.

Definition num (v : Z) : Param Z := mkParam "number" "number" (Some v).
Definition par (n : string) : Param Z := mkParam n n None.

(** [p op v]. *)
Definition cmp_ (p op : string) (v : Z) : Condition Z :=
  mkCondition (par p) op (Some (num v)).


Definition x_ (c : Condition Z) : XCondition Z := mkXCondition false None (Some c).

(** [(t > 1 AND t < 5) OR (t >= 3 AND t <= 7) OR t > 50 OR t = 7]. *)
Definition three_branches : Expression Z :=
  mkExpression [
    mkOrCondition [x_ (cmp_ "t" ">" 1); x_ (cmp_ "t" "<" 5)];
    mkOrCondition [x_ (cmp_ "t" ">=" 3); x_ (cmp_ "t" "<=" 7)];
    mkOrCondition [x_ (cmp_ "t" ">" 50)];
    mkOrCondition [x_ (cmp_ "t" "=" 7)]].
End ql_samples.

(** ** Samples for the cached meta storage *)
Module cache_samples.
Import logfs cache.

(** A storage that keeps the chunk lists in a map. *)
Definition mem_GetChunks (st : gmap string (list ChunkInfo)) (logID : string)
  : result (list ChunkInfo) :=
  Ok (default [] (st !! logID)).

Definition chunk (id : string) : ChunkInfo := mkChunkInfo id 1 1 1.

(** One log with the chunks [c2] and [c1], and no other log. *)
Definition two_chunks : gmap string (list ChunkInfo) :=
  {[ "l1" := [chunk "c2"; chunk "c1"] ]}.
End cache_samples.

(** ** Samples for the log orchestrator *)
Module log_samples.
Import logfs memlog.

Definition cfg : Config := mkConfig 10 100 1.

Definition ur (id : Z) : chunkfs.UnsafeRecord :=
  chunkfs.mkUnsafeRecord id (payload 3).

(** A log of one record. *)
Definition one_record : World :=
  mkWorld false {[ "l1" := [mkChunkInfo "c1" 2 2 1] ]}
          {[ "c1" := [ur 2] ]} 10 3.

(** A log of two chunks: records 2 and 3, then records 5, 6 and 7. *)
Definition c1 : ChunkInfo := mkChunkInfo "c1" 2 3 2.
Definition c2 : ChunkInfo := mkChunkInfo "c2" 5 7 3.

Definition two_chunks : World :=
  mkWorld false {[ "l1" := [c1; c2] ]}
          (<["c1" := [ur 2; ur 3]]> (<["c2" := [ur 5; ur 6; ur 7]]> ∅)) 10 8.

(** A catalog that lists a chunk whose file is gone. *)
Definition lost_file : World :=
  mkWorld false {[ "l1" := [mkChunkInfo "c1" 2 2 1] ]} ∅ 10 3.

Definition query (start : string) (desc : bool) (limit : Z)
  : storage.QueryRecordsRequest :=
  storage.mkQueryRecordsRequest "l1" "" start desc limit.

(** The request of [TestAppendRecordsLimits]: two records that take a
    chunk each and a third that no chunk can hold. *)
Definition limits_req : solaris.AppendRecordsRequest :=
  solaris.mkAppendRecordsRequest "l1" [rec_ 6; rec_ 6; rec_ 11] false.

Definition limits_run
  : option (ret (option solaris.AppendRecordsResult) * World * list Event) :=
  AppendRecords deps limits_req (empty_world 10).

Definition limits_world : World :=
  match limits_run with Some (_, w, _) => w | None => empty_world 10 end.

Definition limits_trace : list Event :=
  match limits_run with Some (_, _, tr) => tr | None => [] end.
End log_samples.

(** ** Further samples *)
Module more_samples.
Import logfs.

(** A request without records. *)
Definition empty_req : solaris.AppendRecordsRequest :=
  solaris.mkAppendRecordsRequest "l1" [] false.

(** A request of one record. *)
Definition one_req : solaris.AppendRecordsRequest :=
  solaris.mkAppendRecordsRequest "l1" [memlog.rec_ 1] false.

(** A storage update that replaces the chunk list of the log. *)
Definition mem_Upsert (st : gmap string (list ChunkInfo)) (logID : string)
    (cis : list ChunkInfo) : option error * gmap string (list ChunkInfo) :=
  (None, <[logID := cis]> st).

(** The cache of [cache_samples.two_chunks] after a [GetChunks] of [l1]. *)
Definition warm_cache : cache.CachedStorage :=
  (cache.GetChunks cache_samples.mem_GetChunks
     (cache.NewCachedStorage cache_samples.two_chunks) "l1").2.


(** The dialect entries of [t] and of a number. *)
Definition dp_t : ql.ParamDialect unit Z nat Z :=
  ql.mkParamDialect (Z.lor 1 8) ql_samples.const_value 0%nat.
Definition dp_number : ql.ParamDialect unit Z nat Z :=
  ql.mkParamDialect (Z.lor 2 8) ql_samples.const_value 0%nat.

(** [t < r], with the parameter [r] on the right. *)
Definition t_lt_r : ql.Condition Z :=
  ql.mkCondition (ql_samples.par "t") "<" (Some (ql_samples.par "r")).

(** [u = 5 AND NOT (u > 7)]. *)
Definition only_u : ql.Expression Z :=
  ql.mkExpression [
    ql.mkOrCondition [ql_samples.x_ (ql_samples.cmp_ "u" "=" 5);
                      ql.mkXCondition true None (Some (ql_samples.cmp_ "u" ">" 7))]].
End more_samples.

(** * Theorems *)

(** ** The interval builder: comparisons *)
Module ql_facts.
Import ql.

Section facts.
Context {T K Any VT ConstT : Type}.
Variable pkg : Package T K Any VT ConstT.
Variable ib : ParamIntervalBuilder T K Any VT ConstT.

Local Abbreviation left_ok := (ql.left_ok pkg ib).
Local Abbreviation on_target := (ql.on_target pkg ib).
Local Abbreviation comparable := (ql.comparable pkg).
Local Abbreviation single := (@ql.single ConstT).
Local Abbreviation conds_of := (@ql.conds_of ConstT).

Lemma range_try_Ok {A B Acc} (f : A → result B) (step : Acc → B → Acc) l acc r :
  range_try f step l acc = Ok r → Forall (λ a, is_Ok (f a) = true) l.
Proof.
  revert acc. induction l as [|a l IH]; intros acc H; simpl in *.
  - constructor.
  - destruct (f a) eqn:Hf; try discriminate.
    constructor; [by rewrite Hf | eauto].
Qed.

Lemma Build_Ok_conds :
  ∀ e r, Build pkg ib e = Ok r →
         Forall (λ c, is_Ok (buildCond pkg ib c) = true) (conds_of e).
Proof.
  fix IH 1. intros [ors] r H. simpl in H.
  destruct (range_try _ _ ors []) as [res| |] eqn:Hr; try discriminate.
  apply range_try_Ok in Hr. clear H r res.
  simpl. induction ors as [|[ands] ors IHors]; simpl; [constructor|].
  apply Forall_cons in Hr as [Ho Hr].
  apply Forall_app. split; [|by apply IHors].
  clear IHors Hr. simpl in Ho.
  destruct (range_try _ _ ands []) as [gs| |] eqn:Ha; try discriminate.
  apply range_try_Ok in Ha. clear Ho gs.
  induction ands as [|[n oe oc] ands IHands]; simpl; [constructor|].
  apply Forall_cons in Ha as [Hx Ha].
  apply Forall_app. split; [|by apply IHands].
  clear IHands Ha. simpl in Hx.
  destruct oe as [e'|].
  - destruct (Build pkg ib e') as [r'| |] eqn:Hb; try discriminate.
    by apply (IH e' r').
  - destruct oc as [c|]; [|constructor].
    constructor; [|constructor].
    destruct (buildCond pkg ib c); try discriminate. done.
Qed.

(** An expression with a comparison that [buildCond] refuses is refused
    by [Build]. *)
Lemma Build_fails (e : Expression ConstT) (c : Condition ConstT) :
  c ∈ conds_of e → is_Ok (buildCond pkg ib c) = false →
  is_Ok (Build pkg ib e) = false.
Proof.
  intros Hin Hc. destruct (Build pkg ib e) as [r| |] eqn:Hb; try done.
  apply Build_Ok_conds in Hb. rewrite Forall_forall in Hb.
  apply Hb in Hin. congruence.
Qed.

(** *** What [buildCond] does with one comparison *)

Lemma invalid_Is m : Is (invalid m) ErrInvalid = true.
Proof. reflexivity. Qed.

Lemma buildCond_left_wrong_side c dp1 :
  dialect ib !! ID (FirstParam c) = Some dp1 →
  has (Flags dp1) (PfLValue pkg) = false →
  ∃ e, buildCond pkg ib c = Err e ∧ Is e ErrInvalid = true.
Proof.
  intros Hd Hl. unfold buildCond. rewrite Hd, Hl. simpl.
  eexists. split; [reflexivity | apply invalid_Is].
Qed.

Lemma buildCond_right_wrong_side c dp1 p2 dp2 :
  left_ok c dp1 → Name (FirstParam c) = param ib →
  SecondParam c = Some p2 → dialect ib !! ID p2 = Some dp2 →
  has (Flags dp2) (PfRValue pkg) = false →
  ∃ e, buildCond pkg ib c = Err e ∧ Is e ErrInvalid = true.
Proof.
  intros (Hd & Hl & Hn) Hname Hp2 Hd2 Hr. unfold buildCond.
  rewrite Hd, Hl, Hn, Hname, String.eqb_refl, Hp2, Hd2, Hr. simpl.
  eexists. split; [reflexivity | apply invalid_Is].
Qed.

Lemma buildCond_other_param c dp1 :
  left_ok c dp1 → Name (FirstParam c) ≠ param ib →
  buildCond pkg ib c = Ok [].
Proof.
  intros (Hd & Hl & Hn) Hname. unfold buildCond.
  rewrite Hd, Hl, Hn. simpl.
  apply String.eqb_neq in Hname. by rewrite Hname.
Qed.

Lemma buildCond_op_skipped c dp1 p2 dp2 :
  on_target c dp1 p2 dp2 → Op c ∉ ops ib →
  buildCond pkg ib c = Ok [].
Proof.
  intros ((Hd & Hl & Hn) & Hname & Hp2 & Hd2 & Hr & Hn2 & Hc) Hop.
  unfold buildCond.
  rewrite Hd, Hl, Hn, Hname, String.eqb_refl, Hp2, Hd2, Hr, Hn2. simpl.
  rewrite (bool_decide_eq_true_2 _ Hc). simpl.
  by rewrite (bool_decide_eq_false_2 _ Hop).
Qed.

Lemma buildCond_value c dp1 p2 dp2 :
  on_target c dp1 p2 dp2 → Op c ∈ ops ib → comparable c dp1 dp2 →
  buildCond pkg ib c =
    match castValueF pkg (ValueF dp2) (Type_ dp2) (Type_ dp1) with
    | Err e => Err e
    | Panic m => Panic m
    | Ok vf =>
        match vf p2 (zeroK pkg) with
        | Err e => Err e
        | Panic m => Panic m
        | Ok kVal =>
            match assertT pkg kVal with
            | None => Err (invalid "cannot cast the second parameter value to interval point")
            | Some tVal => Ok (getIntervals ib (Op c) tVal)
            end
        end
    end.
Proof.
  intros ((Hd & Hl & Hn) & Hname & Hp2 & Hd2 & Hr & Hn2 & Hc) Hop [Hc1 Hc2].
  unfold buildCond.
  rewrite Hd, Hl, Hn, Hname, String.eqb_refl, Hp2, Hd2, Hr, Hn2. simpl.
  rewrite (bool_decide_eq_true_2 _ Hc), (bool_decide_eq_true_2 _ Hop). simpl.
  rewrite Hc1, Hc2. simpl. rewrite !andb_false_r. reflexivity.
Qed.

Lemma buildCond_wrong_type c dp1 p2 dp2 :
  on_target c dp1 p2 dp2 → Op c ∈ ops ib → comparable c dp1 dp2 →
  (∀ vf kVal,
     castValueF pkg (ValueF dp2) (Type_ dp2) (Type_ dp1) = Ok vf →
     vf p2 (zeroK pkg) = Ok kVal → assertT pkg kVal = None) →
  is_Ok (buildCond pkg ib c) = false ∧
  (∀ vf kVal,
     castValueF pkg (ValueF dp2) (Type_ dp2) (Type_ dp1) = Ok vf →
     vf p2 (zeroK pkg) = Ok kVal →
     ∃ e, buildCond pkg ib c = Err e ∧ Is e ErrInvalid = true).
Proof.
  intros Ht Hop Hcmp Hty. rewrite (buildCond_value _ _ _ _ Ht Hop Hcmp).
  split.
  - destruct (castValueF _ _ _ _) as [vf| |]; try done.
    destruct (vf p2 _) as [kVal| |] eqn:Hv; try done.
    by rewrite (Hty vf kVal).
  - intros vf kVal Hvf Hv. rewrite Hvf, Hv, (Hty vf kVal Hvf Hv).
    eexists. split; [reflexivity | apply invalid_Is].
Qed.

Lemma union_nil : union ib [] = [].
Proof. reflexivity. Qed.

Lemma Build_single_skipped c :
  buildCond pkg ib c = Ok [] → Build pkg ib (single c) = Ok [].
Proof. intros H. simpl. rewrite H. reflexivity. Qed.

Lemma Build_single_Err c e :
  buildCond pkg ib c = Err e → Build pkg ib (single c) = Err e.
Proof. intros H. simpl. by rewrite H. Qed.

Lemma single_conds c : conds_of (single c) = [c].
Proof. reflexivity. Qed.

End facts.
End ql_facts.

(** ** The interval algebra on a lawful comparison *)
Module interval_facts.
Section order.
Context {T : Type}.
Variable bs : Basis T.
Hypothesis laws : LawfulCmp (CmpF bs).

Local Abbreviation cmp := (CmpF bs).
Local Abbreviation lt := (point_lt bs).
Local Abbreviation apart := (intervals.apart bs).
Lemma cmp_refl x : cmp x x = Eq.
Proof. by apply (cmp_eq _ laws). Qed.

Lemma cmp_Gt x y : cmp x y = Gt ↔ lt y x.
Proof.
  unfold point_lt. rewrite (cmp_antisym _ laws x y).
  destruct (cmp x y); simpl; split; congruence.
Qed.

Lemma cmp_Eq x y : cmp x y = Eq ↔ x = y.
Proof. apply (cmp_eq _ laws). Qed.

Lemma lt_irrefl x : ¬ lt x x.
Proof. unfold point_lt. rewrite cmp_refl. discriminate. Qed.

Lemma lt_trans x y z : lt x y → lt y z → lt x z.
Proof. apply (cmp_trans _ laws). Qed.

Lemma lt_asym x y : lt x y → lt y x → False.
Proof. intros H1 H2. exact (lt_irrefl x (lt_trans _ _ _ H1 H2)). Qed.

(** The three outcomes of a comparison. *)
Lemma cmp_spec x y :
  (cmp x y = Lt ∧ lt x y) ∨ (cmp x y = Eq ∧ x = y) ∨ (cmp x y = Gt ∧ lt y x).
Proof.
  destruct (cmp x y) eqn:E.
  - right; left. split; [done | by apply cmp_Eq].
  - left. done.
  - right; right. split; [done | by apply cmp_Gt].
Qed.

Lemma StartsBefore_true a c :
  StartsBefore bs a c = true ↔
  lt (L a) (L c) ∨ (L a = L c ∧ lopen a = false ∧ lopen c = true).
Proof.
  unfold StartsBefore.
  destruct (cmp_spec (L a) (L c)) as [[-> H]|[[-> H]|[-> H]]].
  - split; [by left | done].
  - rewrite andb_true_iff, negb_true_iff. split.
    + intros [? ?]. by right.
    + intros [Hl | (_ & ? & ?)]; [|done].
      rewrite H in Hl. by destruct (lt_irrefl _ Hl).
  - split; [done |]. intros [Hl | (He & _)].
    + by destruct (lt_asym _ _ H Hl).
    + rewrite He in H. by destruct (lt_irrefl _ H).
Qed.

Lemma StartsBefore_false a c :
  StartsBefore bs c a = false ↔
  lt (L a) (L c) ∨ (L a = L c ∧ (lopen a = false ∨ lopen c = true)).
Proof.
  unfold StartsBefore.
  destruct (cmp_spec (L c) (L a)) as [[-> H]|[[-> H]|[-> H]]].
  - split; [done |]. intros [Hl | (He & _)].
    + by destruct (lt_asym _ _ H Hl).
    + rewrite He in H. by destruct (lt_irrefl _ H).
  - rewrite andb_false_iff, negb_false_iff. split.
    + intros Hb. right. split; [done | tauto].
    + intros [Hl | (_ & Hb)]; [|tauto].
      rewrite H in Hl. by destruct (lt_irrefl _ Hl).
  - split; [by left | done].
Qed.

Lemma touches_false a c :
  touches bs a c = false ↔
  lt (R a) (L c) ∨ (L c = R a ∧ lopen c = true ∧ ropen a = true).
Proof.
  unfold touches.
  destruct (cmp_spec (L c) (R a)) as [[-> H]|[[-> H]|[-> H]]].
  - split; [done |]. intros [Hl | (He & _)].
    + by destruct (lt_asym _ _ H Hl).
    + rewrite He in H. by destruct (lt_irrefl _ H).
  - rewrite orb_false_iff, !negb_false_iff. split.
    + intros [? ?]. by right.
    + intros [Hl | (_ & ? & ?)]; [|done].
      rewrite H in Hl. by destruct (lt_irrefl _ Hl).
  - split; [by left | done].
Qed.

Lemma above_lower_true c x :
  above_lower bs c x = true ↔ lt (L c) x ∨ (L c = x ∧ lopen c = false).
Proof.
  unfold above_lower.
  destruct (cmp_spec (L c) x) as [[-> H]|[[-> H]|[-> H]]].
  - split; [by left | done].
  - rewrite negb_true_iff. split; [by right |].
    intros [Hl | [_ ?]]; [|done]. rewrite H in Hl. by destruct (lt_irrefl _ Hl).
  - split; [done |]. intros [Hl | [He _]].
    + by destruct (lt_asym _ _ H Hl).
    + rewrite He in H. by destruct (lt_irrefl _ H).
Qed.

Lemma below_upper_true a x :
  below_upper bs a x = true ↔ lt x (R a) ∨ (x = R a ∧ ropen a = false).
Proof.
  unfold below_upper.
  destruct (cmp_spec x (R a)) as [[-> H]|[[-> H]|[-> H]]].
  - split; [by left | done].
  - rewrite negb_true_iff. split; [by right |].
    intros [Hl | [_ ?]]; [|done]. rewrite H in Hl. by destruct (lt_irrefl _ Hl).
  - split; [done |]. intros [Hl | [He _]].
    + by destruct (lt_asym _ _ H Hl).
    + rewrite He in H. by destruct (lt_irrefl _ H).
Qed.

(** [a] does not start after [c]. *)
Local Abbreviation nb := (sort.not_after (StartsBefore bs)).

#[local] Instance nb_total : Total nb.
Proof.
  intros a c. unfold sort.not_after. rewrite !StartsBefore_false.
  destruct (cmp_spec (L a) (L c)) as [[_ H]|[[_ H]|[_ H]]]; [by left; left| |by right; left].
  destruct (lopen a) eqn:Ea.
  - right. right. split; [done | by right].
  - left. right. split; [done | by left].
Qed.

#[local] Instance nb_trans : Transitive nb.
Proof.
  intros a c e. unfold sort.not_after. rewrite !StartsBefore_false.
  intros [H1|[H1 F1]] [H2|[H2 F2]].
  - left. eapply lt_trans; eauto.
  - left. by rewrite <- H2.
  - left. by rewrite H1.
  - right. split; [congruence|].
    destruct F1, F2; auto; congruence.
Qed.

Lemma apart_later a p c : apart a p → nb p c → apart a c.
Proof.
  unfold intervals.apart, sort.not_after. rewrite !touches_false, StartsBefore_false.
  intros [H1|(H1 & F1 & G1)] [H2|[H2 F2]].
  - left. eapply lt_trans; eauto.
  - left. by rewrite <- H2.
  - left. by rewrite <- H1.
  - right. split; [congruence|]. split; [|done].
    destruct F2; congruence.
Qed.

Lemma apart_disjoint a c x :
  apart a c → contains bs a x = true → contains bs c x = true → False.
Proof.
  unfold intervals.apart, contains. intros Ht Ha Hc.
  apply touches_false in Ht.
  apply andb_true_iff in Ha as [_ Hu]. apply andb_true_iff in Hc as [Hl _].
  apply below_upper_true in Hu. apply above_lower_true in Hl.
  destruct Ht as [H|(H & F & G)], Hu as [Hu|[Hu Fu]], Hl as [Hl|[Hl Fl]];
    try congruence; subst; try rewrite H in *; try rewrite Hl in *;
    eauto using lt_irrefl, lt_asym, lt_trans.
Qed.

Lemma apart_no_Union a c : nb a c → apart a c → Union bs a c = None.
Proof.
  unfold sort.not_after, intervals.apart, Union. intros -> ->. reflexivity.
Qed.

(** The lower border of a union is that of the interval that starts
    first. *)
Lemma Union_lower p c u :
  nb p c → Union bs p c = Some u → L u = L p ∧ lopen u = lopen p.
Proof.
  unfold sort.not_after, Union. intros ->.
  destruct (touches bs p c); [|done].
  destruct (upper_of bs p c). intros [= <-]. done.
Qed.

Lemma Union_None_apart p c : nb p c → Union bs p c = None → apart p c.
Proof.
  unfold sort.not_after, Union, intervals.apart. intros ->.
  destruct (touches bs p c); [|done].
  by destruct (upper_of bs p c).
Qed.

Lemma nb_same_lower p u c : L u = L p → lopen u = lopen p → nb p c → nb u c.
Proof.
  unfold sort.not_after, StartsBefore. by intros -> ->.
Qed.

Lemma nb_same_lower_r p u a : L u = L p → lopen u = lopen p → nb a p → nb a u.
Proof.
  unfold sort.not_after, StartsBefore. by intros -> ->.
Qed.

Lemma apart_same_lower p u a : L u = L p → lopen u = lopen p → apart a p → apart a u.
Proof.
  unfold intervals.apart, touches. by intros -> ->.
Qed.

End order.
End interval_facts.


(** ** [union] gives intervals in order and apart *)
Module union_facts.
Import ql interval_facts.

Section union.
Context {T K Any VT ConstT : Type}.
Variable ib : ParamIntervalBuilder T K Any VT ConstT.
Hypothesis laws : LawfulCmp (CmpF (basis ib)).

Local Abbreviation bs := (basis ib).
Local Abbreviation nb := (sort.not_after (StartsBefore bs)).
Local Abbreviation sep := (separated bs).
Local Abbreviation apart := (intervals.apart bs).

Lemma snoc_separated res prev :
  StronglySorted sep res → Forall (λ a, sep a prev) res →
  StronglySorted sep (res ++ [prev]).
Proof.
  intros Hres Hall. apply StronglySorted_app_2; [|done|repeat constructor].
  intros x1 x2 H1 ->%list_elem_of_singleton.
  rewrite Forall_forall in Hall. by apply Hall.
Qed.

Lemma union_loop_separated rest : ∀ prev res,
  StronglySorted nb (prev :: rest) →
  StronglySorted sep res →
  Forall (λ a, sep a prev) res →
  StronglySorted sep (union_loop ib prev rest res).
Proof.
  induction rest as [|curr rest IH]; intros prev res Hs Hres Hall; simpl.
  - by apply snoc_separated.
  - apply StronglySorted_cons in Hs as [Hprev Hrest].
    pose proof Hprev as Hprev'.
    apply Forall_cons in Hprev' as [Hpc Hprest].
    destruct (Union bs prev curr) as [u|] eqn:Hu.
    + destruct (Union_lower bs prev curr u Hpc Hu) as [HL Ho].
      apply IH; [|done|].
      * apply StronglySorted_cons. split.
        -- eapply Forall_impl; [exact Hprest|].
           intros c Hc. by eapply nb_same_lower.
        -- by apply StronglySorted_cons in Hrest as [_ ?].
      * eapply Forall_impl; [exact Hall|].
        intros a [Ha1 Ha2]. split.
        -- by eapply nb_same_lower_r.
        -- by eapply apart_same_lower.
    + pose proof (Union_None_apart bs prev curr Hpc Hu) as Hap.
      apply IH; [done|by apply snoc_separated|].
      apply Forall_app. split.
      * eapply Forall_impl; [exact Hall|].
        intros a [Ha1 Ha2]. split.
        -- by apply (nb_trans bs laws a prev curr).
        -- by apply (apart_later bs laws a prev curr).
      * constructor; [done | constructor].
Qed.

Lemma union_separated l : StronglySorted sep (union ib l).
Proof.
  unfold union.
  pose proof (StronglySorted_merge_sort (H:=sort.not_after_dec _) (Transitive0:=nb_trans bs laws) (Total0:=nb_total bs laws) nb l) as Hs.
  unfold sort.Slice.
  destruct (merge_sort nb l) as [|prev rest]; [constructor|].
  apply union_loop_separated; [done | constructor | constructor].
Qed.

(** What "in order and apart" gives for two intervals of the result. *)
Lemma separated_spec a c :
  sep a c →
  StartsBefore bs c a = false ∧
  (∀ x, ¬ (contains bs a x = true ∧ contains bs c x = true)) ∧
  Union bs a c = None.
Proof.
  intros [Hn Ha]. split; [exact Hn|]. split.
  - intros x [H1 H2]. exact (apart_disjoint bs laws a c x Ha H1 H2).
  - by apply apart_no_Union.
Qed.

Lemma Build_separated (pkg : Package T K Any VT ConstT) e r :
  Build pkg ib e = Ok r → StronglySorted sep r.
Proof.
  destruct e as [ors]. simpl.
  destruct (range_try _ _ ors []); try discriminate.
  intros [= <-]. apply union_separated.
Qed.

End union.
End union_facts.

(** ** The cached meta storage *)
Module cache_facts.
Import logfs cache.

(** [String.compare] is a total order. *)
Lemma string_lt_trans x y z :
  String.compare x y = Lt → String.compare y z = Lt → String.compare x z = Lt.
Proof.
  intros H1 H2.
  apply OrderedTypeEx.String_as_OT.cmp_lt in H1, H2.
  apply OrderedTypeEx.String_as_OT.cmp_lt.
  eapply OrderedTypeEx.String_as_OT.lt_trans; eauto.
Qed.

Lemma string_compare_refl x : String.compare x x = Eq.
Proof. by apply OrderedTypeEx.String_as_OT.cmp_eq. Qed.

Lemma ltb_false_leb x y : String.ltb y x = false ↔ String.leb x y = true.
Proof.
  unfold String.ltb, String.leb. rewrite (String.compare_antisym x y).
  destruct (String.compare y x); simpl; split; congruence.
Qed.

Lemma leb_trans x y z :
  String.leb x y = true → String.leb y z = true → String.leb x z = true.
Proof.
  unfold String.leb. intros H1 H2.
  destruct (String.compare x y) eqn:E1; try discriminate;
  destruct (String.compare y z) eqn:E2; try discriminate.
  - apply String.compare_eq_iff in E1, E2. subst. by rewrite string_compare_refl.
  - apply String.compare_eq_iff in E1. subst. by rewrite E2.
  - apply String.compare_eq_iff in E2. subst. by rewrite E1.
  - by rewrite (string_lt_trans _ _ _ E1 E2).
Qed.

Local Abbreviation by_ID := (sort.not_after ID_less).

#[local] Instance by_ID_total : Total by_ID.
Proof.
  intros a c. unfold sort.not_after, ID_less. rewrite !ltb_false_leb.
  destruct (String.leb_total (ID a) (ID c)); auto.
Qed.

#[local] Instance by_ID_trans : Transitive by_ID.
Proof.
  intros a c e. unfold sort.not_after, ID_less. rewrite !ltb_false_leb.
  apply leb_trans.
Qed.

Lemma Slice_by_ID_sorted cis : StronglySorted by_ID (sort.Slice ID_less cis).
Proof.
  unfold sort.Slice.
  apply (StronglySorted_merge_sort (H:=sort.not_after_dec _) by_ID).
Qed.

Lemma Slice_Permutation cis : sort.Slice ID_less cis ≡ₚ cis.
Proof. unfold sort.Slice. apply merge_sort_Permutation. Qed.

(** The last element of a list in ID order has the biggest ID. *)
Lemma sorted_last_biggest (cis : list ChunkInfo) c :
  StronglySorted by_ID cis → c ∈ cis → cis ≠ [] →
  String.leb (ID c) (ID (at_ cis (len cis - 1))) = true.
Proof.
  intros Hs Hin Hne.
  destruct (decide (cis = [])) as [|_]; [done|].
  assert (∃ l x, cis = l ++ [x]) as (l & x & ->).
  { destruct (exists_last Hne) as (l & x & ->). eauto. }
  assert (at_ (l ++ [x]) (len (l ++ [x]) - 1) = x) as ->.
  { unfold at_, len. rewrite length_app. simpl.
    replace (Z.to_nat (Z.of_nat (length l + 1) - 1)) with (length l) by lia.
    rewrite lookup_app_r by lia. by rewrite Nat.sub_diag. }
  apply elem_of_app in Hin as [Hin | ->%list_elem_of_singleton].
  - apply ltb_false_leb.
    eapply (StronglySorted_app_1_elem_of by_ID l [x] c x Hs Hin).
    by apply list_elem_of_singleton.
  - unfold String.leb. by rewrite string_compare_refl.
Qed.

Section cached.
Context {S : Type}.
Variable storage_GetChunks : S → string → result (list ChunkInfo).

Local Abbreviation GetLastChunk := (GetLastChunk storage_GetChunks).
Local Abbreviation coherent := (coherent storage_GetChunks).

Lemma GetOrCreate_loader s logID :
  coherent s →
  fst (GetOrCreate storage_GetChunks s logID)
    = chunks_loader storage_GetChunks (storage_ s) logID.
Proof.
  intros Hc. unfold GetOrCreate.
  destruct (chunksCache s !! logID) as [cis|] eqn:Hl.
  - simpl. symmetry. by apply Hc.
  - by destruct (chunks_loader _ _ _).
Qed.

Lemma NewCachedStorage_coherent st : coherent (NewCachedStorage st).
Proof. intros logID cis H. unfold NewCachedStorage in H. simpl in H. by rewrite lookup_empty in H. Qed.

Lemma GetOrCreate_coherent s logID :
  coherent s → coherent (snd (GetOrCreate storage_GetChunks s logID)).
Proof.
  intros Hc. unfold GetOrCreate.
  destruct (chunksCache s !! logID) as [cis|] eqn:Hl; [done|].
  destruct (chunks_loader _ _ _) as [cis| |] eqn:Hload; try done.
  intros k v. simpl. rewrite lookup_insert. case_decide.
  - intros [= <-]. by subst.
  - apply Hc.
Qed.

End cached.
End cache_facts.

(** ** The history of an [AppendRecords] call *)
Module append_facts.
Import logfs.

Section facts.
Context {W : Type}.
Variable d : Deps W.

Lemma written_app t1 t2 : written (t1 ++ t2) = written t1 + written t2.
Proof. unfold written. induction t1; simpl; lia. Qed.


Lemma fatal_app t1 t2 : fatal (t1 ++ t2) = fatal t1 || fatal t2.
Proof. apply existsb_app. Qed.

Lemma chunks_written_app t1 t2 :
  chunks_written (t1 ++ t2) = chunks_written t1 ++ chunks_written t2.
Proof. apply flat_map_app. Qed.

Lemma written_single ev : written [ev] = written_by ev.
Proof. unfold written. simpl. lia. Qed.

Lemma chunks_written_single ev : chunks_written [ev] = took_records ev.
Proof. unfold chunks_written. simpl. apply app_nil_r. Qed.

Lemma fatal_single ev : fatal [ev] = fatal_event ev.
Proof. unfold fatal. simpl. apply orb_false_r. Qed.



Lemma goes_on_fatal tr : Forall goes_on tr → fatal tr = false.
Proof.
  induction 1 as [|ev tr (_ & Hf & _) _ IH]; [done|].
  unfold fatal in *. simpl. by rewrite Hf.
Qed.

Lemma append_body_spec st :
  steady st →
  match append_body d st with
  | Break st' => stopped st' ∧ st_recs st' = st_recs st
  | Continue st' =>
      steady st' ∧
      (rounds_left st' < rounds_left st)%nat
  end.
Proof.
  intros [Ht Ha Hc Hg Hp]. unfold append_body.
  destruct (RecordsCount (st_ci st) =? 0) eqn:Hrc.
  - destruct (NewID d (st_world st)) as [id w'].
    change (RecordsCount (ChunkInfo_new id) =? 0) with true.
    cbv iota.
    destruct (appendRecords d (ID (ChunkInfo_new id)) true (st_recs st) w') as [r w1].
    destruct r as [arr|e|m].
    + destruct (0 <? chunkfs.Written arr) eqn:Hw.
      * destruct (Z.of_nat (length (st_recs st)) <? chunkfs.Written arr) eqn:Hoob.
        -- split; [|done]. eapply stop_panic; simpl; eauto.
           ++ unfold fatal_event, len. by rewrite Hw, Hoob.
           ++ unfold write_error_of. by rewrite Hw.
        -- split.
           ++ split; simpl.
              ** apply Forall_app. split; [done|]. constructor; [|constructor].
                 split; [|split]; [| |by eauto].
                 --- unfold write_error_of. by rewrite Hw.
                 --- unfold fatal_event, len. by rewrite Hw, Hoob.
              ** rewrite written_app, Ha. rewrite written_single. unfold written_by. rewrite Hw. lia.
              ** rewrite map_app, chunks_written_app, Hc, chunks_written_single. unfold took_records. by rewrite Hw.
              ** done.
              ** done.
           ++ unfold rounds_left. simpl. rewrite length_drop, Hrc. apply Z.ltb_lt in Hw. apply Z.ltb_ge in Hoob. lia.
      * split; [|done].
        eapply (stop_error _ (st_trace st) (Ok arr)); simpl; eauto.
        all: unfold write_error_of, fatal_event, written_by, took_records;
          rewrite ?Hw; done.
    + split; [|done].
      eapply (stop_error _ (st_trace st) (Err e)); simpl; eauto.
    + split; [|done]. eapply stop_panic; simpl; eauto.
  - cbv iota. rewrite Hrc.
    destruct (appendRecords d (ID (st_ci st)) false (st_recs st) (st_world st)) as [r w1].
    destruct r as [arr|e|m].
    + destruct (0 <? chunkfs.Written arr) eqn:Hw.
      * destruct (Z.of_nat (length (st_recs st)) <? chunkfs.Written arr) eqn:Hoob.
        -- split; [|done]. eapply stop_panic; simpl; eauto.
           ++ unfold fatal_event, len. by rewrite Hw, Hoob.
           ++ unfold write_error_of. by rewrite Hw.
        -- split.
           ++ split; simpl.
              ** apply Forall_app. split; [done|]. constructor; [|constructor].
                 split; [|split]; [| |by eauto].
                 --- unfold write_error_of. by rewrite Hw.
                 --- unfold fatal_event, len. by rewrite Hw, Hoob.
              ** rewrite written_app, Ha. rewrite written_single. unfold written_by. rewrite Hw. lia.
              ** rewrite map_app, chunks_written_app, Hc, chunks_written_single. unfold took_records. by rewrite Hw.
              ** done.
              ** done.
           ++ unfold rounds_left. simpl. rewrite length_drop, Hrc. apply Z.ltb_lt in Hw. apply Z.ltb_ge in Hoob. lia.
      * split.
        ++ split; simpl.
           ** apply Forall_app. split; [done|]. constructor; [|constructor].
              split; [|split]; [| |by eauto].
              --- unfold write_error_of. by rewrite Hw.
              --- unfold fatal_event. by rewrite Hw.
           ** rewrite written_app, Ha. rewrite written_single. unfold written_by. rewrite Hw. lia.
           ** rewrite chunks_written_app, Hc, chunks_written_single. unfold took_records. rewrite Hw. by rewrite app_nil_r.
           ** done.
           ** done.
        ++ unfold rounds_left. simpl. rewrite Hrc. lia.
    + split; [|done].
      eapply (stop_error _ (st_trace st) (Err e)); simpl; rewrite ?Hrc; eauto.
    + split; [|done]. eapply stop_panic; simpl; eauto.
Qed.


Lemma append_loop_spec fuel : ∀ st,
  steady st → (rounds_left st < fuel)%nat →
  ∃ st', append_loop d fuel st = Some st' ∧ stopped st'.
Proof.
  induction fuel as [|fuel IH]; intros st Hs Hf; [lia|].
  simpl. destruct (0 <? Z.of_nat (length (st_recs st))) eqn:Hlen; simpl.
  - pose proof (append_body_spec st Hs) as Hb.
    destruct (append_body d st) as [st'|st'].
    + exists st'. by destruct Hb.
    + destruct Hb as [Hs' Hlt]. apply IH; [done | lia].
  - exists st. split; [done|]. apply stop_done; [done|].
    apply Z.ltb_ge in Hlen. destruct (st_recs st); [done | simpl in Hlen; lia].
Qed.

Lemma closes_intro lid (st : AppendState W) w1 tr1 :
  st_panic st = None →
  ∃ out w2 tail,
    (if 0 <? st_added st then
       match UpsertChunkInfos d lid (st_cis st) w1 with
       | (Some e, w2) =>
           Some (Panicked "unrecoverable error, data is corrupted", w2,
                 tr1 ++ [EvUpsert lid (st_cis st) (Some e)])
       | (None, w2) =>
           Some (Return (Result (st_added st)) None, w2,
                 tr1 ++ [EvUpsert lid (st_cis st) None])
       end
     else Some (Return (Result (st_added st)) (st_gerr st), w1, tr1))
    = Some (out, w2, tr1 ++ tail) ∧
    closes lid (st_added st) (map ID (st_cis st)) (st_gerr st) tail out.
Proof.
  intros _. unfold closes. destruct (0 <? st_added st).
  - destruct (UpsertChunkInfos d lid (st_cis st) w1) as [[e|] w2];
      eexists _, _, _; (split; [reflexivity|]); eexists _, _; eauto.
  - eexists _, _, []. rewrite app_nil_r. eauto.
Qed.

Lemma AppendRecords_history req w :
  ∃ out w' tr,
    AppendRecords d req w = Some (out, w', tr) ∧
    history (solaris.req_LogID req) out tr.
Proof.
  unfold AppendRecords.
  destruct (lockers_GetOrCreate d _ w) as [e|].
  { eexists _, _, _. split; [reflexivity | constructor]. }
  destruct (GetLastChunk d _ w) as [ci err].
  destruct (match err with Some e => negb (Is e ErrNotExist) | None => false end) eqn:Herr.
  { destruct err as [e|]; [|done].
    eexists _, _, _. split; [reflexivity | constructor]. }
  set (st0 := mkAppendState ci (solaris.Records req) 0 [] None w [] None).
  assert (steady st0) as Hs0 by (by split).
  destruct (append_loop_spec (append_fuel (solaris.Records req)) st0 Hs0)
    as (st & -> & Hst).
  { unfold rounds_left, append_fuel. simpl. destruct (RecordsCount ci =? 0); lia. }
  destruct Hst as [[Ht Ha Hc Hg Hp] Hrecs | t r e ev Htr Ht He Hf Hw Htk Hg Hp Ha Hc
                  | t ev m Htr Ht Hf He Hp].
  - rewrite Hp.
    destruct (RecordsCount (st_ci st) =? 0).
    + destruct (closes_intro (solaris.req_LogID req) st
                  (DeleteFileIfEmpty d (ID (st_ci st)) (st_world st))
                  (st_trace st ++ [EvDeleteIfEmpty (ID (st_ci st))]) Hp)
        as (out & w2 & tail & -> & Hcl).
      eexists _, _, _. split; [reflexivity|]. rewrite <- app_assoc.
      apply history_done; [done | eauto |]. by rewrite <- Ha, <- Hc, <- Hg.
    + destruct (closes_intro (solaris.req_LogID req) st (st_world st) (st_trace st) Hp)
        as (out & w2 & tail & -> & Hcl).
      eexists _, _, _. split; [reflexivity|].
      change (st_trace st ++ tail) with (st_trace st ++ [] ++ tail).
      apply history_done; [done | eauto |]. by rewrite <- Ha, <- Hc, <- Hg.
  - rewrite Hp. subst ev.
    destruct (RecordsCount (st_ci st) =? 0) eqn:Hrc.
    + destruct (closes_intro (solaris.req_LogID req) st
                  (DeleteFileIfEmpty d (ID (st_ci st)) (st_world st))
                  (st_trace st ++ [EvDeleteIfEmpty (ID (st_ci st))]) Hp)
        as (out & w2 & tail & -> & Hcl).
      eexists _, _, _. split; [reflexivity|]. rewrite Htr, <- !app_assoc.
      apply (history_error _ t (ID (st_ci st)) true (st_recs st) r e tail out); try done.
      by rewrite <- Ha, <- Hc, <- Hg.
    + destruct (closes_intro (solaris.req_LogID req) st (st_world st) (st_trace st) Hp)
        as (out & w2 & tail & -> & Hcl).
      eexists _, _, _. split; [reflexivity|]. rewrite Htr, <- !app_assoc.
      apply (history_error _ t (ID (st_ci st)) false (st_recs st) r e tail out); try done.
      by rewrite <- Ha, <- Hc, <- Hg.
  - rewrite Hp. eexists _, _, _. split; [reflexivity|]. rewrite Htr.
    by apply history_panic.
Qed.


Lemma written_nonneg tr : 0 ≤ written tr.
Proof.
  unfold written. induction tr as [|ev tr IH]; simpl; [done|].
  assert (0 ≤ written_by ev); [|lia].
  unfold written_by. destruct ev as [? ? ? [arr| |]| |]; try done.
  destruct (0 <? chunkfs.Written arr) eqn:E; [|done]. apply Z.ltb_lt in E. lia.
Qed.

Lemma closes_facts lid added ids gerr tail out :
  closes lid added ids gerr tail out →
  written tail = 0 ∧ write_error tail = None ∧
  Forall (λ ev, write_error_of ev = None) tail ∧
  (fatal tail = true → ∃ m, out = Panicked m) ∧
  (fatal tail = false →
     out = if 0 <? added then Return (Result added) None
           else Return (Result added) gerr).
Proof.
  unfold closes. destruct (0 <? added).
  - intros (cis & err & -> & _ & ->). repeat split; try done.
    + repeat constructor.
    + destruct err; [eauto | done].
    + by destruct err.
  - intros [-> ->]. repeat split; done.
Qed.

Lemma delete_facts (del : list Event) :
  (del = [] ∨ ∃ c, del = [EvDeleteIfEmpty c]) →
  written del = 0 ∧ write_error del = None ∧ fatal del = false ∧
  Forall (λ ev, write_error_of ev = None) del.
Proof. intros [->|[c ->]]; repeat split; try done; repeat constructor. Qed.

Lemma goes_on_no_error t : Forall goes_on t → Forall (λ ev, write_error_of ev = None) t.
Proof. intros H. eapply Forall_impl; [exact H|]. by intros ev [? _]. Qed.

(** The one step of a list that has a property the others lack. *)
Lemma the_one {A} (P : A → Prop) (pre post t rest : list A) (x y : A) :
  pre ++ x :: post = t ++ y :: rest →
  P x → Forall (λ a, ¬ P a) t → Forall (λ a, ¬ P a) rest →
  pre = t ∧ x = y ∧ post = rest.
Proof.
  revert t. induction pre as [|a pre IH]; intros [|b t]; simpl; intros [= E1 E2] Hx Ht Hr.
  - by subst.
  - subst. by apply Forall_cons in Ht as [Hb _].
  - subst. rewrite Forall_forall in Hr. destruct (Hr x); [|done].
    apply elem_of_app. right. apply list_elem_of_here.
  - subst. apply Forall_cons in Ht as [_ Ht].
    destruct (IH t E2 Hx Ht Hr) as (-> & -> & ->). done.
Qed.

Lemma none_of {A} (P : A → Prop) (pre post l : list A) (x : A) :
  pre ++ x :: post = l → P x → Forall (λ a, ¬ P a) l → False.
Proof.
  intros <- Hx Hl. rewrite Forall_forall in Hl. apply (Hl x); [|done].
  apply elem_of_app. right. apply list_elem_of_here.
Qed.

End facts.
End append_facts.

(** ** [CountRecords] *)
Module count_facts.
Import logfs.

Section facts.
Context {W : Type}.
Variable d : Deps W.

Lemma sum_from_snoc f lo n :
  sum_from f lo (S n) = sum_from f lo n + f (lo + Z.of_nat n).
Proof.
  revert lo. induction n as [|n IH]; intros lo.
  - simpl. replace (lo + Z.of_nat 0) with lo by lia. lia.
  - change (sum_from f lo (S (S n))) with (f lo + sum_from f (lo + 1) (S n)).
    rewrite IH. simpl. replace (lo + 1 + Z.of_nat n) with (lo + Z.of_nat (S n)) by lia. lia.
Qed.

Lemma sum_from_nonneg f lo n :
  (∀ j, 0 ≤ f j) → 0 ≤ sum_from f lo n.
Proof.
  intros Hf. revert lo. induction n as [|n IH]; intros lo; simpl; [done|].
  specialize (Hf lo). specialize (IH (lo + 1)). lia.
Qed.

Lemma sum_from_app f lo n m :
  sum_from f lo (n + m) = sum_from f lo n + sum_from f (lo + Z.of_nat n) m.
Proof.
  revert lo. induction n as [|n IH]; intros lo.
  - simpl. by replace (lo + Z.of_nat 0) with lo by lia.
  - simpl (sum_from f lo (S n + m)). rewrite IH. simpl.
    replace (lo + 1 + Z.of_nat n) with (lo + Z.of_nat (S n)) by lia. lia.
Qed.

Lemma seg_empty cis lo hi : hi ≤ lo → seg cis lo hi = 0.
Proof. intros H. unfold seg. by replace (Z.to_nat (hi - lo)) with 0%nat by lia. Qed.

Lemma seg_first cis lo hi :
  lo < hi → seg cis lo hi = RecordsCount (at_ cis lo) + seg cis (lo + 1) hi.
Proof.
  intros H. unfold seg.
  replace (Z.to_nat (hi - lo)) with (S (Z.to_nat (hi - (lo + 1)))) by lia.
  reflexivity.
Qed.

Lemma seg_last cis lo hi :
  lo ≤ hi → seg cis lo (hi + 1) = seg cis lo hi + RecordsCount (at_ cis hi).
Proof.
  intros H. unfold seg.
  replace (Z.to_nat (hi + 1 - lo)) with (S (Z.to_nat (hi - lo))) by lia.
  rewrite sum_from_snoc. by replace (lo + Z.of_nat (Z.to_nat (hi - lo))) with hi by lia.
Qed.

Lemma seg_split cis lo mid hi :
  lo ≤ mid ≤ hi → seg cis lo hi = seg cis lo mid + seg cis mid hi.
Proof.
  intros H. unfold seg.
  replace (Z.to_nat (hi - lo)) with (Z.to_nat (mid - lo) + Z.to_nat (hi - mid))%nat by lia.
  rewrite sum_from_app. by replace (lo + Z.of_nat (Z.to_nat (mid - lo))) with mid by lia.
Qed.

Lemma at_cons ci cis j : 0 ≤ j → at_ (ci :: cis) (j + 1) = at_ cis j.
Proof.
  intros H. unfold at_. by replace (Z.to_nat (j + 1)) with (S (Z.to_nat j)) by lia.
Qed.

Lemma sum_from_ext f g lo n :
  (∀ j, lo ≤ j → f j = g j) → sum_from f lo n = sum_from g lo n.
Proof.
  revert lo. induction n as [|n IH]; intros lo H; simpl; [done|].
  rewrite (H lo) by lia. f_equal. apply IH. intros j Hj. apply H. lia.
Qed.

Lemma sum_from_shift f lo n :
  sum_from f (lo + 1) n = sum_from (λ j, f (j + 1)) lo n.
Proof.
  revert lo. induction n as [|n IH]; intros lo; simpl; [done|]. by rewrite IH.
Qed.

Lemma seg_all cis : seg cis 0 (len cis) = total_count cis.
Proof.
  unfold seg, len. replace (Z.to_nat (Z.of_nat (length cis) - 0)) with (length cis) by lia.
  induction cis as [|ci cis IH]; simpl; [done|].
  change (at_ (ci :: cis) 0) with ci. f_equal.
  rewrite <- IH. change (0 + 1) with (0 + 1). rewrite sum_from_shift.
  apply sum_from_ext. intros j Hj. by rewrite at_cons.
Qed.

Section counted.
Variable cis : list ChunkInfo.
Hypothesis nonneg : Forall (λ ci, 0 ≤ RecordsCount ci) cis.

Lemma at_nonneg j : 0 ≤ RecordsCount (at_ cis j).
Proof.
  unfold at_. destruct (cis !! Z.to_nat j) as [ci|] eqn:E; simpl; [|done].
  rewrite Forall_forall in nonneg. apply nonneg. by eapply list_elem_of_lookup_2.
Qed.

Lemma seg_nonneg lo hi : 0 ≤ seg cis lo hi.
Proof. apply sum_from_nonneg. intros j. apply at_nonneg. Qed.

Lemma seg_le_total lo hi : 0 ≤ lo → hi ≤ len cis → seg cis lo hi ≤ total_count cis.
Proof.
  intros Hlo Hhi. destruct (decide (lo ≤ hi)) as [Hle|Hgt].
  - rewrite <- seg_all.
    rewrite (seg_split cis 0 lo (len cis)) by lia.
    rewrite (seg_split cis lo hi (len cis)) by lia.
    pose proof (seg_nonneg 0 lo). pose proof (seg_nonneg hi (len cis)). lia.
  - rewrite seg_empty by lia. rewrite <- seg_all. apply seg_nonneg.
Qed.

Lemma uint64_small x : 0 ≤ x < 2 ^ 64 → uint64 x = x.
Proof. intros H. unfold uint64, wrap_uint64. by apply Z.mod_small. Qed.

Lemma wrap_small x : 0 ≤ x < 2 ^ 64 → wrap_uint64 x = x.
Proof. intros H. unfold wrap_uint64. by apply Z.mod_small. Qed.

Local Opaque uint64 wrap_uint64.

Hypothesis fits : total_count cis < 2 ^ 64.

Lemma at_small j : 0 ≤ j < len cis → 0 ≤ RecordsCount (at_ cis j) < 2 ^ 64.
Proof.
  intros Hj. split; [apply at_nonneg|].
  pose proof (seg_le_total j (j + 1) ltac:(lia) ltac:(lia)) as H.
  rewrite seg_first, seg_empty in H by lia. lia.
Qed.

(** The two loops going up. *)
Lemma skipped_up fuel : ∀ i idx total,
  0 ≤ i ≤ idx → idx ≤ len cis → (Z.to_nat (idx - i) < fuel)%nat →
  0 ≤ total → total + seg cis i idx < 2 ^ 64 →
  skipped_loop fuel cis 1 idx i total = Some (total + seg cis i idx).
Proof.
  induction fuel as [|fuel IH]; intros i idx total Hi Hidx Hf Ht Hfit; [lia|].
  simpl. destruct (i =? idx) eqn:E; simpl.
  - apply Z.eqb_eq in E. subst. rewrite seg_empty by lia. f_equal. lia.
  - apply Z.eqb_neq in E. rewrite seg_first in * by lia.
    pose proof (at_small i ltac:(lia)) as Hs.
    pose proof (seg_nonneg (i + 1) idx) as Hn.
    rewrite (uint64_small _ Hs). rewrite wrap_small by lia.
    rewrite IH; [f_equal; lia | lia | lia | lia | lia | lia].
Qed.

Lemma matching_up fuel : ∀ idx total count,
  0 ≤ idx ≤ len cis → (Z.to_nat (len cis - idx) < fuel)%nat →
  0 ≤ count ≤ total → total + seg cis idx (len cis) < 2 ^ 64 →
  matching_loop fuel cis 1 idx total count
    = Some (total + seg cis idx (len cis), count + seg cis idx (len cis)).
Proof.
  induction fuel as [|fuel IH]; intros idx total count Hidx Hf Ht Hfit; [lia|].
  simpl. destruct (idx <? len cis) eqn:E.
  - apply Z.ltb_lt in E. rewrite (proj2 (Z.leb_le 0 idx)) by lia. simpl.
    rewrite seg_first in * by lia.
    pose proof (at_small idx ltac:(lia)) as Hs.
    pose proof (seg_nonneg (idx + 1) (len cis)) as Hn.
    rewrite (uint64_small _ Hs). rewrite !wrap_small by lia.
    rewrite IH; [f_equal; f_equal; lia | lia | lia | lia | lia].
  - apply Z.ltb_ge in E. rewrite andb_false_r. rewrite seg_empty by lia.
    f_equal. f_equal; lia.
Qed.

(** The two loops going down. *)
Lemma skipped_down fuel : ∀ i idx total,
  0 ≤ idx ≤ i → i < len cis → (Z.to_nat (i - idx) < fuel)%nat →
  0 ≤ total → total + seg cis (idx + 1) (i + 1) < 2 ^ 64 →
  skipped_loop fuel cis (-1) idx i total = Some (total + seg cis (idx + 1) (i + 1)).
Proof.
  induction fuel as [|fuel IH]; intros i idx total Hi Hidx Hf Ht Hfit; [lia|].
  simpl. destruct (i =? idx) eqn:E; simpl.
  - apply Z.eqb_eq in E. subst. rewrite seg_empty by lia. f_equal. lia.
  - apply Z.eqb_neq in E. rewrite seg_last in * by lia.
    pose proof (at_small i ltac:(lia)) as Hs.
    pose proof (seg_nonneg (idx + 1) i) as Hn.
    rewrite (uint64_small _ Hs). rewrite wrap_small by lia.
    replace (i + -1 + 1) with i in IH by lia.
    specialize (IH (i + -1) idx (total + RecordsCount (at_ cis i))).
    replace (i + -1 + 1) with i in IH by lia.
    rewrite IH; [f_equal; lia | lia | lia | lia | lia | lia].
Qed.

Lemma matching_down fuel : ∀ idx total count,
  -1 ≤ idx < len cis → (Z.to_nat (idx + 1) < fuel)%nat →
  0 ≤ count ≤ total → total + seg cis 0 (idx + 1) < 2 ^ 64 →
  matching_loop fuel cis (-1) idx total count
    = Some (total + seg cis 0 (idx + 1), count + seg cis 0 (idx + 1)).
Proof.
  induction fuel as [|fuel IH]; intros idx total count Hidx Hf Ht Hfit; [lia|].
  simpl. destruct (0 <=? idx) eqn:E.
  - apply Z.leb_le in E. rewrite (proj2 (Z.ltb_lt idx (len cis))) by lia. simpl.
    rewrite seg_last in * by lia.
    pose proof (at_small idx ltac:(lia)) as Hs.
    pose proof (seg_nonneg 0 idx) as Hn.
    rewrite (uint64_small _ Hs). rewrite !wrap_small by lia.
    specialize (IH (idx + -1) (total + RecordsCount (at_ cis idx))
                  (count + RecordsCount (at_ cis idx))).
    replace (idx + -1 + 1) with idx in IH by lia.
    rewrite IH; [f_equal; f_equal; lia | lia | lia | lia | lia].
  - apply Z.leb_gt in E. simpl. rewrite seg_empty by lia.
    f_equal. f_equal; lia.
Qed.


Lemma matching_out fuel inc idx total count :
  (0 <=? idx) && (idx <? len cis) = false →
  matching_loop (S fuel) cis inc idx total count = Some (total, count).
Proof. intros H. simpl. by rewrite H. Qed.

End counted.


Lemma skip_to_length desc sid l :
  (length (chunkfs.skip_to desc sid l) ≤ length l)%nat.
Proof.
  induction l as [|r l IH]; simpl; [done|].
  destruct (if desc then _ else _); simpl; lia.
Qed.

Lemma open_cursor_length w ci desc sid cr :
  open_cursor d w ci desc sid = Ok cr →
  ∃ rc, GetOpenedChunk d (ID ci) w = Ok rc ∧
        len (chunkfs.remaining cr) ≤ len (chunkfs.records rc).
Proof.
  unfold open_cursor, chunkfs.OpenChunkReader.
  destruct (GetOpenedChunk d (ID ci) w) as [rc| |]; try discriminate.
  destruct (chunkfs.reader_err rc desc); try discriminate.
  intros [= <-]. exists rc. split; [done|]. unfold len.
  assert (length (if desc then reverse (chunkfs.records rc) else chunkfs.records rc)
          = length (chunkfs.records rc)) as Hl.
  { destruct desc; [apply length_reverse | done]. }
  destruct (negb _); simpl.
  - pose proof (skip_to_length desc sid
                  (if desc then reverse (chunkfs.records rc) else chunkfs.records rc)).
    lia.
  - lia.
Qed.


Lemma total_count_nonneg cis :
  Forall (λ ci, 0 ≤ RecordsCount ci) cis → 0 ≤ total_count cis.
Proof. intros H. rewrite <- seg_all. by apply seg_nonneg. Qed.

Lemma at_elem_of cis j : 0 ≤ j < len cis → at_ cis j ∈ cis.
Proof.
  intros H. unfold at_, len in *.
  destruct (cis !! Z.to_nat j) as [ci|] eqn:E.
  - by eapply list_elem_of_lookup_2.
  - apply lookup_ge_None in E. lia.
Qed.


End facts.
End count_facts.

(** ** [QueryRecords] *)
Module query_facts.
Import logfs.

Section facts.
Context {W : Type}.
Variable d : Deps W.
Variable cfg : Config.

Local Abbreviation chunk_scan := (logfs.chunk_scan d).
Local Abbreviation full_scan := (logfs.full_scan d).
Local Abbreviation scan_start := (logfs.scan_start d).
Local Abbreviation limit_of := (logfs.limit_of cfg).

Lemma bytes_app r1 r2 : bytes (r1 ++ r2) = bytes r1 + bytes r2.
Proof. unfold bytes. induction r1; simpl; lia. Qed.

Lemma bytes_nonneg rs : 0 ≤ bytes rs.
Proof. unfold bytes, len. induction rs; simpl; lia. Qed.

Lemma len_app {A} (l1 l2 : list A) : len (l1 ++ l2) = len l1 + len l2.
Proof. unfold len. rewrite length_app. lia. Qed.

Lemma len_nonneg {A} (l : list A) : 0 ≤ len l.
Proof. unfold len. lia. Qed.

(** [read_loop] takes a prefix of the cursor, and all of it unless a
    limit stops it. *)
Lemma read_loop_spec lid rem : ∀ limit res ts res' ts',
  read_loop d cfg lid rem limit res ts = (res', ts') →
  ∃ k, res' = res ++ map (to_Record d lid) (take k rem) ∧
       ts' = ts + bytes (map (to_Record d lid) (take k rem)) ∧
       (k = length rem ∨ ¬ (len res' < limit ∧ ts' < MaxBunchSize cfg)).
Proof.
  induction rem as [|ur rem IH]; intros limit res ts res' ts' H; simpl in H.
  - injection H as <- <-. exists 0%nat. simpl. rewrite app_nil_r.
    split; [done|]. split; [unfold bytes; simpl; lia | by left].
  - destruct ((len res <? limit) && (ts <? MaxBunchSize cfg)) eqn:Hc.
    + apply IH in H as (k & Hr & Ht & Hk). exists (S k). simpl.
      split; [by rewrite Hr, <- app_assoc|]. split.
      * rewrite Ht. unfold bytes. simpl. lia.
      * destruct Hk as [->|Hk]; [by left | by right].
    + injection H as <- <-. exists 0%nat. simpl. rewrite app_nil_r.
      split; [done|]. split; [unfold bytes; simpl; lia|]. right.
      intros [H1 H2]. apply andb_false_iff in Hc as [Hc|Hc].
      * apply Z.ltb_ge in Hc. lia.
      * apply Z.ltb_ge in Hc. lia.
Qed.

Lemma visited_step cis desc idx :
  0 ≤ idx < len cis →
  visited cis desc idx = at_ cis idx :: visited cis desc (idx + (if desc then -1 else 1)).
Proof.
  intros H. unfold visited, at_, len in *.
  destruct (cis !! Z.to_nat idx) as [ci|] eqn:E.
  2:{ apply lookup_ge_None in E. lia. }
  simpl. destruct desc.
  - replace (Z.to_nat (idx + 1)) with (S (Z.to_nat idx)) by lia.
    replace (Z.to_nat (idx + -1 + 1)) with (Z.to_nat idx) by lia.
    rewrite (take_S_r _ _ _ E), reverse_app. reflexivity.
  - replace (Z.to_nat (idx + 1)) with (S (Z.to_nat idx)) by lia.
    by rewrite (drop_S _ _ _ E).
Qed.

Lemma visited_out cis desc idx :
  scan_range cis desc idx → (0 <=? idx) && (idx <? len cis) = false →
  visited cis desc idx = [].
Proof.
  intros Hr H. unfold visited, scan_range, len in *.
  assert (if desc then idx = -1 else idx = Z.of_nat (length cis)) as Hi.
  { apply andb_false_iff in H as [H|H]; [apply Z.leb_gt in H | apply Z.ltb_ge in H];
      destruct desc; lia. }
  destruct desc; subst idx.
  - reflexivity.
  - rewrite Nat2Z.id. apply drop_all.
Qed.

Lemma scan_range_step cis desc idx :
  scan_range cis desc idx → 0 ≤ idx < len cis →
  scan_range cis desc (idx + (if desc then -1 else 1)).
Proof. unfold scan_range. destruct desc; lia. Qed.

Lemma readRecords_scan w lid ci desc sid limit ts srecs ts' :
  readRecords d cfg w lid ci desc sid limit ts = Ok (srecs, ts') →
  ∃ all k, chunk_scan w lid ci desc sid = Ok all ∧
    srecs = take k all ∧ ts' = ts + bytes srecs ∧
    (srecs = all ∨ ¬ (len srecs < limit ∧ ts' < MaxBunchSize cfg)).
Proof.
  unfold readRecords, logfs.chunk_scan.
  destruct (open_cursor d w ci desc sid) as [cr| |]; try discriminate.
  intros [= H]. apply read_loop_spec in H as (k & Hr & Ht & Hk).
  simpl in Hr. exists (map (to_Record d lid) (chunkfs.remaining cr)), k.
  split; [done|]. rewrite List.firstn_map. split; [done|]. split; [by rewrite Hr|].
  destruct Hk as [->|Hk]; [left | by right].
  rewrite Hr. by rewrite take_ge by lia.
Qed.

(** The chunk loop of [QueryRecords]: it returns; its flag says whether a
    limit was reached; without the flag the result is the whole scan. *)
Lemma query_loop_spec w lid cis desc limit fuel : ∀ idx sid res ts,
  scan_range cis desc idx → (chunks_left cis desc idx < fuel)%nat →
  ts = bytes res →
  ∃ out,
    query_loop d cfg fuel w lid cis desc (if desc then -1 else 1) limit idx sid res ts
      = Some out ∧
    ∀ res' more, out = Return (res', more) None →
      more = (limit <=? len res') || (MaxBunchSize cfg <=? bytes res') ∧
      (∃ rs, res' = res ++ rs) ∧
      (more = false →
         ∃ rs, full_scan w lid (visited cis desc idx) desc sid = Ok rs ∧
               res' = res ++ rs).
Proof.
  induction fuel as [|fuel IH]; intros idx sid res ts Hr Hf Hts; [lia|].
  simpl. destruct ((0 <=? idx) && (idx <? len cis) && (len res <? limit)) eqn:Hc.
  - apply andb_true_iff in Hc as [Hc Hlim]. pose proof Hc as Hc'.
    apply andb_true_iff in Hc' as [Hlo Hhi].
    apply Z.leb_le in Hlo. apply Z.ltb_lt in Hhi. apply Z.ltb_lt in Hlim.
    destruct (readRecords d cfg w lid (at_ cis idx) desc sid (limit - len res) ts)
      as [[srecs ts']| |] eqn:Hread.
    2:{ eexists. split; [done|]. by intros ? ? [=]. }
    2:{ eexists. split; [done|]. by intros ? ? [=]. }
    apply readRecords_scan in Hread as (all & k & Hall & Hs & Hts' & Hfull).
    destruct (IH (idx + (if desc then -1 else 1)) 0 (res ++ srecs) ts')
      as (out & Hrun & Hout).
    { apply scan_range_step; [done | lia]. }
    { unfold chunks_left in *. destruct desc; lia. }
    { rewrite bytes_app. lia. }
    exists out. split; [exact Hrun|]. intros res' more Ho.
    destruct (Hout res' more Ho) as (Hmore & [rs Hrs] & Hexh).
    split; [exact Hmore|]. split; [exists (srecs ++ rs); by rewrite Hrs, <- app_assoc|].
    intros Hfalse. destruct (Hexh Hfalse) as (rs' & Hscan & Hres').
    rewrite (visited_step cis desc idx) by lia. simpl. rewrite Hall, Hscan.
    rewrite Hfalse in Hmore. symmetry in Hmore.
    apply orb_false_iff in Hmore as [H1 H2].
    apply Z.leb_gt in H1. apply Z.leb_gt in H2.
    assert (srecs = all) as <-.
    { destruct Hfull as [?|Hn]; [done|]. exfalso. apply Hn.
      rewrite Hres', !len_app, !bytes_app in *.
      pose proof (len_nonneg rs'). pose proof (bytes_nonneg rs'). lia. }
    eexists. split; [reflexivity|]. by rewrite Hres', <- app_assoc.
  - eexists. split; [reflexivity|]. intros res' more [= <- <-].
    rewrite Hts. split; [done|]. split; [exists []; by rewrite app_nil_r|].
    intros Hfalse. apply orb_false_iff in Hfalse as [H1 H2].
    apply Z.leb_gt in H1.
    assert ((0 <=? idx) && (idx <? len cis) = false) as Hout.
    { apply andb_false_iff in Hc as [Hc|Hc]; [done|]. apply Z.ltb_ge in Hc. lia. }
    rewrite (visited_out cis desc idx Hr Hout). simpl.
    exists []. by rewrite app_nil_r.
Qed.


(** *** [sort.Search] *)

Lemma Search_loop_range f fuel : ∀ i j, i ≤ j → i ≤ sort.Search_loop fuel f i j ≤ j.
Proof.
  induction fuel as [|fuel IH]; intros i j Hij; simpl; [lia|].
  destruct (i <? j) eqn:E; [|lia]. apply Z.ltb_lt in E.
  rewrite Z.shiftr_div_pow2 by lia. change (2 ^ 1) with 2.
  assert (i ≤ (i + j) / 2 < j) as Hh.
  { split; [apply Z.div_le_lower_bound; lia | apply Z.div_lt_upper_bound; lia]. }
  destruct (negb (f ((i + j) / 2))).
  - specialize (IH ((i + j) / 2 + 1) j ltac:(lia)). lia.
  - specialize (IH i ((i + j) / 2) ltac:(lia)). lia.
Qed.

Lemma Search_range n f : 0 ≤ n → 0 ≤ sort.Search n f ≤ n.
Proof. intros H. unfold sort.Search. by apply Search_loop_range. Qed.

(** On a predicate that is false below [k] and true from [k] on, the
    search finds [k]. *)
Lemma Search_loop_first f k fuel : ∀ i j,
  i ≤ k ≤ j → (Z.to_nat (j - i) ≤ fuel)%nat →
  (∀ x, i ≤ x < k → f x = false) → (∀ x, k ≤ x < j → f x = true) →
  sort.Search_loop fuel f i j = k.
Proof.
  induction fuel as [|fuel IH]; intros i j Hk Hf Hlo Hhi; simpl; [lia|].
  destruct (i <? j) eqn:E; [|apply Z.ltb_ge in E; lia]. apply Z.ltb_lt in E.
  rewrite Z.shiftr_div_pow2 by lia. change (2 ^ 1) with 2.
  assert (i ≤ (i + j) / 2 < j) as Hh.
  { split; [apply Z.div_le_lower_bound; lia | apply Z.div_lt_upper_bound; lia]. }
  destruct (f ((i + j) / 2)) eqn:Efh; simpl.
  - assert (k ≤ (i + j) / 2) as Hkh.
    { destruct (decide (k ≤ (i + j) / 2)); [done|].
      rewrite Hlo in Efh by lia. done. }
    apply IH; [lia | lia | done |]. intros x Hx. apply Hhi. lia.
  - assert ((i + j) / 2 < k) as Hkh.
    { destruct (decide ((i + j) / 2 < k)); [done|].
      rewrite Hhi in Efh by lia. done. }
    apply IH; [lia | lia | | done]. intros x Hx. apply Hlo. lia.
Qed.

Lemma Search_first n f k :
  0 ≤ k ≤ n →
  (∀ x, 0 ≤ x < k → f x = false) → (∀ x, k ≤ x < n → f x = true) →
  sort.Search n f = k.
Proof. intros Hk Hlo Hhi. unfold sort.Search. apply Search_loop_first; [lia|lia|done|done]. Qed.

Lemma start_index_range cis desc sid : scan_range cis desc (start_index cis desc sid).
Proof.
  unfold scan_range, start_index. pose proof (len_nonneg cis) as Hn.
  destruct desc.
  - pose proof (Search_range (len cis) (λ i, 0 <? ulid.Compare (Min (at_ cis i)) sid) Hn). lia.
  - pose proof (Search_range (len cis) (λ i, 0 <=? ulid.Compare (Max (at_ cis i)) sid) Hn). lia.
Qed.

(** [QueryRecords] returns, and a result without an error is as
    [query_loop_spec] says. *)
Lemma QueryRecords_spec req w :
  ∃ out, QueryRecords d cfg req w = Some out ∧
    ∀ res more, out = Return (res, more) None →
    ∀ cis, GetChunks d (storage.LogID req) w = Ok cis →
      (cis = [] → res = [] ∧ more = false) ∧
      (cis ≠ [] →
         more = (limit_of req <=? len res) || (MaxBunchSize cfg <=? bytes res) ∧
         (more = false →
            ∃ idx sid, scan_start cis req = Some (idx, sid) ∧
              full_scan w (storage.LogID req) (visited cis (storage.Descending req) idx)
                        (storage.Descending req) sid = Ok res)).
Proof.
  unfold QueryRecords.
  destruct (lockers_GetOrCreate d _ w); [eexists; split; [done|]; by intros ? ? [=]|].
  destruct (GetChunks d (storage.LogID req) w) as [cis| |];
    [|eexists; split; [done|]; by intros ? ? [=]..].
  destruct (len cis =? 0) eqn:Hlen.
  { eexists. split; [done|]. intros ? ? [= <- <-] ? [= <-]. split; [done|].
    intros Hne. apply Z.eqb_eq in Hlen. destruct cis; [done | unfold len in Hlen; simpl in Hlen; lia]. }
  apply Z.eqb_neq in Hlen.
  assert (cis ≠ []) as Hne by (intros ->; by apply Hlen).
  fold (logfs.limit_of cfg req). unfold logfs.scan_start.
  destruct (negb (String.eqb (storage.StartID req) "")).
  - destruct (UnmarshalText d (storage.StartID req)) as [sid|];
      [|eexists; split; [done|]; by intros ? ? [=]].
    destruct (query_loop_spec w (storage.LogID req) cis (storage.Descending req)
                (limit_of req) (S (length cis))
                (start_index cis (storage.Descending req) sid) sid [] 0)
      as (out & Hrun & Hout).
    { apply start_index_range. }
    { pose proof (start_index_range cis (storage.Descending req) sid) as Hr.
      unfold chunks_left, scan_range, len in *. destruct (storage.Descending req); lia. }
    { done. }
    exists out. split; [exact Hrun|]. intros res more Ho cis' [= <-].
    destruct (Hout res more Ho) as (Hmore & _ & Hexh).
    split; [done|]. intros _. split; [exact Hmore|].
    intros Hf. destruct (Hexh Hf) as (rs & Hscan & ->). eauto.
  - destruct (query_loop_spec w (storage.LogID req) cis (storage.Descending req)
                (limit_of req) (S (length cis))
                (if storage.Descending req then len cis - 1 else 0) 0 [] 0)
      as (out & Hrun & Hout).
    { unfold scan_range, len in *. destruct (storage.Descending req); lia. }
    { unfold chunks_left, len in *. destruct (storage.Descending req); lia. }
    { done. }
    exists out. split; [exact Hrun|]. intros res more Ho cis' [= <-].
    destruct (Hout res more Ho) as (Hmore & _ & Hexh).
    split; [done|]. intros _. split; [exact Hmore|].
    intros Hf. destruct (Hexh Hf) as (rs & Hscan & ->). eauto.
Qed.


(** *** The start ID is inclusive *)

Lemma skip_to_start desc (l : list chunkfs.UnsafeRecord) ur :
  StronglySorted (before desc) l → ur ∈ l →
  ∃ l', chunkfs.skip_to desc (chunkfs.ID ur) l = ur :: l'.
Proof.
  induction 1 as [|r l Hl IH Hr]; intros Hin; [by apply elem_of_nil in Hin|].
  simpl. apply elem_of_cons in Hin as [<-|Hin].
  - exists l. destruct desc.
    + by rewrite Z.gtb_ltb, Z.ltb_irrefl.
    + by rewrite Z.ltb_irrefl.
  - rewrite Forall_forall in Hr. specialize (Hr ur Hin). unfold before in Hr.
    destruct desc.
    + rewrite Z.gtb_ltb, (proj2 (Z.ltb_lt _ _) Hr). by apply IH.
    + rewrite (proj2 (Z.ltb_lt _ _) Hr). by apply IH.
Qed.

Lemma before_reverse (l : list chunkfs.UnsafeRecord) :
  StronglySorted (before false) l → StronglySorted (before true) (reverse l).
Proof.
  induction 1 as [|r l Hl IH Hr]; [constructor|].
  rewrite reverse_cons. apply StronglySorted_app_2; [|done|repeat constructor].
  intros x1 x2 H1 ->%list_elem_of_singleton.
  rewrite elem_of_reverse in H1. rewrite Forall_forall in Hr. exact (Hr x1 H1).
Qed.

Lemma open_cursor_start w ci desc rc ur :
  GetOpenedChunk d (ID ci) w = Ok rc → chunkfs.reader_err rc desc = None →
  StronglySorted (before false) (chunkfs.records rc) → ur ∈ chunkfs.records rc →
  chunkfs.ID ur ≠ 0 →
  ∃ cr l', open_cursor d w ci desc (chunkfs.ID ur) = Ok cr ∧
           chunkfs.remaining cr = ur :: l'.
Proof.
  intros Hrc Herr Hs Hin Hnz. unfold open_cursor, chunkfs.OpenChunkReader.
  rewrite Hrc, Herr.
  assert (negb (ulid.Compare (chunkfs.ID ur) 0 =? 0) = true) as ->.
  { unfold ulid.Compare. destruct (chunkfs.ID ur ?= 0) eqn:E; try done.
    apply Z.compare_eq in E. done. }
  destruct (skip_to_start desc
              (if desc then reverse (chunkfs.records rc) else chunkfs.records rc) ur)
    as [l' Hl'].
  { destruct desc; [by apply before_reverse | done]. }
  { destruct desc; [by rewrite elem_of_reverse | done]. }
  eexists _, l'. split; [reflexivity|]. simpl. exact Hl'.
Qed.

Lemma read_loop_first lid ur rem limit :
  1 ≤ limit → 1 ≤ MaxBunchSize cfg →
  ∃ rest ts', read_loop d cfg lid (ur :: rem) limit [] 0 = (to_Record d lid ur :: rest, ts').
Proof.
  intros Hl Hb. simpl.
  rewrite (proj2 (Z.ltb_lt _ _)) by (unfold len; simpl; lia).
  rewrite (proj2 (Z.ltb_lt _ _)) by lia. simpl.
  destruct (read_loop d cfg lid rem limit [to_Record d lid ur]
              (0 + len (chunkfs.UnsafePayload ur))) as [res' ts'] eqn:E.
  apply read_loop_spec in E as (k & -> & _ & _). simpl. eauto.
Qed.

Lemma Compare_ge a c : (0 <=? ulid.Compare a c) = (c <=? a).
Proof.
  unfold ulid.Compare.
  destruct (Z.compare_spec a c) as [H|H|H]; simpl; symmetry;
    [apply Z.leb_le | apply Z.leb_gt | apply Z.leb_le]; lia.
Qed.

Lemma Compare_gt a c : (0 <? ulid.Compare a c) = (c <? a).
Proof.
  unfold ulid.Compare.
  destruct (Z.compare_spec a c) as [H|H|H]; simpl; symmetry;
    [apply Z.ltb_ge | apply Z.ltb_ge | apply Z.ltb_lt]; lia.
Qed.

Lemma StronglySorted_lookup {A} (R : A → A → Prop) l i j a c :
  StronglySorted R l → l !! i = Some a → l !! j = Some c → (i < j)%nat → R a c.
Proof.
  intros Hs. revert i j. induction Hs as [|x l Hl IH Hx]; intros i j Hi Hj Hij.
  - by rewrite lookup_nil in Hi.
  - destruct j as [|j]; [lia|]. simpl in Hj.
    destruct i as [|i].
    + simpl in Hi. injection Hi as ->. rewrite Forall_forall in Hx.
      apply Hx. by eapply list_elem_of_lookup_2.
    + simpl in Hi. apply (IH i j); [done | done | lia].
Qed.

Lemma at_lookup cis i ci : cis !! i = Some ci → at_ cis (Z.of_nat i) = ci.
Proof. intros H. unfold at_. by rewrite Nat2Z.id, H. Qed.

Lemma at_in cis x : 0 ≤ x < len cis → ∃ ci, cis !! Z.to_nat x = Some ci ∧ at_ cis x = ci.
Proof.
  intros H. unfold at_, len in *. destruct (cis !! Z.to_nat x) as [ci|] eqn:E; [eauto|].
  apply lookup_ge_None in E. lia.
Qed.

(** In an ordered log the scan starts in the chunk that holds the start
    ID. *)
Lemma start_index_found cis desc sid k ci :
  chunks_ordered cis → cis !! k = Some ci → Min ci ≤ sid ≤ Max ci →
  start_index cis desc sid = Z.of_nat k.
Proof.
  intros [Hs Hmm] Hk Hsid. pose proof (lookup_lt_Some _ _ _ Hk) as Hlt.
  rewrite Forall_forall in Hmm. unfold start_index. destruct desc.
  - rewrite (Search_first _ _ (Z.of_nat k + 1)); [lia | unfold len; lia | |].
    + intros x Hx. rewrite Compare_gt. apply Z.ltb_ge.
      destruct (at_in cis x) as (cx & Hcx & ->); [unfold len; lia|].
      destruct (decide (Z.to_nat x = k)) as [E|E].
      * rewrite E, Hk in Hcx. injection Hcx as <-. lia.
      * pose proof (StronglySorted_lookup _ _ _ _ _ _ Hs Hcx Hk ltac:(lia)) as H.
        simpl in H. pose proof (Hmm cx ltac:(by eapply list_elem_of_lookup_2)). lia.
    + intros x Hx. rewrite Compare_gt. apply Z.ltb_lt.
      destruct (at_in cis x) as (cx & Hcx & ->); [lia|].
      pose proof (StronglySorted_lookup _ _ _ _ _ _ Hs Hk Hcx ltac:(lia)) as H.
      simpl in H. lia.
  - apply Search_first; [unfold len; lia | |].
    + intros x Hx. rewrite Compare_ge. apply Z.leb_gt.
      destruct (at_in cis x) as (cx & Hcx & ->); [unfold len; lia|].
      pose proof (StronglySorted_lookup _ _ _ _ _ _ Hs Hcx Hk ltac:(lia)) as H.
      simpl in H. lia.
    + intros x Hx. rewrite Compare_ge. apply Z.leb_le.
      destruct (at_in cis x) as (cx & Hcx & ->); [lia|].
      destruct (decide (Z.to_nat x = k)) as [E|E].
      * rewrite E, Hk in Hcx. injection Hcx as <-. lia.
      * pose proof (StronglySorted_lookup _ _ _ _ _ _ Hs Hk Hcx ltac:(lia)) as H.
        simpl in H. pose proof (Hmm cx ltac:(by eapply list_elem_of_lookup_2)). lia.
Qed.


Lemma query_loop_S fuel w lid cis desc inc limit idx sid res totalSize :
  query_loop d cfg (S fuel) w lid cis desc inc limit idx sid res totalSize =
    if (0 <=? idx) && (idx <? len cis) && (len res <? limit) then
      match readRecords d cfg w lid (at_ cis idx) desc sid (limit - len res) totalSize with
      | Err e => Some (Return ([], false) (Some e))
      | Panic m => Some (Panicked m)
      | Ok (srecs, totalSize') =>
          query_loop d cfg fuel w lid cis desc inc limit (idx + inc) 0
                     (res ++ srecs) totalSize'
      end
    else
      Some (Return (res, (limit <=? len res) || (MaxBunchSize cfg <=? totalSize)) None).
Proof. reflexivity. Qed.

Lemma readRecords_first w lid ci desc rc ur limit :
  GetOpenedChunk d (ID ci) w = Ok rc → chunkfs.reader_err rc desc = None →
  StronglySorted (before false) (chunkfs.records rc) → ur ∈ chunkfs.records rc →
  chunkfs.ID ur ≠ 0 → 1 ≤ limit → 1 ≤ MaxBunchSize cfg →
  ∃ rest ts',
    readRecords d cfg w lid ci desc (chunkfs.ID ur) limit 0
      = Ok (to_Record d lid ur :: rest, ts').
Proof.
  intros Hrc Herr Hs Hin Hnz Hl Hb. unfold readRecords.
  destruct (open_cursor_start w ci desc rc ur Hrc Herr Hs Hin Hnz) as (cr & l' & -> & ->).
  destruct (read_loop_first lid ur l' limit Hl Hb) as (rest & ts' & ->). eauto.
Qed.

End facts.
End query_facts.

(** ** Counting and scanning *)
Module count_scans.
Import logfs count_facts query_facts.

Lemma total_count_cons ci cis : total_count (ci :: cis) = RecordsCount ci + total_count cis.
Proof. done. Qed.

Lemma total_visited cis desc n : ∀ idx,
  scan_range cis desc idx → chunks_left cis desc idx = n →
  total_count (visited cis desc idx)
    = if desc then seg cis 0 (idx + 1) else seg cis idx (len cis).
Proof.
  induction n as [|n IH]; intros idx Hr Hn.
  - rewrite visited_out; [|done|].
    + destruct desc; unfold scan_range, chunks_left in *;
        rewrite seg_empty; try done; lia.
    + unfold scan_range, chunks_left in *. destruct desc.
      * assert (idx = -1) as -> by lia. done.
      * assert (idx = len cis) as -> by lia. apply andb_false_iff. right. by apply Z.ltb_ge.
  - assert (0 ≤ idx < len cis) as Hin.
    { unfold scan_range, chunks_left in *. destruct desc; lia. }
    rewrite visited_step by done. rewrite total_count_cons.
    rewrite IH.
    + destruct desc.
      * replace (idx + -1 + 1) with idx by lia.
        rewrite (seg_last cis 0 idx) by lia. lia.
      * rewrite (seg_first cis idx (len cis)) by lia. done.
    + by apply scan_range_step.
    + unfold chunks_left in *. destruct desc; lia.
Qed.

Section facts.
Context {W : Type}.
Variable d : Deps W.

Lemma count_exact {A} (l : list A) : ∀ c0,
  0 ≤ c0 → c0 + len l < 2 ^ 64 →
  fold_left (λ count _, wrap_uint64 (count + 1)) l c0 = c0 + len l.
Proof.
  induction l as [|a l IH]; intros c0 H0 Hfit; simpl.
  - unfold len. simpl. lia.
  - unfold len in *. simpl length in *.
    rewrite (wrap_small (c0 + 1)) by lia. rewrite IH by lia. lia.
Qed.

(** Without a start ID the cursor gives all the records of the chunk. *)
Lemma open_cursor_all w ci desc cr :
  open_cursor d w ci desc 0 = Ok cr →
  ∃ rc, GetOpenedChunk d (ID ci) w = Ok rc ∧
        len (chunkfs.remaining cr) = len (chunkfs.records rc).
Proof.
  unfold open_cursor, chunkfs.OpenChunkReader.
  destruct (GetOpenedChunk d (ID ci) w) as [rc| |]; try discriminate.
  destruct (chunkfs.reader_err rc desc); try discriminate.
  intros [= <-]. exists rc. split; [done|]. unfold len. simpl.
  destruct desc; [by rewrite length_reverse | done].
Qed.

Lemma full_scan_exact w lid desc chunks : ∀ all,
  (∀ ci rc, ci ∈ chunks → GetOpenedChunk d (ID ci) w = Ok rc →
            len (chunkfs.records rc) = RecordsCount ci) →
  full_scan d w lid chunks desc 0 = Ok all →
  len all = total_count chunks.
Proof.
  induction chunks as [|ci chunks IH]; intros all Hex Hscan; simpl in Hscan.
  - by injection Hscan as <-.
  - unfold chunk_scan in Hscan.
    destruct (open_cursor d w ci desc 0) as [cr| |] eqn:Hcr; [|done..].
    destruct (full_scan d w lid chunks desc 0) as [rs'| |] eqn:Hrest; [|done..].
    injection Hscan as <-.
    destruct (open_cursor_all _ _ _ _ Hcr) as (rc & Hrc & Hlen).
    rewrite len_app, total_count_cons. rewrite (IH rs'); [|set_solver|done].
    unfold len in *. rewrite length_map.
    rewrite <- (Hex ci rc); [lia | set_solver | done].
Qed.

Lemma CountRecords_no_start req w cis :
  lockers_GetOrCreate d (storage.LogID req) w = None →
  GetChunks d (storage.LogID req) w = Ok cis →
  storage.StartID req = "" →
  Forall (λ ci, 0 ≤ RecordsCount ci) cis → total_count cis < 2 ^ 64 →
  CountRecords d req w = Some (Return (total_count cis, total_count cis) None).
Proof.
  intros Hl Hcis Hs Hnn Hfit. unfold CountRecords. rewrite Hl, Hcis, Hs.
  destruct (len cis =? 0) eqn:Hlen.
  { apply Z.eqb_eq in Hlen. destruct cis; [done | unfold len in Hlen; simpl in Hlen; lia]. }
  apply Z.eqb_neq in Hlen. assert (0 < len cis) as Hpos by (unfold len in *; lia).
  pose proof (total_count_nonneg cis Hnn) as Htot.
  simpl negb. cbv iota.
  destruct (storage.Descending req).
  - rewrite (matching_down cis Hnn Hfit); unfold len in *; try lia.
    + replace (Z.of_nat (length cis) - 1 + 1) with (len cis) by (unfold len; lia).
      by rewrite seg_all.
    + replace (Z.of_nat (length cis) - 1 + 1) with (len cis) by (unfold len; lia).
      rewrite seg_all. lia.
  - rewrite (matching_up cis Hnn Hfit); unfold len in *; try lia.
    + fold (len cis). by rewrite seg_all.
    + fold (len cis). rewrite seg_all. lia.
Qed.

End facts.
End count_scans.

(** * The claims *)

Import ql.


(** ** The claims on the interval builder *)

Lemma Z_compare_lawful : LawfulCmp Z.compare.
Proof.
  split.
  - intros x y. apply Z.compare_eq_iff.
  - intros x y. apply Z.compare_antisym.
  - intros x y z. rewrite !Z.compare_lt_iff. lia.
Qed.

Lemma StronglySorted_impl {A} (R1 R2 : A → A → Prop) l :
  (∀ a c, R1 a c → R2 a c) → StronglySorted R1 l → StronglySorted R2 l.
Proof.
  intros HR. induction 1 as [|a l Hl IH Ha]; constructor; [done|].
  eapply Forall_impl; [exact Ha | auto].
Qed.

(** C3, as amended: for an accepted comparison with the constant [v],
    [getIntervals] gives for [<] the interval from the domain minimum to
    [v] that is open on the right only, for [>] the interval from [v] to the
    domain maximum that is open on the left only, for [<=] the closed
    interval from the minimum to [v], for [>=] the closed interval from [v]
    to the maximum, for [=] the closed point interval and for [!=] the
    complement of that point interval. *)
Theorem C3_getIntervals_mapping {T K Any VT ConstT : Type}
    (ib : ParamIntervalBuilder T K Any VT ConstT) (v : T) :
  let bs := basis ib in
  getIntervals ib "<" v = [OpenR (intervals.Min bs) v] ∧
  getIntervals ib ">" v = [OpenL v (intervals.Max bs)] ∧
  getIntervals ib "<=" v = [Closed (intervals.Min bs) v] ∧
  getIntervals ib ">=" v = [Closed v (intervals.Max bs)] ∧
  getIntervals ib "=" v = [Closed v v] ∧
  getIntervals ib "!=" v = Negate bs (Closed v v) ∧
  (∀ i, i ∈ getIntervals ib "<" v → IsOpenR i = true ∧ IsOpen i = false) ∧
  (∀ i, i ∈ getIntervals ib ">" v → IsOpenL i = true ∧ IsOpen i = false).
Proof.
  intros bs. repeat split; try reflexivity.
  - by apply list_elem_of_singleton in H as ->.
  - by apply list_elem_of_singleton in H as ->.
  - by apply list_elem_of_singleton in H as ->.
  - by apply list_elem_of_singleton in H as ->.
Qed.

(** C3 as stated fails: the interval of [t < 5] is not the open interval
    [(0, 5)]: it holds the domain minimum 0, which [(0, 5)] does not. *)
Lemma C3_open_interval_counterexample :
  getIntervals ql_samples.ib_all "<" 5 ≠ [Open 0 5] ∧
  contains_any ql_samples.BasisZ (getIntervals ql_samples.ib_all "<" 5) 0 = true ∧
  contains ql_samples.BasisZ (Open 0 5) 0 = false ∧
  getIntervals ql_samples.ib_all ">" 5 ≠ [Open 5 100].
Proof. repeat split; discriminate. Qed.

(** C4, as amended. [buildCond] looks at a comparison [c] in this
    order, and the first item that applies decides:
    - a left operand that the dialect knows and that may not stand on the
      left is refused with an [ErrInvalid] error;
    - a left operand that is known, may stand on the left and allows
      operations, but is not the target parameter, makes the comparison
      skipped: no intervals and no error, whatever its right operand and
      operator;
    - with the target parameter on the left (known, valid on the left,
      allowing operations), a right operand that the dialect knows and
      that may not stand on the right is refused with an [ErrInvalid]
      error, whatever the operator;
    - with the target parameter on the left and a right operand that is a
      known constant, may stand on the right and allows operations, an
      operator outside the accepted set of the build makes the comparison
      skipped, whatever the type of the constant;
    - with the target parameter on the left, such a constant on the right,
      an accepted operator and both operands flagged comparable, a
      constant whose converted value is not of the interval's point type
      is refused with an [ErrInvalid] error.
    [Build] of the expression that is just the comparison returns no
    intervals and no error when [buildCond] skips the comparison and
    returns the error [buildCond] returns, and [Build] of any expression
    that holds a refused comparison fails. *)
Theorem C4_comparison_outcomes {T K Any VT ConstT : Type}
    (pkg : Package T K Any VT ConstT)
    (ib : ParamIntervalBuilder T K Any VT ConstT) (c : Condition ConstT) :
  (∀ dp1,
     dialect ib !! ID (FirstParam c) = Some dp1 →
     has (Flags dp1) (PfLValue pkg) = false →
     ∃ e, buildCond pkg ib c = Err e ∧ Is e ErrInvalid = true) ∧
  (∀ dp1 p2 dp2,
     left_ok pkg ib c dp1 → Name (FirstParam c) = param ib →
     SecondParam c = Some p2 → dialect ib !! ID p2 = Some dp2 →
     has (Flags dp2) (PfRValue pkg) = false →
     ∃ e, buildCond pkg ib c = Err e ∧ Is e ErrInvalid = true) ∧
  (∀ dp1 p2 dp2 vf kVal,
     on_target pkg ib c dp1 p2 dp2 → Op c ∈ ops ib →
     comparable pkg c dp1 dp2 →
     castValueF pkg (ValueF dp2) (Type_ dp2) (Type_ dp1) = Ok vf →
     vf p2 (zeroK pkg) = Ok kVal → assertT pkg kVal = None →
     ∃ e, buildCond pkg ib c = Err e ∧ Is e ErrInvalid = true) ∧
  (∀ dp1 p2 dp2,
     on_target pkg ib c dp1 p2 dp2 → Op c ∉ ops ib →
     buildCond pkg ib c = Ok []) ∧
  (∀ dp1,
     left_ok pkg ib c dp1 → Name (FirstParam c) ≠ param ib →
     buildCond pkg ib c = Ok []) ∧
  (buildCond pkg ib c = Ok [] → Build pkg ib (single c) = Ok []) ∧
  (∀ e, buildCond pkg ib c = Err e → Build pkg ib (single c) = Err e) ∧
  (∀ expr, c ∈ conds_of expr → is_Ok (buildCond pkg ib c) = false →
           is_Ok (Build pkg ib expr) = false).
Proof.
  split; [apply ql_facts.buildCond_left_wrong_side|].
  split; [apply ql_facts.buildCond_right_wrong_side|].
  split.
  { intros dp1 p2 dp2 vf kVal Ht Hop Hcmp Hvf Hv Ha.
    rewrite (ql_facts.buildCond_value pkg ib c dp1 p2 dp2 Ht Hop Hcmp), Hvf, Hv, Ha.
    eexists. split; [reflexivity | apply ql_facts.invalid_Is]. }
  split; [apply ql_facts.buildCond_op_skipped|].
  split; [apply ql_facts.buildCond_other_param|].
  split; [apply ql_facts.Build_single_skipped|].
  split; [apply ql_facts.Build_single_Err|].
  intros expr. apply ql_facts.Build_fails.
Qed.

(** C4 as stated fails: with the accepted set [<], [>] the comparison
    [t = 5] on the target parameter has an operator outside the set, and
    [Build] returns no intervals and no error. *)
Lemma C4_unaccepted_operator_counterexample :
  (Op (ql_samples.cmp_ "t" "=" 5) ∉ ops ql_samples.ib_gtlt) ∧
  Build ql_samples.pkg ql_samples.ib_gtlt
        (single (ql_samples.cmp_ "t" "=" 5)) = Ok [].
Proof.
  split; [|reflexivity].
  apply (proj1 (bool_decide_eq_false _)). reflexivity.
Qed.

(** The outcomes at samples: [r = 5] with [r] a right-side-only parameter
    is refused, [t = 5] is skipped when only [<] and [>] are accepted,
    [u = 5] is skipped by the builder of [t]. *)
Lemma C4_comparison_outcomes_witness :
  (∃ e, buildCond ql_samples.pkg ql_samples.ib_all (ql_samples.cmp_ "r" "=" 5) = Err e
        ∧ Is e ErrInvalid = true) ∧
  buildCond ql_samples.pkg ql_samples.ib_gtlt (ql_samples.cmp_ "t" "=" 5) = Ok [] ∧
  buildCond ql_samples.pkg ql_samples.ib_all (ql_samples.cmp_ "u" "=" 5) = Ok [].
Proof.
  split; [|split].
  - destruct (C4_comparison_outcomes ql_samples.pkg ql_samples.ib_all
                (ql_samples.cmp_ "r" "=" 5)) as (H & _).
    eapply H; reflexivity.
  - destruct (C4_comparison_outcomes ql_samples.pkg ql_samples.ib_gtlt
                (ql_samples.cmp_ "t" "=" 5)) as (_ & _ & _ & H & _).
    eapply H.
    + repeat split; try reflexivity. by eexists.
    + apply (proj1 (bool_decide_eq_false _)). reflexivity.
  - destruct (C4_comparison_outcomes ql_samples.pkg ql_samples.ib_all
                (ql_samples.cmp_ "u" "=" 5)) as (_ & _ & _ & _ & H & _).
    eapply H.
    + repeat split; reflexivity.
    + discriminate.
Defined.

(** C7: the intervals [Build] returns are in ascending order of their
    lower border, no two of them have a point in common, and no two of
    them can be merged: overlapping and adjacent intervals have been merged
    into one. *)
Theorem C7_Build_sorted_disjoint_merged {T K Any VT ConstT : Type}
    (pkg : Package T K Any VT ConstT)
    (ib : ParamIntervalBuilder T K Any VT ConstT)
    (e : Expression ConstT) (r : list (Interval T)) :
  LawfulCmp (CmpF (basis ib)) →
  Build pkg ib e = Ok r →
  StronglySorted
    (λ a c, StartsBefore (basis ib) c a = false ∧
            (∀ x, ¬ (contains (basis ib) a x = true ∧ contains (basis ib) c x = true)) ∧
            Union (basis ib) a c = None) r.
Proof.
  intros laws Hb.
  eapply StronglySorted_impl; [|exact (union_facts.Build_separated ib laws pkg e r Hb)].
  intros a c. apply union_facts.separated_spec. exact laws.
Qed.

(** At a sample: [(t > 1 AND t < 5) OR (t >= 3 AND t <= 7) OR t > 50 OR
    t = 7] gives [(1, 7]] and [(50, 100]]. *)
Lemma C7_Build_sorted_disjoint_merged_witness :
  Build ql_samples.pkg ql_samples.ib_all ql_samples.three_branches
    = Ok [OpenL 1 7; OpenL 50 100] ∧
  StronglySorted
    (λ a c, StartsBefore ql_samples.BasisZ c a = false ∧
            (∀ x, ¬ (contains ql_samples.BasisZ a x = true
                     ∧ contains ql_samples.BasisZ c x = true)) ∧
            Union ql_samples.BasisZ a c = None)
    [OpenL 1 7; OpenL 50 100].
Proof.
  split; [reflexivity|].
  apply (C7_Build_sorted_disjoint_merged ql_samples.pkg ql_samples.ib_all
           ql_samples.three_branches).
  - exact Z_compare_lawful.
  - reflexivity.
Defined.

Import logfs cache.


(** C8, as amended: over a cache that agrees with the storage,
    [GetLastChunk] of a log whose chunk list the storage gives returns,
    without an error, the zero [ChunkInfo] when the log has no chunks, and
    otherwise a chunk of the log whose ID is the biggest; an error of the
    storage is returned as it is. *)
Theorem C8_GetLastChunk {S : Type}
    (storage_GetChunks : S → string → result (list ChunkInfo))
    (s : CachedStorage) (logID : string) :
  coherent storage_GetChunks s →
  (∀ cis, storage_GetChunks (storage_ s) logID = Ok cis →
     (cis = [] →
        fst (GetLastChunk storage_GetChunks s logID) = Return ChunkInfo_zero None) ∧
     (cis ≠ [] →
        ∃ ci, fst (GetLastChunk storage_GetChunks s logID) = Return ci None ∧
              (ci ∈ cis) ∧
              ∀ c, c ∈ cis → String.leb (ID c) (ID ci) = true)) ∧
  (∀ e, storage_GetChunks (storage_ s) logID = Err e →
     fst (GetLastChunk storage_GetChunks s logID) = Return ChunkInfo_zero (Some e)).
Proof.
  intros Hc.
  pose proof (cache_facts.GetOrCreate_loader storage_GetChunks s logID Hc) as Hg.
  unfold GetLastChunk. destruct (GetOrCreate storage_GetChunks s logID) as [r s'].
  simpl in Hg. subst r. unfold chunks_loader. split.
  - intros cis ->. split.
    + intros ->. reflexivity.
    + intros Hne.
      pose proof (cache_facts.Slice_Permutation cis) as Hp.
      pose proof (cache_facts.Slice_by_ID_sorted cis) as Hs.
      set (l := sort.Slice ID_less cis) in *.
      assert (l ≠ []) as Hl.
      { intros E. rewrite E in Hp. by apply Permutation_nil_l in Hp. }
      assert ((len l =? 0) = false) as ->.
      { unfold len. destruct l; [done|]. simpl. lia. }
      simpl. eexists. split; [reflexivity|]. split.
      * rewrite <- Hp. unfold at_, len.
        destruct (l !! Z.to_nat (Z.of_nat (length l) - 1)) as [x|] eqn:E.
        -- simpl. by eapply list_elem_of_lookup_2.
        -- apply lookup_ge_None in E. destruct l; [done|]. simpl in E. lia.
      * intros c Hin. apply cache_facts.sorted_last_biggest; [done| |done].
        by rewrite Hp.
  - intros e ->. reflexivity.
Qed.

Import logfs.
Import append_facts count_facts query_facts.



(** C5, as amended: when a newly created chunk accepts none of the
    records it is offered, the call writes no further: the chunk goes to
    [DeleteFileIfEmpty] and has no descriptor in what the catalog is given.
    When no record was written before, the call returns the [ErrInvalid]
    sizing error with [Added] 0; when records were written to earlier
    chunks, their descriptors are stored and the call returns success with
    [Added] their number and no error (it panics when storing fails). *)
Theorem C5_new_chunk_takes_nothing {W : Type} (d : Deps W)
    (req : solaris.AppendRecordsRequest) (w w' : W)
    (out : ret (option solaris.AppendRecordsResult)) (tr pre post : list Event)
    (cID : string) (recs : list solaris.Record_) (arr : chunkfs.AppendRecordsResult) :
  AppendRecords d req w = Some (out, w', tr) →
  tr = pre ++ EvWrite cID true recs (Ok arr) :: post →
  (0 <? chunkfs.Written arr) = false →
  Is (sizing_error recs) ErrInvalid = true ∧
  (written pre = 0 →
     post = [EvDeleteIfEmpty cID] ∧
     out = Return (Result 0) (Some (sizing_error recs))) ∧
  (0 < written pre →
     ∃ cis err,
       post = [EvDeleteIfEmpty cID; EvUpsert (solaris.req_LogID req) cis err] ∧
       map ID cis = chunks_written pre ∧
       out = match err with
             | None => Return (Result (written pre)) None
             | Some _ => Panicked "unrecoverable error, data is corrupted"
             end).
Proof.
  intros Hrun Htr Hw.
  destruct (AppendRecords_history d req w) as (out' & w'' & tr' & Hrun' & Hh).
  rewrite Hrun in Hrun'. injection Hrun' as <- <- <-.
  split; [reflexivity|].
  set (E := EvWrite cID true recs (Ok arr)) in *.
  set (P := λ ev : Event, write_error_of ev ≠ None).
  assert (P E) as HE by (unfold P, E, write_error_of; by rewrite Hw).
  assert (∀ l, Forall (λ ev, write_error_of ev = None) l → Forall (λ a, ¬ P a) l) as HnP.
  { intros l Hl. eapply Forall_impl; [exact Hl|]. intros ev H HP. by apply HP. }
  destruct Hh as [e | t ev m Ht Hf He | t del tail out Ht Hdel Hcl
                 | t cID' nf recs' r e tail out ev Ht He Hf Hwb Htk Hcl].
  - by destruct pre.
  - exfalso. symmetry in Htr. apply (none_of P _ _ _ _ Htr HE).
    apply HnP, Forall_app. split; [by apply goes_on_no_error | by repeat constructor].
  - exfalso. symmetry in Htr. apply (none_of P _ _ _ _ Htr HE).
    apply HnP. rewrite !Forall_app. split; [by apply goes_on_no_error|].
    split; [by apply delete_facts | by eapply closes_facts].
  - symmetry in Htr. simpl in Htr.
    apply (the_one P) in Htr as (-> & Hev & ->); [|done|by apply HnP, goes_on_no_error|].
    2:{ apply HnP, Forall_app. split; [by destruct nf; repeat constructor|].
        by eapply closes_facts. }
    unfold E, ev in Hev. injection Hev as <- <- <- <-.
    unfold ev, write_error_of in He. rewrite Hw in He. injection He as <-.
    unfold closes in Hcl. split.
    + intros Hz. rewrite Hz in Hcl. simpl in Hcl. destruct Hcl as [-> ->]. done.
    + intros Hpos. rewrite (proj2 (Z.ltb_lt _ _) Hpos) in Hcl.
      destruct Hcl as (cis & err & -> & Hids & ->). eauto.
Qed.


Import count_scans.


(** C10: when the start ID lands on a chunk of the log and the scan of
    that chunk fails, [CountRecords] returns [(0, 0)] and no error. *)
Theorem C10_CountRecords_scan_error {W : Type} (d : Deps W)
    (req : storage.QueryRecordsRequest) (w : W) (cis : list ChunkInfo)
    (sid : ulid.ULID) (e : error) :
  lockers_GetOrCreate d (storage.LogID req) w = None →
  GetChunks d (storage.LogID req) w = Ok cis → cis ≠ [] →
  storage.StartID req ≠ "" →
  UnmarshalText d (storage.StartID req) = Some sid →
  0 ≤ start_index cis (storage.Descending req) sid < len cis →
  countRecords d w (at_ cis (start_index cis (storage.Descending req) sid))
               (storage.Descending req) sid = Err e →
  CountRecords d req w = Some (Return (0, 0) None).
Proof.
  intros Hl Hcis Hne Hs Hsid Hidx Herr. unfold CountRecords.
  rewrite Hl, Hcis.
  assert ((len cis =? 0) = false) as ->.
  { unfold len. destruct cis; [done | simpl; lia]. }
  apply String.eqb_neq in Hs. rewrite Hs. simpl. rewrite Hsid.
  rewrite (proj2 (Z.leb_le _ _) (proj1 Hidx)), (proj2 (Z.ltb_lt _ _) (proj2 Hidx)).
  simpl. by rewrite Herr.
Qed.


(** C2, as amended: every [QueryRecords] call returns; for a log with
    chunks, the [more] flag of a call that succeeds is true exactly when
    the number of records returned has reached the record limit in force or
    their payload bytes have reached the byte budget, whether or not more
    records follow; when the flag is false, the result holds every record
    from the start position to the end of the log in the direction of the
    request. A log without chunks gives no records and a false flag. *)
Theorem C2_more_flag {W : Type} (d : Deps W) (cfg : Config)
    (req : storage.QueryRecordsRequest) (w : W) :
  ∃ out, QueryRecords d cfg req w = Some out ∧
    ∀ res more, out = Return (res, more) None →
    ∀ cis, GetChunks d (storage.LogID req) w = Ok cis →
      (cis = [] → res = [] ∧ more = false) ∧
      (cis ≠ [] →
         more = (limit_of cfg req <=? len res) || (MaxBunchSize cfg <=? bytes res) ∧
         (more = false →
            ∃ idx sid, scan_start d cis req = Some (idx, sid) ∧
              full_scan d w (storage.LogID req)
                        (visited cis (storage.Descending req) idx)
                        (storage.Descending req) sid = Ok res)).
Proof. apply QueryRecords_spec. Qed.

(** C9: in a log whose chunks are in order, a [QueryRecords] call whose
    start ID is the ID of a record of the log, with a record limit and a
    byte budget of at least 1, returns, and when it succeeds that record is
    the first of the result, in either direction. *)
Theorem C9_start_inclusive {W : Type} (d : Deps W) (cfg : Config)
    (req : storage.QueryRecordsRequest) (w : W) (cis : list ChunkInfo)
    (k : nat) (ci : ChunkInfo) (rc : chunkfs.Chunk) (ur : chunkfs.UnsafeRecord) :
  lockers_GetOrCreate d (storage.LogID req) w = None →
  GetChunks d (storage.LogID req) w = Ok cis →
  chunks_ordered cis →
  cis !! k = Some ci →
  GetOpenedChunk d (ID ci) w = Ok rc →
  chunkfs.reader_err rc (storage.Descending req) = None →
  StronglySorted (before false) (chunkfs.records rc) →
  ur ∈ chunkfs.records rc →
  Min ci ≤ chunkfs.ID ur ≤ Max ci →
  chunkfs.ID ur ≠ 0 →
  storage.StartID req ≠ "" →
  UnmarshalText d (storage.StartID req) = Some (chunkfs.ID ur) →
  1 ≤ limit_of cfg req → 1 ≤ MaxBunchSize cfg →
  ∃ out, QueryRecords d cfg req w = Some out ∧
    ∀ res more, out = Return (res, more) None →
      ∃ rest, res = to_Record d (storage.LogID req) ur :: rest.
Proof.
  intros Hl Hcis Hord Hk Hrc Herr Hs Hin Hmm Hnz Hstart Hparse Hlim Hb.
  pose proof (lookup_lt_Some _ _ _ Hk) as Hlt.
  unfold QueryRecords. rewrite Hl, Hcis.
  assert ((len cis =? 0) = false) as -> by (apply Z.eqb_neq; unfold len; lia).
  apply String.eqb_neq in Hstart. rewrite Hstart. simpl negb. cbv iota. rewrite Hparse.
  rewrite (start_index_found cis _ _ k ci Hord Hk Hmm).
  fold (limit_of cfg req).
  rewrite query_loop_S.
  rewrite (proj2 (Z.leb_le _ _)) by lia.
  rewrite (proj2 (Z.ltb_lt _ _)) by (unfold len; lia).
  rewrite (proj2 (Z.ltb_lt (len (@nil solaris.Record_)) _)) by (unfold len; simpl; lia).
  simpl andb. cbv iota. rewrite (at_lookup cis k ci Hk).
  destruct (readRecords_first d cfg w (storage.LogID req) ci (storage.Descending req)
              rc ur (limit_of cfg req - len (@nil solaris.Record_)) Hrc Herr Hs Hin Hnz)
    as (rest & ts' & Hread); [unfold len; simpl; lia | done |].
  rewrite Hread.
  apply readRecords_scan in Hread as (_ & _ & _ & _ & Hts & _).
  destruct (query_loop_spec d cfg w (storage.LogID req) cis (storage.Descending req)
              (limit_of cfg req) (length cis)
              (Z.of_nat k + (if storage.Descending req then -1 else 1)) 0
              ([] ++ to_Record d (storage.LogID req) ur :: rest) ts')
    as (out & Hrun & Hout).
  { unfold scan_range, len. destruct (storage.Descending req); lia. }
  { unfold chunks_left, len. destruct (storage.Descending req); lia. }
  { rewrite Hts. simpl. lia. }
  exists out. split; [exact Hrun|]. intros res more Ho.
  destruct (Hout res more Ho) as (_ & [rs ->] & _). simpl. eauto.
Qed.

(** ** The claims at samples *)

(** C8 as stated fails: for a log without chunks [GetLastChunk] returns
    the zero [ChunkInfo] and no error, not [ErrNotExist]. *)
Lemma C8_no_chunks_counterexample :
  cache_samples.mem_GetChunks ∅ "l1" = Ok [] ∧
  fst (cache.GetLastChunk cache_samples.mem_GetChunks (cache.NewCachedStorage ∅) "l1")
    = Return ChunkInfo_zero None.
Proof. split; reflexivity. Qed.

(** Of the chunks [c2] and [c1], [GetLastChunk] returns [c2]. *)
Lemma C8_GetLastChunk_witness :
  ∃ ci,
    fst (cache.GetLastChunk cache_samples.mem_GetChunks
           (cache.NewCachedStorage cache_samples.two_chunks) "l1") = Return ci None ∧
    ci ∈ [cache_samples.chunk "c2"; cache_samples.chunk "c1"] ∧
    ∀ c, c ∈ [cache_samples.chunk "c2"; cache_samples.chunk "c1"] →
         String.leb (ID c) (ID ci) = true.
Proof.
  destruct (C8_GetLastChunk cache_samples.mem_GetChunks
              (cache.NewCachedStorage cache_samples.two_chunks) "l1"
              (cache_facts.NewCachedStorage_coherent _ _)) as [H _].
  apply (H [cache_samples.chunk "c2"; cache_samples.chunk "c1"]); [reflexivity | discriminate].
Defined.

Import log_samples.


(** C5 as stated fails: in [TestAppendRecordsLimits] the new chunk [c5]
    accepts none of the records, and the call returns success with [Added]
    2 and no error, not an [ErrInvalid] error. *)
Lemma C5_sizing_error_suppressed_counterexample :
  AppendRecords memlog.deps limits_req (memlog.empty_world 10)
    = Some (Return (Result 2) None, limits_world, limits_trace) ∧
  limits_trace
    = take 2 limits_trace
      ++ EvWrite "c5" true [memlog.rec_ 11] (Ok (chunkfs.mkAppendRecordsResult 0 0 0))
      :: drop 3 limits_trace.
Proof. split; vm_compute; reflexivity. Qed.

Lemma C5_new_chunk_takes_nothing_witness :
  0 < written (take 2 limits_trace) ∧
  ∃ cis err,
    drop 3 limits_trace = [EvDeleteIfEmpty "c5"; EvUpsert "l1" cis err] ∧
    map ID cis = chunks_written (take 2 limits_trace) ∧
    Return (Result 2) None
      = match err with
        | None => Return (Result (written (take 2 limits_trace))) None
        | Some _ => Panicked "unrecoverable error, data is corrupted"
        end.
Proof.
  split; [reflexivity|].
  apply (C5_new_chunk_takes_nothing memlog.deps limits_req (memlog.empty_world 10)
           limits_world (Return (Result 2) None) limits_trace
           (take 2 limits_trace) (drop 3 limits_trace) "c5" [memlog.rec_ 11]
           (chunkfs.mkAppendRecordsResult 0 0 0)).
  - vm_compute. reflexivity.
  - vm_compute. reflexivity.
  - reflexivity.
  - reflexivity.
Defined.

(** C2 as stated fails: the log holds one record and the limit is 1; the
    call returns that record with [more] true, although the log is
    exhausted, as the same query with the limit 100 shows. *)
Lemma C2_limit_reached_counterexample :
  QueryRecords memlog.deps cfg (query "" false 1) one_record
    = Some (Return ([to_Record memlog.deps "l1" (ur 2)], true) None) ∧
  QueryRecords memlog.deps cfg (query "" false 100) one_record
    = Some (Return ([to_Record memlog.deps "l1" (ur 2)], false) None).
Proof. split; vm_compute; reflexivity. Qed.

(** The flag at a sample: two of five records asked for. *)
Lemma C2_more_flag_witness :
  QueryRecords memlog.deps cfg (query "" false 2) two_chunks
    = Some (Return (map (to_Record memlog.deps "l1") [ur 2; ur 3], true) None) ∧
  true = (limit_of cfg (query "" false 2) <=? 2) || (MaxBunchSize cfg <=? 6).
Proof.
  split; [vm_compute; reflexivity|].
  destruct (C2_more_flag memlog.deps cfg (query "" false 2) two_chunks)
    as (out & Hrun & H).
  assert (out = Return (map (to_Record memlog.deps "l1") [ur 2; ur 3], true) None) as Ho.
  { vm_compute in Hrun. by injection Hrun as <-. }
  destruct (H _ _ Ho [c1; c2] eq_refl) as [_ H2].
  destruct (H2 ltac:(discriminate)) as [Hm _]. exact Hm.
Defined.




(** Descending from record 6: the result starts with record 6. *)
Lemma C9_start_inclusive_witness :
  ∃ out, QueryRecords memlog.deps cfg (query "6" true 10) two_chunks = Some out ∧
    ∀ res more, out = Return (res, more) None →
      ∃ rest, res = to_Record memlog.deps "l1" (ur 6) :: rest.
Proof.
  apply (C9_start_inclusive memlog.deps cfg (query "6" true 10) two_chunks [c1; c2]
           1%nat c2 (chunkfs.mkChunk [ur 5; ur 6; ur 7] (λ _, None)) (ur 6)).
  - reflexivity.
  - reflexivity.
  - split; repeat constructor; simpl; lia.
  - reflexivity.
  - reflexivity.
  - reflexivity.
  - repeat constructor; simpl; lia.
  - apply list_elem_of_further, list_elem_of_here.
  - simpl. lia.
  - discriminate.
  - discriminate.
  - reflexivity.
  - vm_compute. discriminate.
  - vm_compute. discriminate.
Defined.

(** The catalog lists a chunk whose file is gone: the scan fails and the
    call returns [(0, 0)] without an error. *)
Lemma C10_CountRecords_scan_error_witness :
  CountRecords memlog.deps (query "2" false 0) lost_file = Some (Return (0, 0) None).
Proof.
  apply (C10_CountRecords_scan_error memlog.deps (query "2" false 0) lost_file
           [mkChunkInfo "c1" 2 2 1] 2 memlog.ErrNotExistV).
  - reflexivity.
  - reflexivity.
  - discriminate.
  - discriminate.
  - reflexivity.
  - vm_compute. split; [discriminate | reflexivity].
  - reflexivity.
Defined.

(** * Further properties *)

Module append_rounds.
Import logfs append_facts.

Lemma each_step_nil Q : each_step Q [].
Proof. intros pre ev post H. by destruct pre. Qed.

Lemma snoc_split {A} (pre post t : list A) (x y : A) :
  pre ++ x :: post = t ++ [y] →
  (post = [] ∧ pre = t ∧ x = y) ∨ (∃ post', post = post' ++ [y] ∧ t = pre ++ x :: post').
Proof.
  induction post as [|z post' _] using rev_ind; intros H.
  - left. apply app_inj_tail in H as [-> ->]. done.
  - right. change (pre ++ x :: post' ++ [z]) with (pre ++ (x :: post') ++ [z]) in H.
    rewrite app_assoc in H. apply app_inj_tail in H as [<- ->]. eauto.
Qed.

Lemma each_step_snoc Q tr ev :
  each_step Q tr → Q tr ev → each_step Q (tr ++ [ev]).
Proof.
  intros Htr Hev pre e post H. symmetry in H.
  apply snoc_split in H as [(_ & -> & ->) | (post' & _ & ->)]; [done|].
  by eapply Htr.
Qed.

Lemma each_step_app Q tr more :
  each_step Q tr → each_step (λ pre ev, Q (tr ++ pre) ev) more →
  each_step Q (tr ++ more).
Proof.
  revert tr. induction more as [|ev more IH] using rev_ind; intros tr Htr Hm.
  - by rewrite app_nil_r.
  - rewrite app_assoc. apply each_step_snoc.
    + apply IH; [done|]. intros pre e post H. apply (Hm pre e (post ++ [ev])).
      rewrite H. by rewrite <- app_assoc.
    + apply (Hm more ev []). done.
Qed.

(** Unfolds what a round says of its step and splits it. *)
Ltac round_facts Hw Hoob :=
  unfold goes_on, write_error_of, fatal_event, written_by, descriptor, len;
  simpl; rewrite ?Hw, ?Hoob; repeat split; try done.

Section facts.
Context {W : Type}.
Variable d : Deps W.

(** A loop-head property [J] that every round keeps gives a property [I]
    of the state the loop ends in. *)
Lemma append_loop_inv (J I : AppendState W → Prop) :
  (∀ s, J s → st_recs s = [] → I s) →
  (∀ s, J s → st_recs s ≠ [] →
        match append_body d s with Break s' => I s' | Continue s' => J s' end) →
  ∀ fuel st st', J st → append_loop d fuel st = Some st' → I st'.
Proof.
  intros HJI Hstep. induction fuel as [|fuel IH]; intros st st' HJ Hrun; [done|].
  simpl in Hrun. destruct (0 <? Z.of_nat (length (st_recs st))) eqn:Hlen; simpl in Hrun.
  - assert (st_recs st ≠ []) as Hne by (intros E; rewrite E in Hlen; done).
    pose proof (Hstep st HJ Hne) as Hb.
    destruct (append_body d st) as [s'|s'].
    + by injection Hrun as <-.
    + by eapply IH.
  - injection Hrun as <-. apply HJI; [done|].
    apply Z.ltb_ge in Hlen. destruct (st_recs st); [done | simpl in Hlen; lia].
Qed.

Local Abbreviation target := (logfs.target d).

(** What a round does to the variables of the loop. *)
Lemma append_body_round st :
  ∃ r,
    let nf := RecordsCount (st_ci st) =? 0 in
    let ev := EvWrite (target st) nf (st_recs st) r in
    match append_body d st with
    | Break st' =>
        st_trace st' = st_trace st ++ [ev] ∧
        st_recs st' = st_recs st ∧ st_added st' = st_added st ∧
        ((fatal_event ev = true ∧ st_panic st' ≠ None) ∨
         (∃ e, write_error_of ev = Some e ∧ st_gerr st' = Some e ∧
               st_panic st' = None ∧ st_cis st' = st_cis st ∧
               fatal_event ev = false ∧ written_by ev = 0 ∧
               ID (st_ci st') = target st ∧
               (RecordsCount (st_ci st') =? 0) = nf))
    | Continue st' =>
        st_trace st' = st_trace st ++ [ev] ∧ goes_on ev ∧
        st_recs st' = drop (Z.to_nat (written_by ev)) (st_recs st) ∧
        st_added st' = st_added st + written_by ev ∧
        0 ≤ written_by ev ≤ len (st_recs st) ∧
        st_cis st' = st_cis st ++ descriptor (st_ci st) ev ∧
        RecordsCount (st_ci st') = 0 ∧
        st_gerr st' = st_gerr st ∧ st_panic st' = None ∧
        (written_by ev = 0 → nf = false)
    end.
Proof.
  unfold append_body, target.
  destruct (RecordsCount (st_ci st) =? 0) eqn:Hrc.
  - destruct (NewID d (st_world st)) as [id w'].
    change (RecordsCount (ChunkInfo_new id) =? 0) with true. cbv iota.
    change (ID (ChunkInfo_new id)) with id. change ((id, w').1) with id.
    destruct (appendRecords d id true (st_recs st) w') as [r w1].
    exists r. destruct r as [arr|e|m]; cbv zeta.
    + destruct (0 <? chunkfs.Written arr) eqn:Hw.
      * destruct (Z.of_nat (length (st_recs st)) <? chunkfs.Written arr) eqn:Hoob.
        -- round_facts Hw Hoob. left. by round_facts Hw Hoob.
        -- apply Z.ltb_lt in Hw as Hw'. apply Z.ltb_ge in Hoob as Hoob'.
           round_facts Hw Hoob; eauto; lia.
      * round_facts Hw Hw. right. eexists. by round_facts Hw Hw.
    + round_facts Hrc Hrc. right. eexists. by round_facts Hrc Hrc.
    + round_facts Hrc Hrc. left. by round_facts Hrc Hrc.
  - cbv iota. rewrite Hrc.
    destruct (appendRecords d (ID (st_ci st)) false (st_recs st) (st_world st)) as [r w1].
    exists r. destruct r as [arr|e|m]; cbv zeta.
    + destruct (0 <? chunkfs.Written arr) eqn:Hw.
      * destruct (Z.of_nat (length (st_recs st)) <? chunkfs.Written arr) eqn:Hoob.
        -- round_facts Hw Hoob. left. by round_facts Hw Hoob.
        -- apply Z.ltb_lt in Hw as Hw'. apply Z.ltb_ge in Hoob as Hoob'.
           round_facts Hw Hoob; eauto; lia.
      * round_facts Hw Hw; eauto; try lia. by rewrite app_nil_r.
    + round_facts Hrc Hrc. right. eexists. by round_facts Hrc Hrc.
    + round_facts Hrc Hrc. left. by round_facts Hrc Hrc.
Qed.

End facts.
End append_rounds.

Module append_account.
Import logfs append_facts append_rounds.

Lemma written_by_nonneg ev : 0 ≤ written_by ev.
Proof.
  destruct ev as [c nf o [arr| |]| |]; simpl; try lia.
  destruct (0 <? chunkfs.Written arr) eqn:H; [apply Z.ltb_lt in H|]; lia.
Qed.

Lemma descriptor_none ci ev : written_by ev = 0 → descriptor ci ev = [].
Proof.
  destruct ev as [c nf o [arr| |]| |]; simpl; try done.
  destruct (0 <? chunkfs.Written arr) eqn:H; [apply Z.ltb_lt in H; lia | done].
Qed.

Lemma descriptor_new ci ci' c o r : descriptor ci (EvWrite c true o r) = descriptor ci' (EvWrite c true o r).
Proof. done. Qed.

Lemma flat_map_snoc {A B} (f : A → list B) l x : flat_map f (l ++ [x]) = flat_map f l ++ f x.
Proof. rewrite flat_map_app. simpl. by rewrite app_nil_r. Qed.

Section facts.
Context {W : Type}.
Variable d : Deps W.
Variable ci0 : ChunkInfo.
Variable w0 : W.
Variable recs0 : list solaris.Record_.

Local Abbreviation round_ok := (logfs.round_ok d ci0 w0 recs0).
Local Abbreviation accounted := (logfs.accounted d ci0 w0 recs0).
Local Abbreviation in_step := (logfs.in_step d ci0 w0 recs0).

Lemma in_step_start : in_step (mkAppendState ci0 recs0 0 [] None w0 [] None).
Proof.
  split; simpl; try done. apply each_step_nil.
Qed.

(** The write of a round is as [round_ok] says. *)
Lemma in_step_round st r :
  in_step st → st_recs st ≠ [] →
  round_ok (st_trace st)
    (EvWrite (target d st) (RecordsCount (st_ci st) =? 0) (st_recs st) r).
Proof.
  intros Hs Hne. exists (target d st), r. cbv zeta.
  rewrite <- (step_recs _ _ _ _ _ Hs).
  destruct (st_trace st) as [|e0 t] eqn:Ht.
  - destruct (step_first _ _ _ _ _ Hs Ht) as [Hci Hw].
    split; [by rewrite Hci|]. split; [done|]. intros _.
    unfold target. by rewrite Hci, Hw.
  - assert (RecordsCount (st_ci st) = 0) as Hz.
    { apply (step_later _ _ _ _ _ Hs). by rewrite Ht. }
    rewrite Hz. split; [done|]. split; [done|]. done.
Qed.

Lemma append_body_account st :
  in_step st → st_recs st ≠ [] →
  match append_body d st with
  | Break st' => accounted st'
  | Continue st' => in_step st'
  end.
Proof.
  intros Hs Hne.
  destruct (append_body_round d st) as [r Hr]. cbv zeta in Hr.
  pose proof (in_step_round st r Hs Hne) as Hok.
  set (ev := EvWrite (target d st) (RecordsCount (st_ci st) =? 0) (st_recs st) r) in *.
  pose proof Hs as [Htr Hgo Hrecs Hadd Hleft Hcis Hg Hp Hfirst Hlater].
  assert (descriptor (st_ci st) ev = descriptor ci0 ev) as Hdesc.
  { destruct (st_trace st) as [|e0 t] eqn:Ht.
    - by rewrite (proj1 (Hfirst eq_refl)).
    - unfold ev. rewrite (Hlater ltac:(done)). done. }
  destruct (append_body d st) as [st'|st'].
  - destruct Hr as (Ht' & Hrecs' & Hadd' & Hcase).
    split; [rewrite Ht'; by apply each_step_snoc|].
    destruct Hcase as [[Hf Hpanic] | (e & He & Hg' & Hp' & Hcis' & Hf & Hwb & Hid & Hrc)].
    + destruct (st_panic st') as [m|] eqn:Hm; [|done]. eauto.
    + rewrite Hp', Hg'.
      rewrite Ht', written_app, written_single, Hwb, Z.add_0_r.
      rewrite flat_map_snoc, (descriptor_none _ _ Hwb), app_nil_r.
      rewrite Hadd', Hcis', Hrecs'. repeat split; try done.
      eexists _, _, _, _, _. repeat split; eauto.
  - destruct Hr as (Ht' & Hgo' & Hrecs' & Hadd' & Hwb & Hcis' & Hrc & Hg' & Hp' & Hnf).
    pose proof (written_nonneg (st_trace st)) as Hnn.
    split.
    + rewrite Ht'. by apply each_step_snoc.
    + rewrite Ht'. apply Forall_app. split; [done | constructor; [done | constructor]].
    + rewrite Hrecs', Ht', written_app, written_single, Hrecs, drop_drop.
      f_equal. lia.
    + rewrite Hadd', Ht', written_app, written_single. lia.
    + rewrite Ht', written_app, written_single, Hrecs'.
      unfold len in *. rewrite length_drop. lia.
    + rewrite Hcis', Ht', flat_map_snoc, Hcis, Hdesc. done.
    + by rewrite Hg'.
    + done.
    + rewrite Ht'. intros E. by destruct (st_trace st).
    + done.
Qed.

Lemma in_step_accounted st : in_step st → st_recs st = [] → accounted st.
Proof.
  intros [Htr Hgo Hrecs Hadd Hleft Hcis Hg Hp Hfirst Hlater] Hnil.
  split; [done|]. rewrite Hp, Hg. repeat split; try done.
  intros E. by apply Hfirst.
Qed.

Lemma append_loop_account fuel st :
  append_loop d fuel (mkAppendState ci0 recs0 0 [] None w0 [] None) = Some st →
  accounted st.
Proof.
  apply (append_loop_inv d in_step accounted).
  - apply in_step_accounted.
  - apply append_body_account.
  - apply in_step_start.
Qed.

End facts.
End append_account.

Module append_runs.
Import logfs append_facts append_rounds append_account.

Lemma split_in_prefix {A} (P : A → Prop) (pre post t extra : list A) (x : A) :
  pre ++ x :: post = t ++ extra → P x → Forall (λ a, ¬ P a) extra →
  ∃ post', t = pre ++ x :: post' ∧ post = post' ++ extra.
Proof.
  intros H HP Hex. revert t H. induction pre as [|a pre IH]; intros [|y t] H; simpl in H.
  - subst extra. by apply Forall_cons in Hex as [Hx _].
  - injection H as <- ->. by exists t.
  - subst extra. apply Forall_cons in Hex as [_ Hex].
    apply Forall_app in Hex as [_ Hex]. by apply Forall_cons in Hex as [Hx _].
  - injection H as <- H. destruct (IH t H) as (post' & -> & ->). by exists post'.
Qed.

Lemma split_in_suffix {A} (P : A → Prop) (pre post t extra : list A) (x : A) :
  pre ++ x :: post = t ++ extra → P x → Forall (λ a, ¬ P a) t →
  ∃ pre', extra = pre' ++ x :: post ∧ pre = t ++ pre'.
Proof.
  intros H HP Ht. revert pre H. induction t as [|y t IH]; intros pre H; simpl in H.
  - by exists pre.
  - apply Forall_cons in Ht as [Hy Ht]. destruct pre as [|a pre]; simpl in H.
    + injection H as <- _. done.
    + injection H as <- H. destruct (IH Ht pre H) as (pre' & -> & ->). by exists pre'.
Qed.

Lemma goes_on_is_write t : Forall goes_on t → Forall (λ ev, is_write ev = true) t.
Proof.
  intros H. eapply Forall_impl; [exact H|].
  intros ev (_ & _ & c & nf & o & r & ->). done.
Qed.

Lemma written_no_write t : Forall (λ ev, is_write ev = false) t → written t = 0.
Proof.
  induction 1 as [|ev t Hev _ IH]; [done|].
  change (written (ev :: t)) with (written_by ev + written t). rewrite IH.
  destruct ev; try done.
Qed.

Lemma descriptor_no_write ci t :
  Forall (λ ev, is_write ev = false) t → flat_map (descriptor ci) t = [].
Proof.
  induction 1 as [|ev t Hev _ IH]; [done|]. simpl. rewrite IH.
  destruct ev; try done.
Qed.

Lemma fatal_no_upsert t :
  Forall (λ ev, match ev with EvUpsert _ _ _ => False | _ => True end) t →
  Forall (λ ev, is_write ev = false) t → fatal t = false.
Proof.
  intros H1 H2. unfold fatal. apply not_true_is_false. intros H.
  apply existsb_exists in H as (ev & Hin & Hf).
  apply list_elem_of_In in Hin.
  rewrite Forall_forall in H1, H2. specialize (H1 _ Hin). specialize (H2 _ Hin).
  destruct ev; try done.
Qed.

Section facts.
Context {W : Type}.
Variable d : Deps W.

Lemma AppendRecords_account req w :
  let lid := solaris.req_LogID req in
  ∃ out w' tr,
    AppendRecords d req w = Some (out, w', tr) ∧
    ((∃ e, out = Return None (Some e) ∧ w' = w ∧ tr = []) ∨
     ∃ st del tail,
       accounted d (GetLastChunk d lid w).1 w (solaris.Records req) st ∧
       tr = st_trace st ++ del ++ tail ∧ wraps_up lid st out del tail).
Proof.
  cbv zeta. unfold AppendRecords.
  destruct (lockers_GetOrCreate d _ w) as [e|].
  { eexists _, _, _. split; [reflexivity|]. left. eauto. }
  destruct (GetLastChunk d _ w) as [ci err] eqn:Hlast.
  destruct (match err with Some e => negb (Is e ErrNotExist) | None => false end) eqn:Herr.
  { destruct err as [e|]; [|done].
    eexists _, _, _. split; [reflexivity|]. left. eauto. }
  set (st0 := mkAppendState ci (solaris.Records req) 0 [] None w [] None).
  assert (steady st0) as Hs0 by (by split).
  destruct (append_loop_spec d (append_fuel (solaris.Records req)) st0 Hs0)
    as (st & Hloop & _).
  { unfold rounds_left, append_fuel. simpl. destruct (RecordsCount ci =? 0); lia. }
  rewrite Hloop.
  pose proof (append_loop_account d ci w (solaris.Records req) _ st Hloop) as Hacc.
  unfold wraps_up.
  destruct (st_panic st) as [m|] eqn:Hp.
  { eexists _, _, _. split; [reflexivity|]. right. exists st, [], [].
    rewrite !app_nil_r. rewrite Hp. done. }
  destruct (RecordsCount (st_ci st) =? 0) eqn:Hrc.
  - destruct (0 <? st_added st) eqn:Hadd.
    + destruct (UpsertChunkInfos d _ (st_cis st) _) as [[e|] w2].
      * eexists _, _, _. split; [reflexivity|]. right. eexists st, _, _.
        rewrite Hp, Hrc, Hadd. split; [done|]. split; [by rewrite <- app_assoc|].
        split; [done|]. by exists (Some e).
      * eexists _, _, _. split; [reflexivity|]. right. eexists st, _, _.
        rewrite Hp, Hrc, Hadd. split; [done|]. split; [by rewrite <- app_assoc|].
        split; [done|]. by exists None.
    + eexists _, _, _. split; [reflexivity|]. right. eexists st, _, [].
      rewrite Hp, Hrc, Hadd, app_nil_r. done.
  - destruct (0 <? st_added st) eqn:Hadd.
    + destruct (UpsertChunkInfos d _ (st_cis st) _) as [[e|] w2].
      * eexists _, _, _. split; [reflexivity|]. right. eexists st, [], _.
        rewrite Hp, Hrc, Hadd. split; [done|]. split; [done|].
        split; [done|]. by exists (Some e).
      * eexists _, _, _. split; [reflexivity|]. right. eexists st, [], _.
        rewrite Hp, Hrc, Hadd. split; [done|]. split; [done|].
        split; [done|]. by exists None.
    + eexists _, _, _. split; [reflexivity|]. right. eexists st, [], [].
      rewrite Hp, Hrc, Hadd, !app_nil_r. done.
Qed.

(** Nothing after the loop is a write. *)
Lemma wraps_up_no_write lid (st : AppendState W) out del tail :
  wraps_up lid st out del tail → Forall (λ ev, is_write ev = false) (del ++ tail).
Proof.
  unfold wraps_up. destruct (st_panic st).
  - intros (-> & -> & _). constructor.
  - intros [-> H]. apply Forall_app. split.
    + destruct (_ =? _); repeat constructor.
    + destruct (0 <? _).
      * destruct H as (err & -> & _). repeat constructor.
      * destruct H as [-> _]. constructor.
Qed.

End facts.
End append_runs.

Module query_bounds.
Import logfs query_facts.

Section facts.
Context {W : Type}.
Variable d : Deps W.
Variable cfg : Config.

Local Abbreviation within_budget := (logfs.within_budget cfg).
Local Abbreviation limit_of := (logfs.limit_of cfg).

Lemma within_budget_nil : within_budget [].
Proof. intros init last H. by destruct init. Qed.

Lemma within_budget_snoc rs r :
  bytes rs < MaxBunchSize cfg → within_budget (rs ++ [r]).
Proof. intros H init last E. by apply app_inj_tail in E as [<- _]. Qed.

Lemma len_snoc {A} (l : list A) x : len (l ++ [x]) = len l + 1.
Proof. unfold len. rewrite length_app. simpl. lia. Qed.

Lemma read_loop_bounds lid rem : ∀ limit res ts res' ts' R0,
  read_loop d cfg lid rem limit res ts = (res', ts') →
  ts = bytes (R0 ++ res) → within_budget (R0 ++ res) →
  len res' ≤ Z.max (len res) limit ∧ within_budget (R0 ++ res') ∧
  ts' = bytes (R0 ++ res').
Proof.
  induction rem as [|ur rem IH]; intros limit res ts res' ts' R0 Hrun Hts Hb; simpl in Hrun.
  - injection Hrun as <- <-. repeat split; [lia | done | done].
  - destruct ((len res <? limit) && (ts <? MaxBunchSize cfg)) eqn:Hc.
    + apply andb_true_iff in Hc as [Hl Ht]. apply Z.ltb_lt in Hl. apply Z.ltb_lt in Ht.
      apply (IH _ _ _ _ _ R0) in Hrun as (H1 & H2 & H3).
      * rewrite len_snoc in H1. repeat split; [lia | done | done].
      * rewrite app_assoc, bytes_app, Hts. unfold bytes at 3. simpl. lia.
      * rewrite app_assoc. apply within_budget_snoc. lia.
    + injection Hrun as <- <-. repeat split; [lia | done | done].
Qed.

Lemma query_loop_bounds w lid cis desc inc limit fuel : ∀ idx sid R ts out,
  query_loop d cfg fuel w lid cis desc inc limit idx sid R ts = Some out →
  ts = bytes R → within_budget R → len R ≤ Z.max 0 limit →
  ∀ res more err, out = Return (res, more) err →
    (err ≠ None → res = [] ∧ more = false) ∧
    (err = None → len res ≤ Z.max 0 limit ∧ within_budget res).
Proof.
  induction fuel as [|fuel IH]; intros idx sid R ts out Hrun Hts Hb Hlen; [done|].
  rewrite query_loop_S in Hrun.
  destruct ((0 <=? idx) && (idx <? len cis) && (len R <? limit)) eqn:Hc.
  - apply andb_true_iff in Hc as [_ Hlim]. apply Z.ltb_lt in Hlim.
    destruct (readRecords d cfg w lid (at_ cis idx) desc sid (limit - len R) ts)
      as [[srecs ts']|e|m] eqn:Hread.
    + unfold readRecords in Hread.
      destruct (open_cursor d w (at_ cis idx) desc sid) as [cr| |]; [|done..].
      injection Hread as Hread.
      apply (read_loop_bounds _ _ _ _ _ _ _ R) in Hread as (H1 & H2 & H3);
        [|by rewrite app_nil_r..].
      apply (IH _ _ _ _ _ Hrun); [done | done |].
      rewrite len_app. change (len (@nil solaris.Record_)) with 0 in H1. lia.
    + injection Hrun as <-. intros res more err [= <- <- <-]. split; [done|done].
    + injection Hrun as <-. done.
  - injection Hrun as <-. intros res more err [= <- <- <-]. split; [done|]. done.
Qed.

(** How a query runs: it returns nothing, or it panics, or it scans the
    chunks from where the request starts. *)
Lemma QueryRecords_cases req w :
  ∃ out, QueryRecords d cfg req w = Some out ∧
    ((∃ err, out = Return ([], false) err) ∨ (∃ m, out = Panicked m) ∨
     ∃ cis idx sid,
       GetChunks d (storage.LogID req) w = Ok cis ∧ cis ≠ [] ∧
       scan_start d cis req = Some (idx, sid) ∧
       scan_range cis (storage.Descending req) idx ∧
       query_loop d cfg (S (length cis)) w (storage.LogID req) cis
         (storage.Descending req) (if storage.Descending req then -1 else 1)
         (limit_of req) idx sid [] 0 = Some out).
Proof.
  destruct (QueryRecords_spec d cfg req w) as (out & Hrun & _).
  exists out. split; [exact Hrun|]. unfold QueryRecords in Hrun.
  destruct (lockers_GetOrCreate d _ w); [injection Hrun as <-; eauto|].
  destruct (GetChunks d (storage.LogID req) w) as [cis| |] eqn:Hcis;
    [|injection Hrun as <-; eauto..].
  destruct (len cis =? 0) eqn:Hlen; [injection Hrun as <-; eauto|].
  apply Z.eqb_neq in Hlen.
  assert (cis ≠ []) as Hne by (intros ->; by apply Hlen).
  fold (logfs.limit_of cfg req) in Hrun.
  unfold scan_start.
  destruct (negb (String.eqb (storage.StartID req) "")).
  - destruct (UnmarshalText d (storage.StartID req)) as [sid|];
      [|injection Hrun as <-; eauto].
    right. right. eexists cis, _, _. repeat split; try done. apply start_index_range.
  - right. right. eexists cis, _, _. repeat split; try done.
    unfold scan_range, len in *. destruct (storage.Descending req); lia.
Qed.

End facts.
End query_bounds.

Module query_scans.
Import logfs query_facts query_bounds.

Section facts.
Context {W : Type}.
Variable d : Deps W.
Variable cfg : Config.

Local Abbreviation full_scan := (logfs.full_scan d).
Local Abbreviation chunk_scan := (logfs.chunk_scan d).

Lemma read_loop_idle lid rem limit res ts :
  limit ≤ len res ∨ MaxBunchSize cfg ≤ ts →
  read_loop d cfg lid rem limit res ts = (res, ts).
Proof.
  intros H. destruct rem as [|ur rem]; [done|]. simpl.
  assert ((len res <? limit) && (ts <? MaxBunchSize cfg) = false) as ->; [|done].
  apply andb_false_iff. destruct H; [left; by apply Z.ltb_ge | right; by apply Z.ltb_ge].
Qed.

(** Once the record limit or the byte budget is reached, the chunk loop
    adds nothing. *)
Lemma query_loop_idle w lid cis desc inc limit fuel : ∀ idx sid R ts res more,
  limit ≤ len R ∨ MaxBunchSize cfg ≤ ts →
  query_loop d cfg fuel w lid cis desc inc limit idx sid R ts
    = Some (Return (res, more) None) →
  res = R.
Proof.
  induction fuel as [|fuel IH]; intros idx sid R ts res more Hfull Hrun; [done|].
  rewrite query_loop_S in Hrun.
  destruct ((0 <=? idx) && (idx <? len cis) && (len R <? limit)) eqn:Hc.
  - apply andb_true_iff in Hc as [_ Hlim]. apply Z.ltb_lt in Hlim.
    destruct Hfull as [Hfull|Hfull]; [lia|].
    unfold readRecords in Hrun.
    destruct (open_cursor d w (at_ cis idx) desc sid) as [cr| |]; [|done..].
    rewrite read_loop_idle in Hrun by (by right).
    apply IH in Hrun; [|by right]. by rewrite app_nil_r in Hrun.
  - by injection Hrun as <- _.
Qed.

Lemma query_loop_prefix w lid cis desc limit fuel : ∀ idx sid R ts res more all,
  scan_range cis desc idx →
  query_loop d cfg fuel w lid cis desc (if desc then -1 else 1) limit idx sid R ts
    = Some (Return (res, more) None) →
  full_scan w lid (visited cis desc idx) desc sid = Ok all →
  ∃ rs rest, res = R ++ rs ∧ all = rs ++ rest.
Proof.
  induction fuel as [|fuel IH]; intros idx sid R ts res more all Hr Hrun Hall; [done|].
  rewrite query_loop_S in Hrun.
  destruct ((0 <=? idx) && (idx <? len cis) && (len R <? limit)) eqn:Hc.
  - apply andb_true_iff in Hc as [Hc Hlim]. apply andb_true_iff in Hc as [Hlo Hhi].
    apply Z.leb_le in Hlo. apply Z.ltb_lt in Hhi. apply Z.ltb_lt in Hlim.
    destruct (readRecords d cfg w lid (at_ cis idx) desc sid (limit - len R) ts)
      as [[srecs ts']| |] eqn:Hread; [|done..].
    apply readRecords_scan in Hread as (allc & k & Hallc & Hs & Hts' & Hfull).
    rewrite (visited_step cis desc idx) in Hall by lia. simpl in Hall.
    rewrite Hallc in Hall.
    destruct (full_scan w lid (visited cis desc (idx + (if desc then -1 else 1))) desc 0)
      as [all'| |] eqn:Hrest; [|done..].
    injection Hall as <-.
    destruct Hfull as [Hfull|Hfull].
    + assert (scan_range cis desc (idx + (if desc then -1 else 1))) as Hr'
        by (apply scan_range_step; [done | lia]).
      destruct (IH _ _ _ _ _ _ all' Hr' Hrun Hrest) as (rs' & rest' & -> & Hall').
      exists (srecs ++ rs'), rest'. rewrite Hall', Hfull, <- !app_assoc. done.
    + apply query_loop_idle in Hrun.
      2:{ rewrite len_app. destruct (decide (len srecs < limit - len R)); [|left; lia].
          right. destruct (decide (ts' < MaxBunchSize cfg)); [|lia]. exfalso. by apply Hfull. }
      exists srecs, (drop k allc ++ all'). split; [done|].
      rewrite app_assoc. f_equal. rewrite Hs. by rewrite take_drop.
  - injection Hrun as <- _. exists [], all. by rewrite app_nil_r.
Qed.

End facts.

(** *** The chunk a scan starts in *)

Lemma Search_loop_threshold f n fuel : ∀ i j,
  0 ≤ i ≤ j → j ≤ n → (Z.to_nat (j - i) ≤ fuel)%nat →
  (∀ x y, 0 ≤ x ≤ y → y < n → f x = true → f y = true) →
  (∀ x, 0 ≤ x < i → f x = false) → (∀ x, j ≤ x < n → f x = true) →
  let r := sort.Search_loop fuel f i j in
  i ≤ r ≤ j ∧ (∀ x, 0 ≤ x < r → f x = false) ∧ (∀ x, r ≤ x < n → f x = true).
Proof.
  induction fuel as [|fuel IH]; intros i j Hij Hjn Hfuel Hmono Hlow Hhigh; simpl.
  - assert (i = j) as -> by lia. done.
  - destruct (i <? j) eqn:E.
    2:{ apply Z.ltb_ge in E. assert (i = j) as -> by lia. done. }
    apply Z.ltb_lt in E.
    rewrite Z.shiftr_div_pow2 by lia. change (2 ^ 1) with 2.
    assert (i ≤ (i + j) / 2 < j) as Hh.
    { split; [apply Z.div_le_lower_bound; lia | apply Z.div_lt_upper_bound; lia]. }
    set (h := (i + j) / 2) in *.
    destruct (f h) eqn:Hfh; simpl.
    + destruct (IH i h) as (H1 & H2 & H3); try done; try lia.
      { intros x Hx. apply (Hmono h x); [lia | lia | done]. }
      split; [lia|]. done.
    + destruct (IH (h + 1) j) as (H1 & H2 & H3); try done; try lia.
      { intros x Hx. destruct (f x) eqn:Hfx; [|done].
        rewrite <- Hfh. symmetry. apply (Hmono x h); [lia | lia | done]. }
      split; [lia|]. done.
Qed.

Lemma Search_threshold n f :
  0 ≤ n →
  (∀ x y, 0 ≤ x ≤ y → y < n → f x = true → f y = true) →
  let r := sort.Search n f in
  0 ≤ r ≤ n ∧ (∀ x, 0 ≤ x < r → f x = false) ∧ (∀ x, r ≤ x < n → f x = true).
Proof.
  intros Hn Hmono. unfold sort.Search.
  apply (Search_loop_threshold f n); try done; try lia.
Qed.

Lemma ordered_Max_Min cis i j :
  chunks_ordered cis → 0 ≤ i → i < j → j < len cis →
  Max (at_ cis i) < Min (at_ cis j).
Proof.
  intros [Hs _] Hi Hij Hj.
  destruct (at_in cis i) as (a & Ha & ->); [lia|].
  destruct (at_in cis j) as (c & Hc & ->); [lia|].
  apply (StronglySorted_lookup _ cis (Z.to_nat i) (Z.to_nat j) a c Hs Ha Hc). lia.
Qed.

Lemma ordered_Min_Max cis i :
  chunks_ordered cis → 0 ≤ i < len cis → Min (at_ cis i) ≤ Max (at_ cis i).
Proof.
  intros [_ Hm] Hi. destruct (at_in cis i) as (a & Ha & ->); [lia|].
  rewrite Forall_lookup in Hm. by apply (Hm _ _ Ha).
Qed.

End query_scans.

Module query_order.
Import logfs query_facts query_scans.

Lemma skip_to_suffix desc sid l : ∃ j, chunkfs.skip_to desc sid l = drop j l.
Proof.
  induction l as [|r l [j IH]]; simpl.
  - by exists 0%nat.
  - destruct (if desc then _ else _).
    + exists (S j). by rewrite IH.
    + by exists 0%nat.
Qed.

Lemma sorted_take_drop {A} (R : A → A → Prop) (l : list A) j k :
  StronglySorted R l → StronglySorted R (take k (drop j l)).
Proof.
  intros H. rewrite <- (take_drop j l) in H. apply StronglySorted_app_1_r in H.
  rewrite <- (take_drop k (drop j l)) in H. by apply StronglySorted_app_1_l in H.
Qed.

Section facts.
Context {W : Type}.
Variable d : Deps W.
Variable cfg : Config.

(** What [readRecords] returns is a run of the chunk's records, in the
    order of the cursor. *)
Lemma readRecords_taken w lid ci desc sid limit ts srecs ts' :
  readRecords d cfg w lid ci desc sid limit ts = Ok (srecs, ts') →
  ∃ rc j k,
    GetOpenedChunk d (ID ci) w = Ok rc ∧
    srecs = map (to_Record d lid)
              (take k (drop j (if desc then reverse (chunkfs.records rc)
                               else chunkfs.records rc))).
Proof.
  unfold readRecords, open_cursor, chunkfs.OpenChunkReader.
  destruct (GetOpenedChunk d (ID ci) w) as [rc| |]; try discriminate.
  destruct (chunkfs.reader_err rc desc); try discriminate.
  intros [= Hread]. apply read_loop_spec in Hread as (k & -> & _).
  exists rc. simpl.
  destruct (negb (ulid.Compare sid 0 =? 0)); simpl.
  - destruct (skip_to_suffix desc sid
                (if desc then reverse (chunkfs.records rc) else chunkfs.records rc))
      as [j ->].
    by exists j, k.
  - by exists 0%nat, k.
Qed.

Section ordered.
Variable w : W.
Variable lid : string.
Variable cis : list ChunkInfo.
Variable desc : bool.
Hypothesis ordered : chunks_ordered cis.
Hypothesis sound : ∀ ci rc, ci ∈ cis → GetOpenedChunk d (ID ci) w = Ok rc →
  StronglySorted (before false) (chunkfs.records rc) ∧
  Forall (λ ur, Min ci ≤ chunkfs.ID ur ≤ Max ci) (chunkfs.records rc).

Local Abbreviation ahead := (logfs.ahead cis desc).

Lemma query_loop_sorted limit fuel : ∀ idx sid R ts U res more,
  R = map (to_Record d lid) U → StronglySorted (before desc) U →
  Forall (ahead idx) U →
  query_loop d cfg fuel w lid cis desc (if desc then -1 else 1) limit idx sid R ts
    = Some (Return (res, more) None) →
  ∃ U', res = map (to_Record d lid) U' ∧ StronglySorted (before desc) U'.
Proof.
  induction fuel as [|fuel IH]; intros idx sid R ts U res more HR HU Hah Hrun; [done|].
  rewrite query_loop_S in Hrun.
  destruct ((0 <=? idx) && (idx <? len cis) && (len R <? limit)) eqn:Hc.
  2:{ injection Hrun as <- _. eauto. }
  apply andb_true_iff in Hc as [Hc _]. apply andb_true_iff in Hc as [Hlo Hhi].
  apply Z.leb_le in Hlo. apply Z.ltb_lt in Hhi.
  destruct (readRecords d cfg w lid (at_ cis idx) desc sid (limit - len R) ts)
    as [[srecs ts']| |] eqn:Hread; [|done..].
  apply readRecords_taken in Hread as (rc & j & k & Hrc & ->).
  destruct (sound _ rc (count_facts.at_elem_of cis idx ltac:(lia)) Hrc) as [Hs Hin].
  set (base := if desc then reverse (chunkfs.records rc) else chunkfs.records rc) in *.
  set (V := take k (drop j base)).
  assert (StronglySorted (before desc) base) as Hbase.
  { unfold base. destruct desc; [by apply before_reverse | done]. }
  assert (Forall (λ ur, Min (at_ cis idx) ≤ chunkfs.ID ur ≤ Max (at_ cis idx)) V) as HinV.
  { apply Forall_take, Forall_drop. unfold base. destruct desc; [by apply Forall_reverse | done]. }
  apply (IH _ _ _ _ (U ++ V)) in Hrun; [done | by rewrite map_app, HR | |].
  - apply StronglySorted_app_2; [|done|by apply sorted_take_drop].
    intros u v Hu Hv. rewrite Forall_forall in Hah, HinV.
    specialize (Hah u Hu idx). specialize (HinV v Hv). unfold before.
    destruct desc; [specialize (Hah ltac:(lia) Hhi) | specialize (Hah ltac:(lia) Hhi)]; lia.
  - apply Forall_app. split.
    + eapply Forall_impl; [exact Hah|]. intros u Hu i Hi Hlt. apply Hu; [|done].
      destruct desc; lia.
    + eapply Forall_impl; [exact HinV|]. intros v Hv i Hi Hlt. simpl in Hv.
      destruct desc.
      * pose proof (ordered_Max_Min cis i idx ordered ltac:(lia) ltac:(lia) Hhi). lia.
      * pose proof (ordered_Max_Min cis idx i ordered ltac:(lia) ltac:(lia) Hlt). lia.
Qed.

End ordered.
End facts.
End query_order.

(** ** [AppendRecords] *)

Import append_rounds append_account append_runs.

(** X1: when the log locker cannot be obtained, [AppendRecords] returns
    no result and an error that wraps the locker's error; when the last
    chunk cannot be fetched for a reason other than [ErrNotExist], it
    returns no result and that error. Either way nothing is written and
    the world is left as it was. *)
Theorem X1_AppendRecords_early_errors {W : Type} (d : Deps W)
    (req : solaris.AppendRecordsRequest) (w : W) :
  let lid := solaris.req_LogID req in
  (∀ e, lockers_GetOrCreate d lid w = Some e →
     ∃ e', AppendRecords d req w = Some (Return None (Some e'), w, []) ∧
           ∀ s, Is e' s = Is e s) ∧
  (∀ ci e, lockers_GetOrCreate d lid w = None →
     GetLastChunk d lid w = (ci, Some e) → Is e ErrNotExist = false →
     AppendRecords d req w = Some (Return None (Some e), w, [])).
Proof.
  cbv zeta. split.
  - intros e He. unfold AppendRecords. rewrite He. eexists. split; [reflexivity|]. done.
  - intros ci e Hl Hc He. unfold AppendRecords. rewrite Hl, Hc, He. done.
Qed.

(** X2: every write of a call is offered exactly the records of the
    request that are not yet written, in the order of the request, and
    never an empty batch: no record is skipped and none is offered again
    once written. *)
Theorem X2_AppendRecords_writes_in_order {W : Type} (d : Deps W)
    (req : solaris.AppendRecordsRequest) (w : W) :
  ∃ out w' tr,
    AppendRecords d req w = Some (out, w', tr) ∧
    ∀ pre cID newFile offered r post,
      tr = pre ++ EvWrite cID newFile offered r :: post →
      offered = drop (Z.to_nat (written pre)) (solaris.Records req) ∧ offered ≠ [].
Proof.
  destruct (AppendRecords_account d req w) as (out & w' & tr & Hrun & Hcase).
  exists out, w', tr. split; [exact Hrun|].
  intros pre cID nf offered r post Htr.
  destruct Hcase as [(e & _ & _ & ->) | (st & del & tail & [Hst _] & -> & Hend)].
  { by destruct pre. }
  symmetry in Htr.
  apply (split_in_prefix (λ ev, is_write ev = true)) in Htr as (post' & Htr & _);
    [|done|].
  2:{ eapply Forall_impl; [by eapply wraps_up_no_write|]. intros ev ->. done. }
  destruct (Hst _ _ _ Htr) as (c & r' & Hev & Hne & _).
  injection Hev as _ _ -> _. done.
Qed.

(** X3: the first write of a call goes to the last chunk of the log when
    the catalog gives one with records, and else to a new chunk with the
    ID [NewID] gives; every later write of the call goes to a new
    chunk. *)
Theorem X3_AppendRecords_write_targets {W : Type} (d : Deps W)
    (req : solaris.AppendRecordsRequest) (w : W) :
  let ci0 := (GetLastChunk d (solaris.req_LogID req) w).1 in
  ∃ out w' tr,
    AppendRecords d req w = Some (out, w', tr) ∧
    ∀ pre cID newFile offered r post,
      tr = pre ++ EvWrite cID newFile offered r :: post →
      (pre = [] →
         newFile = (RecordsCount ci0 =? 0) ∧
         cID = if RecordsCount ci0 =? 0 then (NewID d w).1 else ID ci0) ∧
      (pre ≠ [] → newFile = true).
Proof.
  cbv zeta.
  destruct (AppendRecords_account d req w) as (out & w' & tr & Hrun & Hcase).
  exists out, w', tr. split; [exact Hrun|].
  intros pre cID nf offered r post Htr.
  destruct Hcase as [(e & _ & _ & ->) | (st & del & tail & [Hst _] & -> & Hend)].
  { by destruct pre. }
  symmetry in Htr.
  apply (split_in_prefix (λ ev, is_write ev = true)) in Htr as (post' & Htr & _);
    [|done|].
  2:{ eapply Forall_impl; [by eapply wraps_up_no_write|]. intros ev ->. done. }
  destruct (Hst _ _ _ Htr) as (c & r' & Hev & _ & Hid).
  injection Hev as -> -> _ _. split.
  - intros ->. split; [done|]. by apply Hid.
  - intros Hne. by destruct pre.
Qed.

(** X4: [Added] is never negative and never more than the number of
    records of the request; an error comes only with [Added] 0; and a call
    that returns [Added] 0 without an error was given no records. *)
Theorem X4_AppendRecords_added_accounting {W : Type} (d : Deps W)
    (req : solaris.AppendRecordsRequest) (w : W) :
  ∃ out w' tr,
    AppendRecords d req w = Some (out, w', tr) ∧
    ∀ res err, out = Return (Some res) err →
      0 ≤ solaris.Added res ≤ len (solaris.Records req) ∧
      (err ≠ None → solaris.Added res = 0) ∧
      (err = None → solaris.Added res = 0 → solaris.Records req = []).
Proof.
  destruct (AppendRecords_account d req w) as (out & w' & tr & Hrun & Hcase).
  exists out, w', tr. split; [exact Hrun|].
  intros res err Hout.
  destruct Hcase as [(e & -> & _) | (st & del & tail & [_ Hst] & _ & Hend)]; [done|].
  unfold wraps_up in Hend. destruct (st_panic st) as [m|].
  { destruct Hend as (_ & _ & ->). done. }
  destruct Hst as (Hadd & _ & Hleft & Hg). destruct Hend as [_ Hend].
  pose proof (written_nonneg (st_trace st)) as Hnn.
  assert (0 ≤ len (st_recs st)) as Hlen by (unfold len; lia).
  destruct (0 <? st_added st) eqn:Hpos.
  - apply Z.ltb_lt in Hpos. destruct Hend as (e & _ & Hout').
    destruct e; rewrite Hout in Hout'; [done|].
    injection Hout' as -> ->. simpl. repeat split; [lia | lia | done | lia].
  - apply Z.ltb_ge in Hpos. destruct Hend as [_ Hout'].
    rewrite Hout in Hout'. injection Hout' as -> ->. simpl.
    repeat split; [lia | lia | lia |].
    intros Hnone _. rewrite Hnone in Hg. destruct Hg as (Hnil & _).
    rewrite Hnil in Hleft. unfold len in Hleft. simpl in Hleft.
    destruct (solaris.Records req); [done | simpl in Hleft; lia].
Qed.

(** X5: the catalog is updated at most once in a call, as its last
    step, for the log of the request, and only when records were written
    and nothing before it panicked; it is given one descriptor for each
    write that took records, in order, with the chunk's ID, [Min], [Max]
    and count as the codec reported them. A call that returns with
    [Added] above 0 has updated the catalog. *)
Theorem X5_AppendRecords_catalog_update {W : Type} (d : Deps W)
    (req : solaris.AppendRecordsRequest) (w : W) :
  let lid := solaris.req_LogID req in
  let ci0 := (GetLastChunk d lid w).1 in
  ∃ out w' tr,
    AppendRecords d req w = Some (out, w', tr) ∧
    (∀ pre l cis err post, tr = pre ++ EvUpsert l cis err :: post →
       post = [] ∧ l = lid ∧ 0 < written pre ∧ fatal pre = false ∧
       cis = flat_map (descriptor ci0) pre) ∧
    (∀ res err, out = Return (Some res) err → 0 < solaris.Added res →
       ∃ pre cis, tr = pre ++ [EvUpsert lid cis None]).
Proof.
  cbv zeta.
  destruct (AppendRecords_account d req w) as (out & w' & tr & Hrun & Hcase).
  exists out, w', tr. split; [exact Hrun|].
  destruct Hcase as [(e & -> & _ & ->) | (st & del & tail & [Hrounds Hst] & -> & Hend)].
  { split; [|done]. intros pre l cis err post H. by destruct pre. }
  set (P := λ ev : Event, match ev with EvUpsert _ _ _ => True | _ => False end).
  assert (Forall (λ ev, ¬ P ev) (st_trace st)) as Hnt.
  { apply Forall_forall. intros ev Hin HP. apply list_elem_of_split in Hin as (l1 & l2 & Hin).
    destruct (Hrounds _ _ _ Hin) as (c & r & -> & _). done. }
  unfold wraps_up in Hend. destruct (st_panic st) as [m|] eqn:Hp.
  { destruct Hend as (-> & -> & ->). rewrite !app_nil_r. split; [|done].
    intros pre l cis err post H. exfalso.
    symmetry in H. by apply (none_of P _ _ _ _ H I). }
  destruct Hend as [-> Hend].
  destruct Hst as (Hadd & Hcis & Hleft & Hg).
  assert (fatal (st_trace st) = false) as Hnf.
  { destruct (st_gerr st) as [e|].
    - destruct Hg as (t & c & nf & o & r & -> & Ht & _ & Hf & _).
      by rewrite fatal_app, (goes_on_fatal t Ht), fatal_single, Hf.
    - destruct Hg as (_ & Ht & _). by apply goes_on_fatal. }
  set (del := if RecordsCount (st_ci st) =? 0
              then [EvDeleteIfEmpty (ID (st_ci st))] else []) in *.
  assert (Forall (λ ev, is_write ev = false) del ∧ Forall (λ ev, ¬ P ev) del
          ∧ fatal del = false) as (Hdw & Hdp & Hdf).
  { unfold del. destruct (_ =? _); repeat split; repeat constructor; by intros []. }
  destruct (0 <? st_added st) eqn:Hpos.
  - apply Z.ltb_lt in Hpos. destruct Hend as (err0 & -> & Hout). split.
    + intros pre l cis err post H. symmetry in H. rewrite app_assoc in H.
      apply (split_in_suffix P) in H as (pre' & H & ->); [|done|by apply Forall_app].
      destruct pre' as [|x pre']; simpl in H.
      2:{ injection H as _ H. by destruct pre'. }
      injection H as <- <- <- <-. rewrite app_nil_r.
      rewrite written_app, fatal_app, flat_map_app, Hnf, Hdf.
      rewrite (written_no_write _ Hdw), (descriptor_no_write _ _ Hdw), app_nil_r.
      repeat split; try done. lia.
    + intros res err Hres _. rewrite Hres in Hout.
      destruct err0; [done|]. exists (st_trace st ++ del), (st_cis st).
      by rewrite <- app_assoc.
  - apply Z.ltb_ge in Hpos. destruct Hend as [-> Hout]. rewrite !app_nil_r. split.
    + intros pre l cis err post H. exfalso. symmetry in H.
      apply (none_of P _ _ _ _ H I). by apply Forall_app.
    + intros res err Hres Hadded. rewrite Hres in Hout. injection Hout as -> _.
      simpl in Hadded. lia.
Qed.

(** X6: a write that returns an error ends the call. What follows it in
    the history is exactly: the hand-over of the chunk's file to
    [DeleteFileIfEmpty] when the write was into a new chunk (for an
    existing chunk nothing is deleted), and then one catalog update when
    records were written before the failed write (none otherwise). The
    update carries the descriptors of the chunks written before it. *)
Theorem X6_AppendRecords_failed_write_ends {W : Type} (d : Deps W)
    (req : solaris.AppendRecordsRequest) (w : W) :
  let lid := solaris.req_LogID req in
  ∃ out w' tr,
    AppendRecords d req w = Some (out, w', tr) ∧
    ∀ pre cID newFile offered e post,
      tr = pre ++ EvWrite cID newFile offered (Err e) :: post →
      ∃ err,
        post = (if newFile then [EvDeleteIfEmpty cID] else [])
               ++ (if 0 <? written pre
                   then [EvUpsert lid
                           (flat_map (descriptor (GetLastChunk d lid w).1) pre) err]
                   else []).
Proof.
  cbv zeta.
  destruct (AppendRecords_account d req w) as (out & w' & tr & Hrun & Hcase).
  exists out, w', tr. split; [exact Hrun|].
  intros pre cID nf offered e post Htr.
  destruct Hcase as [(e' & _ & _ & ->) | (st & del & tail & [_ Hst] & -> & Hend)].
  { by destruct pre. }
  set (E := EvWrite cID nf offered (Err e)) in *.
  set (P := λ ev : Event, write_error_of ev ≠ None).
  assert (P E) as HE by done.
  assert (∀ l, Forall (λ ev, write_error_of ev = None) l → Forall (λ a, ¬ P a) l) as HnP.
  { intros l Hl. eapply Forall_impl; [exact Hl|]. intros ev H HP. by apply HP. }
  assert (Forall (λ ev, write_error_of ev = None) (del ++ tail)) as Hrest.
  { eapply Forall_impl; [by eapply wraps_up_no_write|]. by intros []. }
  unfold wraps_up in Hend. destruct (st_panic st) as [m|] eqn:Hp.
  { exfalso. destruct Hst as (t & ev & Ht & Hgo & Hf).
    destruct Hend as (-> & -> & _). rewrite Ht, !app_nil_r in Htr. symmetry in Htr.
    apply snoc_split in Htr as [(_ & _ & <-) | (post' & _ & ->)]; [done|].
    apply (none_of P pre post' (pre ++ E :: post') E eq_refl HE).
    by apply HnP, goes_on_no_error. }
  destruct Hst as (Hadd & Hcis & _ & Hg). destruct Hend as [Hdel Hend].
  destruct (st_gerr st) as [e0|].
  - destruct Hg as (t & c & nf' & o & r & Ht & Hgo & He & _ & _ & Hid & Hrc).
    pose proof Ht as Ht'.
    rewrite Ht, <- app_assoc in Htr. simpl in Htr. symmetry in Htr.
    apply (the_one P) in Htr as (-> & Hev & ->);
      [|done|by apply HnP, goes_on_no_error|by apply HnP].
    injection Hev as <- <- <- <-. subst E.
    rewrite Ht', written_app, written_single in Hadd.
    change (written_by (EvWrite cID nf offered (Err e))) with 0 in Hadd.
    rewrite Z.add_0_r in Hadd.
    rewrite Ht', flat_map_app in Hcis.
    change (flat_map _ [EvWrite cID nf offered (Err e)]) with (@nil ChunkInfo) in Hcis.
    rewrite app_nil_r in Hcis.
    rewrite Hadd in Hend. rewrite Hdel, Hrc, Hid.
    destruct (0 <? written t).
    + destruct Hend as (err & -> & _). exists err. by rewrite Hcis.
    + destruct Hend as (-> & _). by exists None.
  - exfalso. destruct Hg as (_ & Hgo & _). symmetry in Htr.
    apply (none_of P _ _ _ _ Htr HE). apply HnP, Forall_app.
    split; [by apply goes_on_no_error | done].
Qed.

(** X7: a request without records writes nothing and leaves the catalog
    alone: it returns [Added] 0 and no error. *)
Theorem X7_AppendRecords_empty_request {W : Type} (d : Deps W)
    (req : solaris.AppendRecordsRequest) (w : W) (ci : ChunkInfo) (err : option error) :
  solaris.Records req = [] →
  lockers_GetOrCreate d (solaris.req_LogID req) w = None →
  GetLastChunk d (solaris.req_LogID req) w = (ci, err) →
  (∀ e, err = Some e → Is e ErrNotExist = true) →
  ∃ w' tr,
    AppendRecords d req w = Some (Return (Result 0) None, w', tr) ∧
    tr = (if RecordsCount ci =? 0 then [EvDeleteIfEmpty (ID ci)] else []).
Proof.
  intros Hrecs Hl Hc He. unfold AppendRecords. rewrite Hl, Hc, Hrecs.
  assert (match err with Some e => negb (Is e ErrNotExist) | None => false end = false)
    as ->.
  { destruct err as [e|]; [|done]. by rewrite (He e eq_refl). }
  simpl. destruct (RecordsCount ci =? 0); eexists _, _; done.
Qed.

(** ** [QueryRecords] and [CountRecords] *)

Import query_bounds query_scans count_scans.

(** X8: a query returns at most as many records as the request asks
    for and at most [MaxRecordsLimit]; a limit of zero or less gives no
    records. *)
Theorem X8_QueryRecords_record_limit {W : Type} (d : Deps W) (cfg : Config)
    (req : storage.QueryRecordsRequest) (w : W) :
  ∃ out, QueryRecords d cfg req w = Some out ∧
    ∀ res more err, out = Return (res, more) err →
      len res ≤ Z.max 0 (storage.Limit req) ∧
      len res ≤ Z.max 0 (MaxRecordsLimit cfg).
Proof.
  destruct (QueryRecords_cases d cfg req w) as (out & Hrun & Hcase).
  exists out. split; [exact Hrun|]. intros res more err Hout.
  destruct Hcase as [(e & ->) | [(m & ->) | (cis & idx & sid & _ & _ & _ & _ & Hloop)]].
  - injection Hout as <- _ _. unfold len. simpl. lia.
  - done.
  - assert (len res ≤ Z.max 0 (limit_of cfg req)) as Hlen.
    { destruct (query_loop_bounds d cfg _ _ _ _ _ _ _ _ _ _ _ _ Hloop eq_refl
                  (within_budget_nil cfg) ltac:(unfold len; simpl; lia) _ _ _ Hout)
        as [Herr Hok].
      destruct err as [e|].
      - destruct (Herr ltac:(done)) as [-> _]. unfold len. simpl. lia.
      - by destruct (Hok eq_refl). }
    unfold limit_of in Hlen.
    destruct (MaxRecordsLimit cfg <? storage.Limit req) eqn:E;
      [apply Z.ltb_lt in E | apply Z.ltb_ge in E]; lia.
Qed.

(** X9: the byte budget is checked before each record is read: the
    payload bytes of the records returned, the last one left out, are
    below [MaxBunchSize]. *)
Theorem X9_QueryRecords_byte_budget {W : Type} (d : Deps W) (cfg : Config)
    (req : storage.QueryRecordsRequest) (w : W) :
  ∃ out, QueryRecords d cfg req w = Some out ∧
    ∀ res more err init last, out = Return (res, more) err →
      res = init ++ [last] → bytes init < MaxBunchSize cfg.
Proof.
  destruct (QueryRecords_cases d cfg req w) as (out & Hrun & Hcase).
  exists out. split; [exact Hrun|]. intros res more err init last Hout Hres.
  destruct Hcase as [(e & ->) | [(m & ->) | (cis & idx & sid & _ & _ & _ & _ & Hloop)]].
  - injection Hout as <- _ _. by destruct init.
  - done.
  - destruct (query_loop_bounds d cfg _ _ _ _ _ _ _ _ _ _ _ _ Hloop eq_refl
                (within_budget_nil cfg) ltac:(unfold len; simpl; lia) _ _ _ Hout)
      as [Herr Hok].
    destruct err as [e|].
    + destruct (Herr ltac:(done)) as [-> _]. by destruct init.
    + destruct (Hok eq_refl) as [_ Hb]. by apply (Hb init last).
Qed.

(** X10: a query that returns an error returns no records and a false
    [more] flag, whatever was read before the error. *)
Theorem X10_QueryRecords_error_drops_records {W : Type} (d : Deps W) (cfg : Config)
    (req : storage.QueryRecordsRequest) (w : W) :
  ∃ out, QueryRecords d cfg req w = Some out ∧
    ∀ res more e, out = Return (res, more) (Some e) → res = [] ∧ more = false.
Proof.
  destruct (QueryRecords_cases d cfg req w) as (out & Hrun & Hcase).
  exists out. split; [exact Hrun|]. intros res more e Hout.
  destruct Hcase as [(e' & ->) | [(m & ->) | (cis & idx & sid & _ & _ & _ & _ & Hloop)]].
  - by injection Hout as <- <- _.
  - done.
  - destruct (query_loop_bounds d cfg _ _ _ _ _ _ _ _ _ _ _ _ Hloop eq_refl
                (within_budget_nil cfg) ltac:(unfold len; simpl; lia) _ _ _ Hout)
      as [Herr _].
    by apply Herr.
Qed.

(** X11: the records a query returns are the first records of the scan
    of the log from the start position in the direction of the request:
    none is skipped and none is out of place. *)
Theorem X11_QueryRecords_prefix_of_scan {W : Type} (d : Deps W) (cfg : Config)
    (req : storage.QueryRecordsRequest) (w : W) :
  ∃ out, QueryRecords d cfg req w = Some out ∧
    ∀ res more cis idx sid all,
      out = Return (res, more) None →
      GetChunks d (storage.LogID req) w = Ok cis →
      scan_start d cis req = Some (idx, sid) →
      full_scan d w (storage.LogID req) (visited cis (storage.Descending req) idx)
                (storage.Descending req) sid = Ok all →
      res `prefix_of` all.
Proof.
  destruct (QueryRecords_cases d cfg req w) as (out & Hrun & Hcase).
  exists out. split; [exact Hrun|]. intros res more cis idx sid all Hout Hcis Hstart Hall.
  destruct Hcase as [(e' & ->) | [(m & ->) | (cis' & idx' & sid' & Hcis' & _ & Hs' & Hr & Hloop)]].
  - injection Hout as <- _ _. by exists all.
  - done.
  - rewrite Hcis in Hcis'. injection Hcis' as <-.
    rewrite Hstart in Hs'. injection Hs' as <- <-.
    rewrite Hout in Hloop.
    destruct (query_loop_prefix d cfg _ _ _ _ _ _ _ _ _ _ _ _ _ Hr Hloop Hall)
      as (rs & rest & -> & ->).
    by exists rest.
Qed.

(** X12: a start ID that does not parse makes [QueryRecords] and
    [CountRecords] fail with an [ErrInvalid] error on a log that has
    chunks; on a log without chunks the start ID is not looked at, and both
    return their empty result without an error. *)
Theorem X12_malformed_start_ID {W : Type} (d : Deps W) (cfg : Config)
    (req : storage.QueryRecordsRequest) (w : W) (cis : list ChunkInfo) :
  lockers_GetOrCreate d (storage.LogID req) w = None →
  GetChunks d (storage.LogID req) w = Ok cis →
  storage.StartID req ≠ "" →
  UnmarshalText d (storage.StartID req) = None →
  (cis ≠ [] →
     ∃ e, Is e ErrInvalid = true ∧
       QueryRecords d cfg req w = Some (Return ([], false) (Some e)) ∧
       CountRecords d req w = Some (Return (0, 0) (Some e))) ∧
  (cis = [] →
     QueryRecords d cfg req w = Some (Return ([], false) None) ∧
     CountRecords d req w = Some (Return (0, 0) None)).
Proof.
  intros Hl Hcis Hs Hparse. apply String.eqb_neq in Hs.
  unfold QueryRecords, CountRecords. rewrite Hl, Hcis. split.
  - intros Hne.
    assert ((len cis =? 0) = false) as ->.
    { unfold len. destruct cis; [done | simpl; lia]. }
    rewrite Hs. simpl negb. cbv iota. rewrite Hparse.
    exists (wrong_startID (storage.StartID req)). done.
  - intros ->. done.
Qed.

(** X13: a start ID beyond the last chunk of the log in the direction
    of the scan (above every [Max] when ascending, below every [Min] when
    descending) gives no records and no error; [CountRecords] then returns
    [(0, 0)], the total included. *)
Theorem X13_start_outside_log {W : Type} (d : Deps W) (cfg : Config)
    (req : storage.QueryRecordsRequest) (w : W) (cis : list ChunkInfo)
    (sid : ulid.ULID) :
  lockers_GetOrCreate d (storage.LogID req) w = None →
  GetChunks d (storage.LogID req) w = Ok cis →
  storage.StartID req ≠ "" →
  UnmarshalText d (storage.StartID req) = Some sid →
  (if storage.Descending req
   then Forall (λ ci, sid < Min ci) cis else Forall (λ ci, Max ci < sid) cis) →
  (∃ more, QueryRecords d cfg req w = Some (Return ([], more) None) ∧
           (1 ≤ limit_of cfg req → 1 ≤ MaxBunchSize cfg → more = false)) ∧
  CountRecords d req w = Some (Return (0, 0) None).
Proof.
  intros Hl Hcis Hs Hparse Hout. apply String.eqb_neq in Hs.
  unfold QueryRecords, CountRecords. rewrite Hl, Hcis.
  destruct (len cis =? 0) eqn:Hlen.
  { split; [|done]. exists false. done. }
  rewrite Hs. simpl negb. cbv iota. rewrite Hparse.
  fold (limit_of cfg req).
  assert (0 ≤ len cis) as Hn by (unfold len; lia).
  assert (start_index cis (storage.Descending req) sid
          = if storage.Descending req then -1 else len cis) as Hidx.
  { unfold start_index. destruct (storage.Descending req).
    - rewrite (Search_first (len cis) _ 0); [done | lia | lia |].
      intros x Hx. rewrite Compare_gt. apply Z.ltb_lt.
      rewrite Forall_forall in Hout. apply Hout. by apply at_elem_of.
    - rewrite (Search_first (len cis) _ (len cis)); [done | lia | | lia].
      intros x Hx. rewrite Compare_ge. apply Z.leb_gt.
      rewrite Forall_forall in Hout. apply Hout. by apply at_elem_of. }
  rewrite Hidx.
  assert ((0 <=? (if storage.Descending req then -1 else len cis))
          && ((if storage.Descending req then -1 else len cis) <? len cis) = false) as Hno.
  { destruct (storage.Descending req); [done|].
    apply andb_false_iff. right. apply Z.ltb_ge. lia. }
  split.
  - rewrite query_loop_S, Hno. simpl andb. cbv iota.
    eexists. split; [reflexivity|]. intros H1 H2.
    apply orb_false_iff. split; apply Z.leb_gt; unfold len; simpl; lia.
  - rewrite Hno. simpl. rewrite Hno. done.
Qed.

(** X14: over chunks in order, an ascending scan starts in the first
    chunk whose [Max] is not below the start ID, and a descending scan in
    the last chunk whose [Min] is not above it: a start ID between two
    chunks starts the scan at the next chunk in the direction of the
    scan. *)
Theorem X14_start_index_threshold (cis : list ChunkInfo) (desc : bool)
    (sid : ulid.ULID) :
  chunks_ordered cis →
  let idx := start_index cis desc sid in
  if desc then
    -1 ≤ idx < len cis ∧
    (∀ i, 0 ≤ i ≤ idx → Min (at_ cis i) ≤ sid) ∧
    (∀ i, idx < i < len cis → sid < Min (at_ cis i))
  else
    0 ≤ idx ≤ len cis ∧
    (∀ i, 0 ≤ i < idx → Max (at_ cis i) < sid) ∧
    (∀ i, idx ≤ i < len cis → sid ≤ Max (at_ cis i)).
Proof.
  intros Hord. cbv zeta. unfold start_index.
  assert (0 ≤ len cis) as Hn by (unfold len; lia).
  destruct desc.
  - destruct (Search_threshold (len cis)
                (λ i, 0 <? ulid.Compare (Min (at_ cis i)) sid) Hn) as (Hr & Hlow & Hhigh).
    { intros x y Hxy Hy. rewrite !Compare_gt. intros Hx. apply Z.ltb_lt in Hx.
      apply Z.ltb_lt. destruct (decide (x = y)) as [->|]; [done|].
      pose proof (ordered_Max_Min cis x y Hord ltac:(lia) ltac:(lia) Hy).
      pose proof (ordered_Min_Max cis x Hord ltac:(lia)). lia. }
    split; [lia|]. split.
    + intros i Hi. specialize (Hlow i ltac:(lia)). rewrite Compare_gt in Hlow.
      apply Z.ltb_ge in Hlow. done.
    + intros i Hi. specialize (Hhigh i ltac:(lia)). rewrite Compare_gt in Hhigh.
      by apply Z.ltb_lt in Hhigh.
  - destruct (Search_threshold (len cis)
                (λ i, 0 <=? ulid.Compare (Max (at_ cis i)) sid) Hn) as (Hr & Hlow & Hhigh).
    { intros x y Hxy Hy. rewrite !Compare_ge. intros Hx. apply Z.leb_le in Hx.
      apply Z.leb_le. destruct (decide (x = y)) as [->|]; [done|].
      pose proof (ordered_Max_Min cis x y Hord ltac:(lia) ltac:(lia) Hy).
      pose proof (ordered_Min_Max cis y Hord ltac:(lia)). lia. }
    split; [lia|]. split.
    + intros i Hi. specialize (Hlow i ltac:(lia)). rewrite Compare_ge in Hlow.
      by apply Z.leb_gt in Hlow.
    + intros i Hi. specialize (Hhigh i ltac:(lia)). rewrite Compare_ge in Hhigh.
      by apply Z.leb_le in Hhigh.
Qed.

(** X15: without a start ID, [CountRecords] opens no chunk: over a
    catalog whose counts are not negative and sum up within [uint64], it
    returns the sum of the [RecordsCount] of the log's chunks as both
    [total] and [count], in either direction. *)
Theorem X15_CountRecords_whole_log {W : Type} (d : Deps W)
    (req : storage.QueryRecordsRequest) (w : W) (cis : list ChunkInfo) :
  lockers_GetOrCreate d (storage.LogID req) w = None →
  GetChunks d (storage.LogID req) w = Ok cis →
  storage.StartID req = "" →
  Forall (λ ci, 0 ≤ RecordsCount ci) cis → total_count cis < 2 ^ 64 →
  CountRecords d req w = Some (Return (total_count cis, total_count cis) None).
Proof. apply CountRecords_no_start. Qed.

(** X16: over a catalog whose counts are exact (every chunk holds as
    many records as its [RecordsCount] says, the sum within [uint64]),
    [count] is the number of records the scan of the log from the start
    position in the direction of the request goes through, and [total] is
    the number of records of the log whenever the start position is in the
    log. *)
Theorem X16_CountRecords_counts_the_scan {W : Type} (d : Deps W)
    (req : storage.QueryRecordsRequest) (w : W) (cis : list ChunkInfo)
    (idx : Z) (sid : ulid.ULID) (all : list solaris.Record_) :
  lockers_GetOrCreate d (storage.LogID req) w = None →
  GetChunks d (storage.LogID req) w = Ok cis →
  Forall (λ ci, 0 ≤ RecordsCount ci) cis → total_count cis < 2 ^ 64 →
  (∀ ci rc, ci ∈ cis → GetOpenedChunk d (ID ci) w = Ok rc →
            len (chunkfs.records rc) = RecordsCount ci) →
  scan_start d cis req = Some (idx, sid) →
  full_scan d w (storage.LogID req) (visited cis (storage.Descending req) idx)
            (storage.Descending req) sid = Ok all →
  ∃ total, CountRecords d req w = Some (Return (total, len all) None) ∧
           (0 ≤ idx < len cis → total = total_count cis).
Proof.
  intros Hl Hcis Hnn Hfit Hex Hstart Hall.
  pose proof (total_count_nonneg cis Hnn) as Htot.
  assert (∀ chunks rs, chunks ⊆ cis →
            full_scan d w (storage.LogID req) chunks (storage.Descending req) 0 = Ok rs →
            len rs = total_count chunks) as Hrest.
  { intros chunks rs Hsub. apply full_scan_exact. intros ci rc Hin. apply Hex. by apply Hsub. }
  assert (∀ i, visited cis (storage.Descending req) i ⊆ cis) as Hsub.
  { intros i ci. unfold visited. destruct (storage.Descending req).
    - intros H. rewrite elem_of_reverse in H. by apply subseteq_take in H.
    - intros H. by apply subseteq_drop in H. }
  unfold scan_start in Hstart.
  destruct (negb (String.eqb (storage.StartID req) "")) eqn:Hs.
  - destruct (UnmarshalText d (storage.StartID req)) as [sid'|] eqn:Hparse; [|done].
    injection Hstart as <- <-.
    pose proof (start_index_range cis (storage.Descending req) sid') as Hr.
    set (idx := start_index cis (storage.Descending req) sid') in *.
    unfold CountRecords. rewrite Hl, Hcis.
    destruct (len cis =? 0) eqn:Hlen.
    { apply Z.eqb_eq in Hlen. assert (cis = []) as -> by (destruct cis; [done | unfold len in Hlen; simpl in Hlen; lia]).
      unfold visited in Hall. destruct (storage.Descending req); rewrite ?take_nil, ?drop_nil in Hall;
        injection Hall as <-; exists 0; (split; [done|]); unfold len; simpl; lia. }
    rewrite Hs, Hparse. fold idx.
    destruct ((0 <=? idx) && (idx <? len cis)) eqn:Hin.
    2:{ rewrite (matching_out cis _ _ _ _ _ Hin).
        rewrite (visited_out _ _ _ Hr Hin) in Hall. injection Hall as <-.
        exists 0. split; [done|]. intros Hi. exfalso.
        apply andb_false_iff in Hin as [H|H]; [apply Z.leb_gt in H | apply Z.ltb_ge in H]; lia. }
    apply andb_true_iff in Hin as [Hlo Hhi]. apply Z.leb_le in Hlo. apply Z.ltb_lt in Hhi.
    rewrite (visited_step cis _ idx) in Hall by lia. simpl in Hall.
    unfold chunk_scan in Hall. unfold countRecords.
    destruct (open_cursor d w (at_ cis idx) (storage.Descending req) sid') as [cr| |] eqn:Hcr;
      [|done..].
    destruct (full_scan d w (storage.LogID req)
                (visited cis (storage.Descending req)
                   (idx + (if storage.Descending req then -1 else 1)))
                (storage.Descending req) 0) as [rs'| |] eqn:Hscan; [|done..].
    injection Hall as <-.
    apply Hrest in Hscan; [|apply Hsub].
    destruct (open_cursor_length _ _ _ _ _ _ Hcr) as (rc & Hrc & Hrem).
    pose proof (Hex _ rc (at_elem_of cis idx ltac:(lia)) Hrc) as Hexact.
    pose proof (at_small cis Hnn Hfit idx ltac:(lia)) as Hsmall.
    assert (0 ≤ len (chunkfs.remaining cr)) as Hrem0 by (unfold len; lia).
    rewrite count_exact by lia.
    pose proof (seg_all cis) as Hsum.
    rewrite (seg_split cis 0 idx (len cis)) in Hsum by lia.
    rewrite (seg_first cis idx (len cis)) in Hsum by lia.
    pose proof (seg_nonneg cis Hnn 0 idx) as Hn1.
    pose proof (seg_nonneg cis Hnn (idx + 1) (len cis)) as Hn2.
    rewrite (total_visited cis _ _ _ (scan_range_step _ _ _ Hr ltac:(lia)) eq_refl) in Hscan.
    rewrite (uint64_small _ Hsmall). rewrite (wrap_small (0 + (0 + _))) by lia.
    assert (len (map (to_Record d (storage.LogID req)) (chunkfs.remaining cr) ++ rs')
            = len (chunkfs.remaining cr) + len rs') as ->.
    { rewrite len_app. f_equal. unfold len. by rewrite length_map. }
    destruct (storage.Descending req).
    + rewrite (skipped_down cis Hnn Hfit); unfold len in *; try lia.
      2:{ replace (Z.of_nat (length cis) - 1 + 1) with (Z.of_nat (length cis)) by lia. lia. }
      replace (Z.of_nat (length cis) - 1 + 1) with (Z.of_nat (length cis)) by lia.
      rewrite (matching_down cis Hnn Hfit); unfold len in *; try lia.
      2:{ replace (idx + -1 + 1) with idx in * by lia. lia. }
      replace (idx + -1 + 1) with idx in * by lia.
      eexists. split; [by rewrite Hscan|]. lia.
    + rewrite (skipped_up cis Hnn Hfit); unfold len in *; try lia.
      rewrite (matching_up cis Hnn Hfit); unfold len in *; try lia.
      eexists. split; [by rewrite Hscan|]. lia.
  - injection Hstart as <- <-.
    apply negb_false_iff, String.eqb_eq in Hs.
    rewrite (CountRecords_no_start d req w cis Hl Hcis Hs Hnn Hfit).
    exists (total_count cis). split; [|done].
    apply Hrest in Hall as ->; [|apply Hsub].
    assert (scan_range cis (storage.Descending req)
              (if storage.Descending req then len cis - 1 else 0)) as Hr.
    { unfold scan_range, len. destruct (storage.Descending req); lia. }
    rewrite (total_visited cis _ _ _ Hr eq_refl).
    destruct (storage.Descending req).
    + replace (len cis - 1 + 1) with (len cis) by lia. by rewrite seg_all.
    + by rewrite seg_all.
Qed.

Import query_order.

(** X25: over a log whose chunks are in order, each holding its records
    in ascending order of their IDs between its [Min] and [Max], the records
    a query returns are in strictly ascending order of their IDs, or
    strictly descending when the request is. *)
Theorem X25_QueryRecords_in_ID_order {W : Type} (d : Deps W) (cfg : Config)
    (req : storage.QueryRecordsRequest) (w : W) (cis : list ChunkInfo) :
  logfs.GetChunks d (storage.LogID req) w = Ok cis →
  chunks_ordered cis →
  (∀ ci rc, ci ∈ cis → GetOpenedChunk d (logfs.ID ci) w = Ok rc →
     StronglySorted (before false) (chunkfs.records rc) ∧
     Forall (λ ur, logfs.Min ci ≤ chunkfs.ID ur ≤ logfs.Max ci) (chunkfs.records rc)) →
  ∃ out, QueryRecords d cfg req w = Some out ∧
    ∀ res more, out = Return (res, more) None →
      ∃ urs, res = map (to_Record d (storage.LogID req)) urs ∧
             StronglySorted (before (storage.Descending req)) urs.
Proof.
  intros Hcis Hord Hsound.
  destruct (QueryRecords_cases d cfg req w) as (out & Hrun & Hcase).
  exists out. split; [exact Hrun|]. intros res more Hout.
  destruct Hcase as [(e & ->) | [(m & ->) | (cis' & idx & sid & Hcis' & _ & _ & _ & Hloop)]].
  - injection Hout as <- _ _. exists []. split; [done | constructor].
  - done.
  - rewrite Hcis in Hcis'. injection Hcis' as <-. rewrite Hout in Hloop.
    apply (query_loop_sorted d cfg w _ cis _ Hord Hsound _ _ _ _ _ _ [] _ _ eq_refl) in Hloop;
      [done | constructor | constructor].
Qed.

(** *** At samples *)

(** [TestAppendRecordsLimits]: the second write is offered the two
    records the first one left. *)
Lemma X2_AppendRecords_writes_in_order_witness :
  limits_trace !! 1%nat
    = Some (EvWrite "c3" true [memlog.rec_ 6; memlog.rec_ 11]
              (Ok (chunkfs.mkAppendRecordsResult 1 4 4))) ∧
  [memlog.rec_ 6; memlog.rec_ 11]
    = drop (Z.to_nat (written (take 1 limits_trace))) (solaris.Records limits_req).
Proof.
  split; [reflexivity|].
  destruct (X2_AppendRecords_writes_in_order memlog.deps limits_req (memlog.empty_world 10))
    as (out & w' & tr & Hrun & H).
  assert (tr = limits_trace) as ->.
  { vm_compute in Hrun. injection Hrun as _ _ <-. reflexivity. }
  destruct (H (take 1 limits_trace) "c3" true [memlog.rec_ 6; memlog.rec_ 11]
              (Ok (chunkfs.mkAppendRecordsResult 1 4 4)) (drop 2 limits_trace)) as [Ho _];
    [reflexivity | exact Ho].
Defined.

(** [TestAppendRecordsLimits]: [Added] 2 of 3 records, and no error. *)
Lemma X4_AppendRecords_added_accounting_witness :
  limits_run = Some (Return (Result 2) None, limits_world, limits_trace) ∧
  0 ≤ 2 ≤ len (solaris.Records limits_req).
Proof.
  split; [reflexivity|].
  destruct (X4_AppendRecords_added_accounting memlog.deps limits_req (memlog.empty_world 10))
    as (out & w' & tr & Hrun & H).
  assert (out = Return (Result 2) None) as Hout.
  { vm_compute in Hrun. injection Hrun as <- _ _. reflexivity. }
  destruct (H (solaris.mkAppendRecordsResult 2 []) None Hout) as [Hb _]. exact Hb.
Defined.

(** [TestAppendRecordsLimits]: the catalog update is the last step, with
    the descriptors of the chunks [c1] and [c3]. *)
Lemma X5_AppendRecords_catalog_update_witness :
  drop 4 limits_trace
    = [EvUpsert "l1" [mkChunkInfo "c1" 2 2 1; mkChunkInfo "c3" 4 4 1] None] ∧
  0 < written (take 4 limits_trace) ∧
  [mkChunkInfo "c1" 2 2 1; mkChunkInfo "c3" 4 4 1]
    = flat_map (descriptor ChunkInfo_zero) (take 4 limits_trace).
Proof.
  split; [reflexivity|].
  destruct (X5_AppendRecords_catalog_update memlog.deps limits_req (memlog.empty_world 10))
    as (out & w' & tr & Hrun & H & _).
  assert (tr = limits_trace) as ->.
  { vm_compute in Hrun. injection Hrun as _ _ <-. reflexivity. }
  destruct (H (take 4 limits_trace) "l1"
              [mkChunkInfo "c1" 2 2 1; mkChunkInfo "c3" 4 4 1] None [])
    as (_ & _ & Hw & _ & Hcis); [reflexivity|].
  split; [exact Hw | exact Hcis].
Defined.

(** A write into the chunk [c1] whose file is gone fails: the call ends
    there, with nothing deleted, as the chunk is not a new one, and with
    no catalog update, as nothing was written. *)
Lemma X6_AppendRecords_failed_write_ends_witness :
  AppendRecords memlog.deps more_samples.one_req lost_file
    = Some (Return (Result 0) (Some memlog.ErrNotExistV), lost_file,
            [EvWrite "c1" false [memlog.rec_ 1] (Err memlog.ErrNotExistV)]) ∧
  ∀ post,
    [EvWrite "c1" false [memlog.rec_ 1] (Err memlog.ErrNotExistV)]
      = [] ++ EvWrite "c1" false [memlog.rec_ 1] (Err memlog.ErrNotExistV) :: post →
    post = [].
Proof.
  split; [reflexivity|]. intros post Hpost.
  destruct (X6_AppendRecords_failed_write_ends memlog.deps more_samples.one_req lost_file)
    as (out & w' & tr & Hrun & H).
  assert (tr = [EvWrite "c1" false [memlog.rec_ 1] (Err memlog.ErrNotExistV)]) as ->.
  { vm_compute in Hrun. injection Hrun as _ _ <-. reflexivity. }
  destruct (H [] "c1" false [memlog.rec_ 1] memlog.ErrNotExistV post Hpost) as [err ->].
  reflexivity.
Defined.

Lemma X7_AppendRecords_empty_request_witness :
  ∃ w' tr,
    AppendRecords memlog.deps more_samples.empty_req (memlog.empty_world 10)
      = Some (Return (Result 0) None, w', tr) ∧
    tr = [EvDeleteIfEmpty ""].
Proof.
  apply (X7_AppendRecords_empty_request memlog.deps more_samples.empty_req
           (memlog.empty_world 10) ChunkInfo_zero None); try reflexivity.
  intros e [=].
Defined.

Lemma X12_malformed_start_ID_witness :
  ∃ e, Is e ErrInvalid = true ∧
    QueryRecords memlog.deps cfg (query "zz" false 10) two_chunks
      = Some (Return ([], false) (Some e)) ∧
    CountRecords memlog.deps (query "zz" false 10) two_chunks
      = Some (Return (0, 0) (Some e)).
Proof.
  destruct (X12_malformed_start_ID memlog.deps cfg (query "zz" false 10) two_chunks
              [c1; c2]) as [H _]; [reflexivity | reflexivity | discriminate | reflexivity |].
  apply H. discriminate.
Defined.

Lemma X13_start_outside_log_witness :
  (∃ more, QueryRecords memlog.deps cfg (query "9" false 10) two_chunks
             = Some (Return ([], more) None) ∧
           (1 ≤ limit_of cfg (query "9" false 10) → 1 ≤ MaxBunchSize cfg → more = false)) ∧
  CountRecords memlog.deps (query "9" false 10) two_chunks = Some (Return (0, 0) None).
Proof.
  apply (X13_start_outside_log memlog.deps cfg (query "9" false 10) two_chunks
           [c1; c2] 9); [reflexivity | reflexivity | discriminate | reflexivity |].
  repeat constructor.
Defined.

Lemma two_chunks_ordered : chunks_ordered [c1; c2].
Proof. split; repeat constructor; simpl; lia. Qed.

Lemma X14_start_index_threshold_witness :
  0 ≤ start_index [c1; c2] false 4 ≤ len [c1; c2] ∧
  (∀ i, 0 ≤ i < start_index [c1; c2] false 4 → Max (at_ [c1; c2] i) < 4) ∧
  (∀ i, start_index [c1; c2] false 4 ≤ i < len [c1; c2] → 4 ≤ Max (at_ [c1; c2] i)).
Proof. apply (X14_start_index_threshold [c1; c2] false 4 two_chunks_ordered). Defined.

Lemma X15_CountRecords_whole_log_witness :
  CountRecords memlog.deps (query "" true 0) two_chunks
    = Some (Return (total_count [c1; c2], total_count [c1; c2]) None).
Proof.
  apply (X15_CountRecords_whole_log memlog.deps (query "" true 0) two_chunks [c1; c2]);
    [reflexivity | reflexivity | reflexivity | | reflexivity].
  repeat constructor; simpl; lia.
Defined.

Lemma two_chunks_exact (ci : ChunkInfo) (rc : chunkfs.Chunk) :
  ci ∈ [c1; c2] → GetOpenedChunk memlog.deps (ID ci) two_chunks = Ok rc →
  len (chunkfs.records rc) = RecordsCount ci ∧
  StronglySorted (before false) (chunkfs.records rc) ∧
  Forall (λ ur, Min ci ≤ chunkfs.ID ur ≤ Max ci) (chunkfs.records rc).
Proof.
  intros Hin Hrc. apply elem_of_cons in Hin as [->|Hin].
  - vm_compute in Hrc. injection Hrc as <-.
    split; [reflexivity|]. split; repeat constructor; simpl; lia.
  - apply list_elem_of_singleton in Hin as ->.
    vm_compute in Hrc. injection Hrc as <-.
    split; [reflexivity|]. split; repeat constructor; simpl; lia.
Qed.

Lemma X16_CountRecords_counts_the_scan_witness :
  ∃ total,
    CountRecords memlog.deps (query "6" false 0) two_chunks
      = Some (Return (total, len (map (to_Record memlog.deps "l1") [ur 6; ur 7])) None) ∧
    (0 ≤ 1 < len [c1; c2] → total = total_count [c1; c2]).
Proof.
  apply (X16_CountRecords_counts_the_scan memlog.deps (query "6" false 0) two_chunks
           [c1; c2] 1 6 (map (to_Record memlog.deps "l1") [ur 6; ur 7]));
    try reflexivity.
  - repeat constructor; simpl; lia.
  - intros ci rc Hin Hrc. by destruct (two_chunks_exact ci rc Hin Hrc).
Defined.

Lemma X25_QueryRecords_in_ID_order_witness :
  ∃ out, QueryRecords memlog.deps cfg (query "6" true 10) two_chunks = Some out ∧
    ∀ res more, out = Return (res, more) None →
      ∃ urs, res = map (to_Record memlog.deps "l1") urs ∧
             StronglySorted (before true) urs.
Proof.
  apply (X25_QueryRecords_in_ID_order memlog.deps cfg (query "6" true 10) two_chunks
           [c1; c2]).
  - reflexivity.
  - exact two_chunks_ordered.
  - intros ci rc Hin Hrc. by destruct (two_chunks_exact ci rc Hin Hrc) as (_ & ? & ?).
Defined.

(** ** The cached meta storage *)

Module cache_more.
Import logfs cache cache_facts.

Section cached.
Context {S : Type}.
Variable storage_GetChunks : S → string → result (list ChunkInfo).
Variable storage_UpsertChunkInfos : S → string → list ChunkInfo → option error * S.

Local Abbreviation coherent := (coherent storage_GetChunks).
Local Abbreviation UpsertChunkInfos := (UpsertChunkInfos storage_UpsertChunkInfos).

(** After an update that leaves the other logs of the storage as they
    were, the cache agrees with the storage again. *)
Lemma UpsertChunkInfos_coherent s logID cis :
  coherent s →
  (∀ other, other ≠ logID →
     storage_GetChunks (storage_UpsertChunkInfos (storage_ s) logID cis).2 other
       = storage_GetChunks (storage_ s) other) →
  (storage_UpsertChunkInfos (storage_ s) logID cis).1 = None →
  coherent (UpsertChunkInfos s logID cis).2.
Proof.
  intros Hc Hother Hok. unfold cache.UpsertChunkInfos.
  destruct (storage_UpsertChunkInfos (storage_ s) logID cis) as [[e|] st'] eqn:Hup; [done|].
  simpl in *. intros k v. simpl. intros Hk.
  apply lookup_delete_Some in Hk as [Hne Hk].
  unfold chunks_loader. rewrite (Hother k) by done. by apply Hc.
Qed.

End cached.
End cache_more.

Import cache cache_facts cache_more.

(** X17: over a cache that agrees with the storage, [GetChunks] returns
    the chunks the storage gives for the log, each of them once, in
    ascending order of their IDs; an error of the storage is returned as it
    is and nothing is cached for the log. *)
Theorem X17_GetChunks_sorted_by_ID {S : Type}
    (storage_GetChunks : S → string → result (list ChunkInfo))
    (s : CachedStorage) (logID : string) :
  coherent storage_GetChunks s →
  (∀ cis, storage_GetChunks (storage_ s) logID = Ok cis →
     ∃ l, (GetChunks storage_GetChunks s logID).1 = Ok l ∧ l ≡ₚ cis ∧
          StronglySorted (λ a c, String.leb (ID a) (ID c) = true) l) ∧
  (∀ e, storage_GetChunks (storage_ s) logID = Err e →
     GetChunks storage_GetChunks s logID = (Err e, s)).
Proof.
  intros Hc. split.
  - intros cis Hcis. unfold GetChunks.
    rewrite (GetOrCreate_loader storage_GetChunks s logID Hc).
    unfold chunks_loader. rewrite Hcis. eexists. split; [reflexivity|].
    split; [apply Slice_Permutation|].
    eapply StronglySorted_impl; [|apply Slice_by_ID_sorted].
    intros a c H. by apply ltb_false_leb.
  - intros e He. unfold GetChunks, GetOrCreate.
    destruct (chunksCache s !! logID) as [cis|] eqn:Hl.
    + apply Hc in Hl. unfold chunks_loader in Hl. by rewrite He in Hl.
    + unfold chunks_loader. by rewrite He.
Qed.

(** X18: [UpsertChunkInfos] writes through to the storage. When the
    storage fails, its error is returned and the cached chunk lists are
    kept. When it succeeds and leaves the chunks of the other logs as they
    were, the cache agrees with the storage again, and the next
    [GetChunks] of the log reads the storage anew: it returns the updated
    chunks, not the list cached before. *)
Theorem X18_UpsertChunkInfos_invalidates {S : Type}
    (storage_GetChunks : S → string → result (list ChunkInfo))
    (storage_UpsertChunkInfos : S → string → list ChunkInfo → option error * S)
    (s : CachedStorage) (logID : string) (cis : list ChunkInfo) :
  let up := storage_UpsertChunkInfos (storage_ s) logID cis in
  let s' := (UpsertChunkInfos storage_UpsertChunkInfos s logID cis).2 in
  coherent storage_GetChunks s →
  (∀ other, other ≠ logID →
     storage_GetChunks up.2 other = storage_GetChunks (storage_ s) other) →
  (UpsertChunkInfos storage_UpsertChunkInfos s logID cis).1 = up.1 ∧
  storage_ s' = up.2 ∧
  (∀ e, up.1 = Some e → chunksCache s' = chunksCache s) ∧
  (up.1 = None →
     coherent storage_GetChunks s' ∧
     (GetChunks storage_GetChunks s' logID).1
       = chunks_loader storage_GetChunks up.2 logID).
Proof.
  cbv zeta. intros Hc Hother.
  pose proof (UpsertChunkInfos_coherent storage_GetChunks storage_UpsertChunkInfos
                s logID cis Hc Hother) as Hco.
  unfold UpsertChunkInfos in *.
  destruct (storage_UpsertChunkInfos (storage_ s) logID cis) as [[e|] st'] eqn:Hup;
    simpl in *.
  - repeat split; done.
  - repeat split; try done.
    + by apply Hco.
    + unfold GetChunks, GetOrCreate. simpl. rewrite lookup_delete_eq.
      by destruct (chunks_loader storage_GetChunks st' logID).
Qed.

(** *** At samples *)

Lemma X17_GetChunks_sorted_by_ID_witness :
  ∃ l, (GetChunks cache_samples.mem_GetChunks
          (NewCachedStorage cache_samples.two_chunks) "l1").1 = Ok l ∧
       l ≡ₚ [cache_samples.chunk "c2"; cache_samples.chunk "c1"] ∧
       StronglySorted (λ a c, String.leb (logfs.ID a) (logfs.ID c) = true) l.
Proof.
  destruct (X17_GetChunks_sorted_by_ID cache_samples.mem_GetChunks
              (NewCachedStorage cache_samples.two_chunks) "l1"
              (NewCachedStorage_coherent _ _)) as [H _].
  apply H. reflexivity.
Defined.

Lemma warm_cache_coherent : coherent cache_samples.mem_GetChunks more_samples.warm_cache.
Proof. apply GetOrCreate_coherent, NewCachedStorage_coherent. Qed.

(** The list cached for [l1] holds [c1] and [c2]; after the update the
    next [GetChunks] gives [c3]. *)
Lemma X18_UpsertChunkInfos_invalidates_witness :
  chunksCache more_samples.warm_cache !! "l1"
    = Some [cache_samples.chunk "c1"; cache_samples.chunk "c2"] ∧
  (GetChunks cache_samples.mem_GetChunks
     (UpsertChunkInfos more_samples.mem_Upsert more_samples.warm_cache "l1"
        [cache_samples.chunk "c3"]).2 "l1").1
    = Ok [cache_samples.chunk "c3"].
Proof.
  split; [reflexivity|].
  destruct (X18_UpsertChunkInfos_invalidates cache_samples.mem_GetChunks
              more_samples.mem_Upsert more_samples.warm_cache "l1"
              [cache_samples.chunk "c3"] warm_cache_coherent) as (_ & _ & _ & H).
  - intros other Hne. unfold cache_samples.mem_GetChunks, more_samples.mem_Upsert. simpl.
    by rewrite lookup_insert_ne.
  - destruct (H eq_refl) as [_ Hget]. rewrite Hget. reflexivity.
Defined.

(** ** The interval builder *)

Module ql_more.
Import ql ql_facts.

Lemma range_try_skip {A B Acc} (f : A → result B) (step : Acc → B → Acc)
    (l1 l2 : list A) (x : A) (b : B) : ∀ acc,
  f x = Ok b → (∀ acc', step acc' b = acc') →
  range_try f step (l1 ++ x :: l2) acc = range_try f step (l1 ++ l2) acc.
Proof.
  intros acc Hx Hb. revert acc. induction l1 as [|a l1 IH]; intros acc; simpl.
  - by rewrite Hx, Hb.
  - destruct (f a); [apply IH | done | done].
Qed.

Lemma range_try_neutral {A B Acc} (f : A → result B) (step : Acc → B → Acc)
    (l : list A) : ∀ acc r,
  range_try f step l acc = Ok r →
  Forall (λ a, ∀ b, f a = Ok b → ∀ acc', step acc' b = acc') l →
  r = acc.
Proof.
  induction l as [|a l IH]; intros acc r H Hall; simpl in H.
  - by injection H as <-.
  - apply Forall_cons in Hall as [Ha Hall].
    destruct (f a) as [b| |] eqn:Hf; [|done..].
    apply IH in H; [|done]. by rewrite H, (Ha b eq_refl).
Qed.

Lemma elem_of_foldl_union (os : list string) : ∀ (acc : gset string) op,
  op ∈ foldl (λ m o, {[o]} ∪ m) acc os ↔ op ∈ os ∨ op ∈ acc.
Proof.
  induction os as [|o os IH]; intros acc op; simpl.
  - split; [by right | intros [H|H]; [by apply elem_of_nil in H | done]].
  - rewrite IH, elem_of_cons, elem_of_union, elem_of_singleton. tauto.
Qed.

Section facts.
Context {T K Any VT ConstT : Type}.
Variable pkg : Package T K Any VT ConstT.
Variable ib : ParamIntervalBuilder T K Any VT ConstT.

Lemma buildOR_unfold ands :
  buildOR pkg ib (mkOrCondition ands) =
    match range_try (buildXCond pkg ib) (add_group (T:=T)) ands [] with
    | Ok groups => Ok (intersect ib groups)
    | Err e => Err e
    | Panic m => Panic m
    end.
Proof. reflexivity. Qed.

Lemma Build_unfold ors :
  Build pkg ib (mkExpression ors) =
    match range_try (buildOR pkg ib) (add_intervals (T:=T)) ors [] with
    | Ok res => Ok (union ib res)
    | Err e => Err e
    | Panic m => Panic m
    end.
Proof. reflexivity. Qed.

(** An expression all of whose comparisons are skipped gives no
    intervals. *)
Lemma Build_all_skipped :
  ∀ e r, Build pkg ib e = Ok r →
         Forall (λ c, buildCond pkg ib c = Ok []) (conds_of e) → r = [].
Proof.
  fix IH 1. intros [ors] r H Hall. rewrite Build_unfold in H.
  destruct (range_try _ _ ors []) as [res| |] eqn:Hr; try discriminate.
  injection H as <-.
  enough (res = []) as -> by apply union_nil.
  apply (range_try_neutral _ _ _ _ _ Hr). clear Hr res.
  simpl in Hall. induction ors as [|[ands] ors IHors]; [constructor|].
  simpl in Hall. apply Forall_app in Hall as [Ho Hall].
  constructor; [|by apply IHors]. clear IHors Hall.
  intros b Hb acc'. rewrite buildOR_unfold in Hb.
  destruct (range_try _ _ ands []) as [gs| |] eqn:Ha; try discriminate.
  injection Hb as <-.
  enough (gs = []) as -> by done.
  apply (range_try_neutral _ _ _ _ _ Ha). clear Ha gs.
  induction ands as [|[n oe oc] ands IHands]; [constructor|].
  simpl in Ho. apply Forall_app in Ho as [Hx Ho].
  constructor; [|by apply IHands]. clear IHands Ho.
  intros g Hg acc''. enough (g = []) as -> by done.
  simpl in Hg. destruct oe as [e'|].
  - destruct (Build pkg ib e') as [r'| |] eqn:Hb'; try discriminate.
    apply (IH e' r' Hb') in Hx. subst r'.
    destruct n; by injection Hg as <-.
  - destruct oc as [c|]; [|done].
    apply Forall_cons in Hx as [Hc _]. rewrite Hc in Hg.
    destruct n; by injection Hg as <-.
Qed.

End facts.
End ql_more.

Import ql ql_facts ql_more.

(** X19: [buildCond] checks both operands before it looks at the
    target: a left operand the dialect does not know, or one that allows
    no operation, is refused with an [ErrInvalid] error even when the
    builder is after another parameter; on the target parameter, a missing
    right operand, one the dialect does not know and one that allows no
    operation are refused alike. *)
Theorem X19_buildCond_operand_checks {T K Any VT ConstT : Type}
    (pkg : Package T K Any VT ConstT)
    (ib : ParamIntervalBuilder T K Any VT ConstT) (c : Condition ConstT) :
  (dialect ib !! ID (FirstParam c) = None →
     ∃ e, buildCond pkg ib c = Err e ∧ Is e ErrInvalid = true) ∧
  (∀ dp1,
     dialect ib !! ID (FirstParam c) = Some dp1 →
     has (Flags dp1) (PfLValue pkg) = true → has (Flags dp1) (PfNop pkg) = true →
     ∃ e, buildCond pkg ib c = Err e ∧ Is e ErrInvalid = true) ∧
  (∀ dp1,
     left_ok pkg ib c dp1 → Name (FirstParam c) = param ib → SecondParam c = None →
     ∃ e, buildCond pkg ib c = Err e ∧ Is e ErrInvalid = true) ∧
  (∀ dp1 p2,
     left_ok pkg ib c dp1 → Name (FirstParam c) = param ib →
     SecondParam c = Some p2 → dialect ib !! ID p2 = None →
     ∃ e, buildCond pkg ib c = Err e ∧ Is e ErrInvalid = true) ∧
  (∀ dp1 p2 dp2,
     left_ok pkg ib c dp1 → Name (FirstParam c) = param ib →
     SecondParam c = Some p2 → dialect ib !! ID p2 = Some dp2 →
     has (Flags dp2) (PfRValue pkg) = true → has (Flags dp2) (PfNop pkg) = true →
     ∃ e, buildCond pkg ib c = Err e ∧ Is e ErrInvalid = true).
Proof.
  repeat split.
  - intros Hd. unfold buildCond. rewrite Hd. eexists. split; [reflexivity | apply invalid_Is].
  - intros dp1 Hd Hl Hn. unfold buildCond. rewrite Hd, Hl, Hn. simpl.
    eexists. split; [reflexivity | apply invalid_Is].
  - intros dp1 (Hd & Hl & Hn) Hp H2. unfold buildCond.
    rewrite Hd, Hl, Hn, Hp, String.eqb_refl, H2. simpl.
    eexists. split; [reflexivity | apply invalid_Is].
  - intros dp1 p2 (Hd & Hl & Hn) Hp H2 Hd2. unfold buildCond.
    rewrite Hd, Hl, Hn, Hp, String.eqb_refl, H2, Hd2. simpl.
    eexists. split; [reflexivity | apply invalid_Is].
  - intros dp1 p2 dp2 (Hd & Hl & Hn) Hp H2 Hd2 Hr Hn2. unfold buildCond.
    rewrite Hd, Hl, Hn, Hp, String.eqb_refl, H2, Hd2, Hr, Hn2. simpl.
    eexists. split; [reflexivity | apply invalid_Is].
Qed.

(** X20: a comparison of the target parameter with an operand that is
    not a constant (another parameter that may stand on the right) is
    skipped, whatever its operator: no intervals and no error. *)
Theorem X20_buildCond_non_constant_skipped {T K Any VT ConstT : Type}
    (pkg : Package T K Any VT ConstT)
    (ib : ParamIntervalBuilder T K Any VT ConstT) (c : Condition ConstT)
    (dp1 : ParamDialect K Any VT ConstT) (p2 : Param ConstT)
    (dp2 : ParamDialect K Any VT ConstT) :
  left_ok pkg ib c dp1 → Name (FirstParam c) = param ib →
  SecondParam c = Some p2 → dialect ib !! ID p2 = Some dp2 →
  has (Flags dp2) (PfRValue pkg) = true → has (Flags dp2) (PfNop pkg) = false →
  Const p2 = None →
  buildCond pkg ib c = Ok [].
Proof.
  intros (Hd & Hl & Hn) Hp H2 Hd2 Hr Hn2 Hc. unfold buildCond.
  rewrite Hd, Hl, Hn, Hp, String.eqb_refl, H2, Hd2, Hr, Hn2, Hc. done.
Qed.

(** X21: for an accepted comparison of the target with a constant, the
    operators [<] and [>] ask of each operand the flag [PfComparable] or
    the flag [PfGreaterLess], and the operators [<=], [>=], [=] and [!=] ask
    [PfComparable] of both: an operand without gives an [ErrInvalid]
    error. With the flags in place and a constant of the interval's point
    type, [buildCond] returns the intervals [getIntervals] gives for the
    operator and the constant's value. *)
Theorem X21_buildCond_comparability {T K Any VT ConstT : Type}
    (pkg : Package T K Any VT ConstT)
    (ib : ParamIntervalBuilder T K Any VT ConstT) (c : Condition ConstT)
    (dp1 : ParamDialect K Any VT ConstT) (p2 : Param ConstT)
    (dp2 : ParamDialect K Any VT ConstT) :
  on_target pkg ib c dp1 p2 dp2 → Op c ∈ ops ib →
  let cmp1 := has (Flags dp1) (PfComparable pkg) in
  let cmp2 := has (Flags dp2) (PfComparable pkg) in
  let gl1 := has (Flags dp1) (PfGreaterLess pkg) in
  let gl2 := has (Flags dp2) (PfGreaterLess pkg) in
  let fit :=
    if bool_decide (Op c ∈ ["<"; ">"]) then (cmp1 || gl1) && (cmp2 || gl2)
    else if bool_decide (Op c ∈ ["<="; ">="; "="; "!="]) then cmp1 && cmp2
    else true in
  (fit = false → ∃ e, buildCond pkg ib c = Err e ∧ Is e ErrInvalid = true) ∧
  (fit = true → ∀ vf kVal tVal,
     castValueF pkg (ValueF dp2) (Type_ dp2) (Type_ dp1) = Ok vf →
     vf p2 (zeroK pkg) = Ok kVal → assertT pkg kVal = Some tVal →
     buildCond pkg ib c = Ok (getIntervals ib (Op c) tVal)).
Proof.
  intros ((Hd & Hl & Hn) & Hp & H2 & Hd2 & Hr & Hn2 & Hc) Hop. cbv zeta.
  unfold buildCond.
  rewrite Hd, Hl, Hn, Hp, String.eqb_refl, H2, Hd2, Hr, Hn2. simpl negb. cbv iota.
  rewrite (bool_decide_eq_true_2 _ Hc), (bool_decide_eq_true_2 _ Hop). simpl negb. cbv iota.
  assert (bool_decide (Op c ∈ ["<"; ">"])
          = String.eqb (Op c) "<" || String.eqb (Op c) ">") as ->.
  { apply eq_true_iff_eq. rewrite bool_decide_eq_true, orb_true_iff, !String.eqb_eq.
    rewrite !elem_of_cons, elem_of_nil. tauto. }
  assert (bool_decide (Op c ∈ ["<="; ">="; "="; "!="])
          = String.eqb (Op c) "<=" || String.eqb (Op c) ">="
            || String.eqb (Op c) "=" || String.eqb (Op c) "!=") as ->.
  { apply eq_true_iff_eq. rewrite bool_decide_eq_true, !orb_true_iff, !String.eqb_eq.
    rewrite !elem_of_cons, elem_of_nil. tauto. }
  destruct (String.eqb (Op c) "<" || String.eqb (Op c) ">") eqn:Hgl.
  - assert (String.eqb (Op c) "<=" || String.eqb (Op c) ">="
            || String.eqb (Op c) "=" || String.eqb (Op c) "!=" = false) as ->.
    { apply orb_true_iff in Hgl as [H|H]; apply String.eqb_eq in H; by rewrite H. }
    simpl andb.
    destruct (has (Flags dp1) (PfComparable pkg)), (has (Flags dp1) (PfGreaterLess pkg)),
      (has (Flags dp2) (PfComparable pkg)), (has (Flags dp2) (PfGreaterLess pkg));
      simpl; (split; [intros H; first [done | eexists; split; [reflexivity | apply invalid_Is]]
                     | intros H; first [done | intros vf kVal tVal -> -> ->; done]]).
  - simpl andb.
    destruct (String.eqb (Op c) "<=" || String.eqb (Op c) ">="
              || String.eqb (Op c) "=" || String.eqb (Op c) "!=");
    destruct (has (Flags dp1) (PfComparable pkg)), (has (Flags dp2) (PfComparable pkg));
      simpl; (split; [intros H; first [done | eexists; split; [reflexivity | apply invalid_Is]]
                     | intros H; first [done | intros vf kVal tVal -> -> ->; done]]).
Qed.

(** X22: a conjunct that gives no intervals is left out of the
    conjunction: [buildOR] returns what it returns without the conjunct.
    A skipped comparison does not narrow an AND, and neither does a nested
    expression whose intervals are empty. *)
Theorem X22_buildOR_leaves_out_empty_conjuncts {T K Any VT ConstT : Type}
    (pkg : Package T K Any VT ConstT)
    (ib : ParamIntervalBuilder T K Any VT ConstT)
    (ands1 ands2 : list (XCondition ConstT)) (x : XCondition ConstT) :
  buildXCond pkg ib x = Ok [] →
  buildOR pkg ib (mkOrCondition (ands1 ++ x :: ands2))
    = buildOR pkg ib (mkOrCondition (ands1 ++ ands2)).
Proof.
  intros Hx. rewrite !buildOR_unfold.
  by rewrite (range_try_skip _ _ ands1 ands2 x [] [] Hx).
Qed.

(** X23: the builder [NewParamIntervalBuilder] returns accepts exactly
    the operators of the list it is given. *)
Theorem X23_NewParamIntervalBuilder_accepts {T K Any VT ConstT : Type}
    (bs : Basis T) (dl : gmap string (ParamDialect K Any VT ConstT))
    (p : string) (os : list string) (op : string) :
  op ∈ ops (NewParamIntervalBuilder bs dl p os) ↔ op ∈ os.
Proof.
  simpl. rewrite elem_of_foldl_union. split; [|by left].
  intros [H|H]; [done|]. by apply elem_of_empty in H.
Qed.

(** X24: an expression all of whose comparisons are skipped (they are
    on other parameters, on operands that are not constants, or use
    operators the build does not accept) gives no intervals, under any
    nesting and negation: [Build] returns the empty list. *)
Theorem X24_Build_nothing_on_target {T K Any VT ConstT : Type}
    (pkg : Package T K Any VT ConstT)
    (ib : ParamIntervalBuilder T K Any VT ConstT)
    (e : Expression ConstT) (r : list (Interval T)) :
  Build pkg ib e = Ok r →
  Forall (λ c, buildCond pkg ib c = Ok []) (conds_of e) →
  Build pkg ib e = Ok [].
Proof. intros H Hall. by rewrite H, (Build_all_skipped pkg ib e r H Hall). Qed.

(** X26: [NOT (p = v)] gives the intervals [p != v] gives: for a
    comparison of the target with a constant, both operators accepted and
    both operands comparable, the negated equality and the inequality build
    the same intervals, or fail alike. *)
Theorem X26_negated_equality_is_inequality {T K Any VT ConstT : Type}
    (pkg : Package T K Any VT ConstT)
    (ib : ParamIntervalBuilder T K Any VT ConstT)
    (p1 p2 : Param ConstT) (dp1 dp2 : ParamDialect K Any VT ConstT) :
  let eq := mkCondition p1 "=" (Some p2) in
  let ne := mkCondition p1 "!=" (Some p2) in
  on_target pkg ib eq dp1 p2 dp2 → comparable pkg eq dp1 dp2 →
  "=" ∈ ops ib → "!=" ∈ ops ib →
  buildXCond pkg ib (mkXCondition true None (Some eq))
    = buildXCond pkg ib (mkXCondition false None (Some ne)).
Proof.
  cbv zeta. intros Hon Hcmp Heq Hne.
  assert (on_target pkg ib (mkCondition p1 "!=" (Some p2)) dp1 p2 dp2) as Hon' by exact Hon.
  assert (comparable pkg (mkCondition p1 "!=" (Some p2)) dp1 dp2) as Hcmp' by exact Hcmp.
  simpl.
  rewrite (buildCond_value pkg ib _ dp1 p2 dp2 Hon Heq Hcmp).
  rewrite (buildCond_value pkg ib _ dp1 p2 dp2 Hon' Hne Hcmp').
  destruct (castValueF pkg (ValueF dp2) (Type_ dp2) (Type_ dp1)) as [vf| |]; [|done..].
  destruct (vf p2 (zeroK pkg)) as [kVal| |]; [|done..].
  destruct (assertT pkg kVal) as [tVal|]; [|done].
  simpl. by rewrite app_nil_r.
Qed.

(** *** At samples *)

Lemma t_on_target (op : string) (v : Z) :
  on_target ql_samples.pkg ql_samples.ib_all (ql_samples.cmp_ "t" op v)
            more_samples.dp_t (ql_samples.num v) more_samples.dp_number.
Proof. repeat split; try reflexivity. by eexists. Qed.

Lemma X20_buildCond_non_constant_skipped_witness :
  buildCond ql_samples.pkg ql_samples.ib_all more_samples.t_lt_r = Ok [].
Proof.
  apply (X20_buildCond_non_constant_skipped ql_samples.pkg ql_samples.ib_all
           more_samples.t_lt_r more_samples.dp_t (ql_samples.par "r")
           more_samples.dp_number); try reflexivity.
  repeat split; reflexivity.
Defined.

Lemma X21_buildCond_comparability_witness :
  buildCond ql_samples.pkg ql_samples.ib_all (ql_samples.cmp_ "t" "<" 5)
    = Ok (getIntervals ql_samples.ib_all "<" 5).
Proof.
  destruct (X21_buildCond_comparability ql_samples.pkg ql_samples.ib_all
              (ql_samples.cmp_ "t" "<" 5) more_samples.dp_t (ql_samples.num 5)
              more_samples.dp_number (t_on_target "<" 5)) as [_ H].
  - apply (proj1 (bool_decide_eq_true _)). reflexivity.
  - apply (H eq_refl ql_samples.const_value 5 5); reflexivity.
Defined.

Lemma X22_buildOR_leaves_out_empty_conjuncts_witness :
  buildOR ql_samples.pkg ql_samples.ib_all
    (mkOrCondition [ql_samples.x_ (ql_samples.cmp_ "t" ">" 1);
                    ql_samples.x_ (ql_samples.cmp_ "u" "=" 5)])
  = buildOR ql_samples.pkg ql_samples.ib_all
      (mkOrCondition [ql_samples.x_ (ql_samples.cmp_ "t" ">" 1)]).
Proof.
  apply (X22_buildOR_leaves_out_empty_conjuncts ql_samples.pkg ql_samples.ib_all
           [ql_samples.x_ (ql_samples.cmp_ "t" ">" 1)] []
           (ql_samples.x_ (ql_samples.cmp_ "u" "=" 5))).
  reflexivity.
Defined.

Lemma X24_Build_nothing_on_target_witness :
  Build ql_samples.pkg ql_samples.ib_all more_samples.only_u = Ok [].
Proof.
  apply (X24_Build_nothing_on_target ql_samples.pkg ql_samples.ib_all
           more_samples.only_u []); [reflexivity|].
  repeat constructor.
Defined.

Lemma X26_negated_equality_is_inequality_witness :
  buildXCond ql_samples.pkg ql_samples.ib_all
    (mkXCondition true None (Some (ql_samples.cmp_ "t" "=" 5)))
  = buildXCond ql_samples.pkg ql_samples.ib_all
      (mkXCondition false None (Some (ql_samples.cmp_ "t" "!=" 5))).
Proof.
  apply (X26_negated_equality_is_inequality ql_samples.pkg ql_samples.ib_all
           (ql_samples.par "t") (ql_samples.num 5)
           more_samples.dp_t more_samples.dp_number (t_on_target "=" 5)).
  - split; reflexivity.
  - apply (proj1 (bool_decide_eq_true _)). reflexivity.
  - apply (proj1 (bool_decide_eq_true _)). reflexivity.
Defined.
